(** * Contextual: a shallow embedding of the core modules

    The development follows the JavaScript sources module by module:

    - [MomentumEngine] (src/core/MomentumEngine.js): the decay and
      confidence factors and their weighted combination;
    - [ContextBridge] and [CONTEXTUAL] (src/core/ContextBridge.js and
      src/core/index.js): platform switching and the facade's [transition];
    - [Binary64], [Text], [Regex] and [AIHousekeeper]
      (src/core/AIHousekeeper.js): binary64 arithmetic with its rounding
      written out, the eight scoring factors and [filterAnswers];
    - [JSON], [Runtime] and [StateVault] (src/core/StateVault.js):
      serialisation, the services of Node.js that the vault calls, and the
      vault with its encryption, persistence, backup and restore;
    - [VaultAdmin], [Bridging], [Amplifier], [MomentumTracking] and
      [Facade]: the remaining methods of the four classes (deleting and
      clearing, normalisation and bridging, amplification and statistics,
      the factors that read the state, the statistics of the engine and
      the transition history) and the construction of the facade.

    Part I holds the definitions, Parts II and III the theorems. *)

From Stdlib Require Import Reals QArith Qminmax Qround Qabs Qpower Psatz Lia ZArith NArith Bool List String Ascii.
From Stdlib Require Import Sorting.Permutation Sorting.Sorted.
From Stdlib Require DecimalString DecimalN DecimalFacts.
Import ListNotations.
Close Scope Q_scope.
Close Scope R_scope.

(* ================================================================== *)
(** * Part I.  The embedding                                           *)
(* ================================================================== *)

(** ** MomentumEngine.js

    The numbers of this module are read as real numbers: [Math.exp],
    [Math.log], [Math.max] and [Math.min] are [exp], [ln], [Rmax] and
    [Rmin].  The engine computes in binary64, where [max], [min] and the
    tests for zero are the same and the arithmetic is rounded: what is
    proved of the clamping and of the tests holds of the engine, what is
    proved of the exact value of the decay holds of the formula.
    [Date.now()] is an explicit argument [now]. *)

Module MomentumEngine.
Local Open Scope R_scope.

(** The five named factor scores ([vector.factors], [config.factors]). *)
Record Factors : Type := mkFactors {
  temporal : R;
  semantic : R;
  operational : R;
  depth : R;
  confidence : R
}.

(** [this.config] after the constructor has run. *)
Record config : Type := mkConfig {
  halfLife : R;
  minMomentum : R;
  maxHistory : R;
  factors : Factors
}.

(** The object handed to the constructor; [None] is an absent property. *)
Record options : Type := mkOptions {
  opt_halfLife : option R;
  opt_minMomentum : option R;
  opt_maxHistory : option R;
  opt_temporalWeight : option R;
  opt_semanticWeight : option R;
  opt_operationalWeight : option R;
  opt_depthWeight : option R;
  opt_confidenceWeight : option R;
  opt_factors : option Factors
}.

(** Truthiness of a number: every number but zero. *)
Definition truthy (x : R) : bool :=
  if Req_dec_T x 0 then false else true.

(** [x || d] where [x] is a number or absent. *)
Definition or_default (x : option R) (d : R) : R :=
  match x with
  | Some v => if truthy v then v else d
  | None => d
  end.

(** The trailing [...config] of the constructor: an own property of the
    caller's object replaces the value computed before it. *)
Definition spread {A : Type} (x : option A) (computed : A) : A :=
  match x with
  | Some v => v
  | None => computed
  end.

Definition constructor (o : options) : config :=
  {| halfLife := spread (opt_halfLife o) (or_default (opt_halfLife o) 30000);
     minMomentum := spread (opt_minMomentum o) (or_default (opt_minMomentum o) (1/10));
     maxHistory := spread (opt_maxHistory o) (or_default (opt_maxHistory o) 1000);
     factors := spread (opt_factors o)
       {| temporal := or_default (opt_temporalWeight o) (25/100);
          semantic := or_default (opt_semanticWeight o) (30/100);
          operational := or_default (opt_operationalWeight o) (20/100);
          depth := or_default (opt_depthWeight o) (15/100);
          confidence := or_default (opt_confidenceWeight o) (10/100) |} |}.

(** The part of [context.state] that the confidence factor reads: the
    properties [confidence] and [certainty], each a number or absent. *)
Record State : Type := mkState {
  state_confidence : option R;
  state_certainty : option R
}.

Record Context : Type := mkContext {
  lastAccess : R;
  accessCount : R;
  state : State
}.

(** Factor 1: exponential decay since the last access. *)
Definition _calculateTemporalMomentum (cfg : config) (now : R) (context : Context) : R :=
  let timeSinceAccess := now - lastAccess context in
  let decayConstant := ln 2 / halfLife cfg in
  let momentum := exp (- decayConstant * timeSinceAccess) in
  Rmax (minMomentum cfg) momentum.

(** [!v] for a property that is a number or absent. *)
Definition falsy (v : option R) : bool :=
  match v with
  | Some x => negb (truthy x)
  | None => true
  end.

(** [a || b || d] over two optional properties and a literal. *)
Definition first_truthy (a b : option R) (d : R) : R :=
  match a with
  | Some x => if truthy x then x else or_default b d
  | None => or_default b d
  end.

(** Factor 5: confidence carried by the state, with an access bonus. *)
Definition _calculateConfidenceMomentum (context : Context) : R :=
  let st := state context in
  if falsy (state_confidence st) && falsy (state_certainty st) then 1/2
  else
    let confidence := first_truthy (state_confidence st) (state_certainty st) (1/2) in
    let accessBonus := Rmin (3/10) (accessCount context * (5/100)) in
    Rmin 1 (confidence + accessBonus).

(** Weighted sum of the factors, clamped. *)
Definition _combineFactors (cfg : config) (f : Factors) : R :=
  let weights := factors cfg in
  let overall :=
    temporal f * temporal weights +
    semantic f * semantic weights +
    operational f * operational weights +
    depth f * depth weights +
    confidence f * confidence weights in
  Rmax (minMomentum cfg) (Rmin 1 overall).

End MomentumEngine.

(** ** Results of calls

    A call either returns a value or raises.  The promise returned by an
    [async] method is modelled by its settlement: [Return] for a fulfilled
    promise, [Throw] for a rejected one. *)

Inductive error : Type :=
  | Error (message : string)
  | TypeError (message : string)
  | SyntaxError (message : string).

Inductive outcome (A : Type) : Type :=
  | Return (a : A)
  | Throw (e : error).

Arguments Return {A} a.
Arguments Throw {A} e.

Definition raises {A : Type} (o : outcome A) : bool :=
  match o with
  | Return _ => false
  | Throw _ => true
  end.

(** [try { body } catch (error) { handler }]. *)
Definition try_catch {A : Type} (body : outcome A) (handler : error -> outcome A) : outcome A :=
  match body with
  | Return a => Return a
  | Throw e => handler e
  end.

Definition bind {A B : Type} (m : outcome A) (k : A -> outcome B) : outcome B :=
  match m with
  | Return a => k a
  | Throw e => Throw e
  end.

(** ** ContextBridge.js *)

Module ContextBridge.
Local Open Scope string_scope.

Record platform : Type := mkPlatform {
  name : string;
  connected : bool;
  contextId : option string
}.

(** One entry of [contextHistory]. *)
Record history_entry : Type := mkEntry {
  timestamp : string;
  from : option string;
  to : string;
  transferred : bool
}.

(** The instance: [platforms] is the object literal of the constructor,
    kept as its list of own properties.  A platform name is looked up
    among these own properties. *)
Record t : Type := mkBridge {
  platforms : list (string * platform);
  activeContext : option string;
  contextHistory : list history_entry
}.

Definition constructor : t :=
  {| platforms :=
       [ ("chatgpt", mkPlatform "ChatGPT" false None);
         ("claude", mkPlatform "Claude" false None);
         ("perplexity", mkPlatform "Perplexity" false None);
         ("gemini", mkPlatform "Gemini" false None) ];
     activeContext := None;
     contextHistory := [] |}.

(** [this.platforms[key]]. *)
Fixpoint lookup (key : string) (ps : list (string * platform)) : option platform :=
  match ps with
  | [] => None
  | (k, p) :: rest => if String.eqb k key then Some p else lookup key rest
  end.

(** [this.platforms[key] = p] for a key that is already there. *)
Fixpoint update (key : string) (p : platform) (ps : list (string * platform))
  : list (string * platform) :=
  match ps with
  | [] => []
  | (k, q) :: rest =>
      if String.eqb k key then (k, p) :: rest else (k, q) :: update key p rest
  end.

(** [this.platforms[key]?.connected], as a condition. *)
Definition is_connected (b : t) (key : string) : bool :=
  match lookup key (platforms b) with
  | Some p => connected p
  | None => false
  end.

(** [connect(platform, config)]; [fresh] is the identifier drawn by
    [_generateContextId]. *)
Definition connect (b : t) (fresh : string) (key : string) : outcome bool * t :=
  match lookup key (platforms b) with
  | None => (Throw (Error ("Unknown platform: " ++ key)), b)
  | Some p =>
      (Return true,
       {| platforms := update key (mkPlatform (name p) true (Some fresh)) (platforms b);
          activeContext := activeContext b;
          contextHistory := contextHistory b |})
  end.

(** What a fulfilled [switchContext] resolves to. *)
Record switch_result : Type := mkSwitch {
  success : bool;
  switched_platform : string;
  previousContext : option string;
  switched_contextId : option string
}.

(** [switchContext(platform, transferContext = true)]; [now] is
    [new Date().toISOString()].  [_transferContextData] only logs and
    waits, so it leaves no trace here. *)
Definition switchContext (b : t) (now : string) (key : string) (transferContext : bool)
  : outcome switch_result * t :=
  if negb (is_connected b key) then
    (Throw (Error ("Platform " ++ key ++ " is not connected")), b)
  else
    let previous := activeContext b in
    (Return {| success := true;
               switched_platform := key;
               previousContext := previous;
               switched_contextId :=
                 match lookup key (platforms b) with
                 | Some p => contextId p
                 | None => None
                 end |},
     {| platforms := platforms b;
        activeContext := Some key;
        contextHistory :=
          contextHistory b ++
          [ {| timestamp := now; from := previous; to := key;
               transferred := transferContext |} ] |}).

Definition disconnect (b : t) (key : string) : bool * t :=
  match lookup key (platforms b) with
  | Some p =>
      (true,
       {| platforms := update key (mkPlatform (name p) false None) (platforms b);
          activeContext :=
            match activeContext b with
            | Some a => if String.eqb a key then None else Some a
            | None => None
            end;
          contextHistory := contextHistory b |})
  | None => (false, b)
  end.

End ContextBridge.

(** ** index.js: the facade

    The facade calls [this.bridge.transition] and
    [this.bridge.getActiveContext].  A bridge class is described by the
    members it defines under these names; calling a member that a
    class does not define raises a [TypeError]. *)

Module CONTEXTUAL.
Local Open Scope string_scope.

Record bridge_class (B D : Type) : Type := mkClass {
  member_transition : option (B -> string -> D -> outcome bool * B);
  member_getActiveContext : option (B -> outcome unit * B)
}.

Arguments member_transition {B D} _.
Arguments member_getActiveContext {B D} _.

(** The class body of ContextBridge.js defines [connect],
    [switchContext], [normalizeConversation], [bridgeMessage],
    [onBridge], [getStats], [disconnect], [disconnectAll] and private
    helpers; it defines no [transition] and no [getActiveContext]. *)
Definition ContextBridge_class {D : Type} : bridge_class ContextBridge.t D :=
  {| member_transition := None;
     member_getActiveContext := None |}.

(** [transition(targetContextId, transitionData = {})].  On success the
    facade fetches the active context, has the momentum engine score it
    and logs the result; the returned value is [success]. *)
Definition transition {B D : Type} (cls : bridge_class B D) (bridge : B)
    (targetContextId : string) (transitionData : D) : outcome bool * B :=
  match member_transition cls with
  | None => (Throw (TypeError "this.bridge.transition is not a function"), bridge)
  | Some bridge_transition =>
      match bridge_transition bridge targetContextId transitionData with
      | (Throw e, bridge') => (Throw e, bridge')
      | (Return false, bridge') => (Return false, bridge')
      | (Return true, bridge') =>
          match member_getActiveContext cls with
          | None =>
              (Throw (TypeError "this.bridge.getActiveContext is not a function"), bridge')
          | Some getActiveContext =>
              match getActiveContext bridge' with
              | (Throw e, bridge'') => (Throw e, bridge'')
              | (Return _, bridge'') => (Return true, bridge'')
              end
          end
      end
  end.

End CONTEXTUAL.

(** ** Strings and regular expressions

    A string is its sequence of code units; the model covers code units
    below 256, one [ascii] each. *)

Module Text.
Local Open Scope string_scope.

Definition code (c : ascii) : nat := nat_of_ascii c.

Definition in_range (lo hi : nat) (c : ascii) : bool :=
  (lo <=? code c)%nat && (code c <=? hi)%nat.

Definition is_digit (c : ascii) : bool := in_range 48 57 c.
Definition is_upper (c : ascii) : bool := in_range 65 90 c.
Definition is_lower (c : ascii) : bool := in_range 97 122 c.

(** [\w]: letters, digits and the underscore. *)
Definition is_word_char (c : ascii) : bool :=
  is_digit c || is_upper c || is_lower c || (code c =? 95)%nat.

(** White space as [trim] sees it. *)
Definition is_space (c : ascii) : bool :=
  in_range 9 13 c || (code c =? 32)%nat || (code c =? 160)%nat.

(** Line terminators, which [.] does not match. *)
Definition is_line_terminator (c : ascii) : bool :=
  (code c =? 10)%nat || (code c =? 13)%nat.

(** Lower case of one code unit: A-Z, and the capital letters of the
    Latin-1 block (all of 192..222 but the multiplication sign 215). *)
Definition lower_char (c : ascii) : ascii :=
  if is_upper c || (in_range 192 222 c && negb (code c =? 215)%nat)
  then ascii_of_nat (code c + 32)
  else c.

Fixpoint toLowerCase (s : string) : string :=
  match s with
  | EmptyString => EmptyString
  | String c s' => String (lower_char c) (toLowerCase s')
  end.

(** [s.startsWith(p)] and [s.includes(p)]. *)
Fixpoint startsWith (p s : string) : bool :=
  match p, s with
  | EmptyString, _ => true
  | String a p', String b s' => Ascii.eqb a b && startsWith p' s'
  | String _ _, EmptyString => false
  end.

Fixpoint includes (p s : string) : bool :=
  startsWith p s ||
  match s with
  | EmptyString => false
  | String _ s' => includes p s'
  end.

(** [list.includes(w)] on a list of strings. *)
Definition member (w : string) (l : list string) : bool :=
  existsb (String.eqb w) l.

Definition flush (cur : list ascii) : list string :=
  match cur with
  | [] => []
  | _ => [string_of_list_ascii (rev cur)]
  end.

(** The maximal runs of characters satisfying [p], left to right; [cur]
    is the run being read, last character first. *)
Fixpoint runs (p : ascii -> bool) (cur : list ascii) (s : string) : list string :=
  match s with
  | EmptyString => flush cur
  | String c s' =>
      if p c then runs p (c :: cur) s'
      else flush cur ++ runs p [] s'
  end.

(** [s.split(/[...]+/)] for a class [sep] of separator characters: the
    pieces between the runs of separators, empty pieces at both ends
    included. *)
Fixpoint split_runs (sep : ascii -> bool) (cur : list ascii) (in_sep : bool) (s : string)
  : list string :=
  match s with
  | EmptyString => [string_of_list_ascii (rev cur)]
  | String c s' =>
      if sep c then
        if in_sep then split_runs sep [] true s'
        else string_of_list_ascii (rev cur) :: split_runs sep [] true s'
      else split_runs sep (c :: cur) false s'
  end.

Definition split (sep : ascii -> bool) (s : string) : list string :=
  split_runs sep [] false s.

(** [s.trim().length > 0]. *)
Fixpoint has_non_space (s : string) : bool :=
  match s with
  | EmptyString => false
  | String c s' => negb (is_space c) || has_non_space s'
  end.

End Text.

Module Regex.
Import Text.

(** Regular expressions over character classes. *)
Inductive regex : Type :=
  | Empty
  | Eps
  | Class (p : ascii -> bool)
  | Cat (r1 r2 : regex)
  | Alt (r1 r2 : regex)
  | Star (r : regex).

Fixpoint nullable (r : regex) : bool :=
  match r with
  | Empty => false
  | Eps => true
  | Class _ => false
  | Cat r1 r2 => nullable r1 && nullable r2
  | Alt r1 r2 => nullable r1 || nullable r2
  | Star _ => true
  end.

Definition cat (r1 r2 : regex) : regex :=
  match r1, r2 with
  | Empty, _ => Empty
  | _, Empty => Empty
  | Eps, _ => r2
  | _, _ => Cat r1 r2
  end.

Definition alt (r1 r2 : regex) : regex :=
  match r1, r2 with
  | Empty, _ => r2
  | _, Empty => r1
  | _, _ => Alt r1 r2
  end.

(** Brzozowski derivative. *)
Fixpoint deriv (c : ascii) (r : regex) : regex :=
  match r with
  | Empty => Empty
  | Eps => Empty
  | Class p => if p c then Eps else Empty
  | Cat r1 r2 =>
      if nullable r1 then alt (cat (deriv c r1) r2) (deriv c r2)
      else cat (deriv c r1) r2
  | Alt r1 r2 => alt (deriv c r1) (deriv c r2)
  | Star r1 => cat (deriv c r1) (Star r1)
  end.

(** The whole of [s] is a word of [r]. *)
Fixpoint matches (r : regex) (s : string) : bool :=
  match s with
  | EmptyString => nullable r
  | String c s' => matches (deriv c r) s'
  end.

Definition any : regex := Class (fun _ => true).

(** [.]: anything but a line terminator. *)
Definition dot : regex := Class (fun c => negb (is_line_terminator c)).

(** One character of a pattern under the [i] flag. *)
Definition chr_i (x : ascii) : regex :=
  Class (fun c => Ascii.eqb (lower_char c) (lower_char x)).

(** A literal under the [i] flag. *)
Fixpoint lit_i (w : string) : regex :=
  match w with
  | EmptyString => Eps
  | String x w' => Cat (chr_i x) (lit_i w')
  end.

(** [w1|w2|...] under the [i] flag. *)
Fixpoint alts_i (ws : list string) : regex :=
  match ws with
  | [] => Empty
  | [w] => lit_i w
  | w :: ws' => Alt (lit_i w) (alts_i ws')
  end.

(** [r.test(s)]: some substring of [s] is a word of [r]. *)
Definition test (r : regex) (s : string) : bool :=
  matches (Cat (Star any) (Cat r (Star any))) s.

(** [/^r/.test(s)]: some prefix of [s] is a word of [r]. *)
Definition test_at_start (r : regex) (s : string) : bool :=
  matches (Cat r (Star any)) s.

(** One alternative of a pattern used with [match] and the [g] flag. *)
Inductive token : Type :=
  | Digits
  | Word (w : string).

Fixpoint leading_digits (s : string) : nat :=
  match s with
  | EmptyString => 0
  | String c s' => if is_digit c then S (leading_digits s') else 0
  end.

(** Length of the match of one alternative at the head of [s]. *)
Definition match_token (t : token) (s : string) : option nat :=
  match t with
  | Digits =>
      match leading_digits s with
      | O => None
      | n => Some n
      end
  | Word w =>
      if startsWith (toLowerCase w) (toLowerCase s) then Some (String.length w) else None
  end.

(** The first alternative, in order, that matches at the head of [s]. *)
Fixpoint match_alternatives (ts : list token) (s : string) : option nat :=
  match ts with
  | [] => None
  | t :: ts' =>
      match match_token t s with
      | Some n => Some n
      | None => match_alternatives ts' s
      end
  end.

(** [(s.match(/(t1|t2|...)/gi) || []).length]: matches are searched left
    to right, each search resuming where the previous match ended;
    [skip] counts the characters of the current match still to pass. *)
Fixpoint count_matches (ts : list token) (skip : nat) (s : string) : nat :=
  match s with
  | EmptyString => 0
  | String _ s' =>
      match skip with
      | S k => count_matches ts k s'
      | O =>
          match match_alternatives ts s with
          | Some (S k) => S (count_matches ts k s')
          | _ => count_matches ts 0 s'
          end
      end
  end.

End Regex.

(** ** Binary64 arithmetic

    A finite JavaScript number is a rational number, and an arithmetic
    operation of the language returns its exact result rounded to the
    nearest binary64 number, a tie going to the even significand.
    Significands have 53 bits; the least exponent of the last place is
    -1074 (the subnormal numbers).  The numbers of the model have no upper
    end: it covers the operations whose results stay below 2^1024 in
    magnitude, where binary64 does not overflow. *)

Module Binary64.
Local Open Scope Q_scope.

Definition emin : Z := -1074.

(** The exponent [e] with [2^e <= q < 2^(e+1)], for a positive [q]. *)
Definition ilog2 (q : Q) : Z :=
  let e := (Z.log2 (Qnum q) - Z.log2 (Zpos (Qden q)))%Z in
  if Qle_bool (2 ^ e) q then e else (e - 1)%Z.

(** The integer nearest to [q]; of two that are equally near, the even
    one. *)
Definition nearest_even (q : Q) : Z :=
  let f := Qfloor q in
  match Qcompare (q - inject_Z f) (1 # 2) with
  | Lt => f
  | Gt => (f + 1)%Z
  | Eq => if Z.even f then f else (f + 1)%Z
  end.

(** The exponent of the last place of the binary64 numbers around [q]:
    52 places below the leading bit, and never below [emin]. *)
Definition exponent (q : Q) : Z := Z.max (ilog2 (Qabs q) - 52) emin.

(** The binary64 number nearest to [q]. *)
Definition round (q : Q) : Q :=
  if Qeq_bool q 0 then 0
  else inject_Z (nearest_even (q / 2 ^ exponent q)) * 2 ^ exponent q.

(** [x + y], [x - y], [x * y] and [x / y] on numbers. *)
Definition add (x y : Q) : Q := round (x + y).
Definition sub (x y : Q) : Q := round (x - y).
Definition mul (x y : Q) : Q := round (x * y).
Definition div (x y : Q) : Q := round (x / y).

(** The number that a decimal literal denotes. *)
Definition lit (q : Q) : Q := round q.

(** The multiples of the least subnormal number; every binary64 number
    is one. *)
Definition on_grid (q : Q) : Prop := exists z : Z, q == inject_Z z * 2 ^ emin.

End Binary64.

(** ** AIHousekeeper.js

    Scores are binary64 numbers: literals, quotients, products and sums
    are rounded as the engine rounds them. *)

Module AIHousekeeper.
Import Text Regex.
Local Open Scope string_scope.
Local Open Scope Q_scope.

Local Notation "x +. y" := (Binary64.add x y) (at level 50, left associativity).
Local Notation "x -. y" := (Binary64.sub x y) (at level 50, left associativity).
Local Notation "x *. y" := (Binary64.mul x y) (at level 40, left associativity).
Local Notation "x /. y" := (Binary64.div x y) (at level 40, left associativity).
Local Notation "# q" := (Binary64.lit q) (at level 5, q at level 1, format "# q").

Record Factors : Type := mkFactors {
  relevance : Q;
  completeness : Q;
  structure : Q;
  confidence : Q;
  contradiction : Q;
  context : Q;
  specificity : Q;
  evidence : Q
}.

Record Score : Type := mkScore {
  overall : Q;
  factors : Factors
}.

(** One entry of [filterHistory]. *)
Record history_entry : Type := mkEntry {
  timestamp : Z;
  question : string;
  candidateCount : nat;
  bestScore : Q;
  rejected : nat
}.

(** The instance: [filterHistory] is the only field that the methods
    below touch. *)
Record t : Type := mkHousekeeper {
  filterHistory : list history_entry
}.

(** The number of a length or a count: an integer of this size is a
    binary64 number. *)
Definition of_nat (n : nat) : Q := inject_Z (Z.of_nat n).

(** [text.match(/\b\w+\b/g) || []]: the maximal runs of word characters. *)
Definition _extractWords (text : string) : list string :=
  runs is_word_char [] text.

(** Factor 1: relevance to the question. *)
Definition _scoreRelevance (answer question : string) : Q :=
  let answerWords := _extractWords (toLowerCase answer) in
  let questionWords := _extractWords (toLowerCase question) in
  let overlap := filter (fun w => member w questionWords) answerWords in
  let relevance :=
    if (0 <? List.length questionWords)%nat
    then of_nat (List.length overlap) /. of_nat (List.length questionWords)
    else 0 in
  Qmin 1 (relevance +. #0.3).

(** Factor 2: completeness (optimal word count). *)
Definition _scoreCompleteness (answer : string) : Q :=
  let wordCount := List.length (_extractWords answer) in
  let optimal := 150%Z in
  let tolerance := 100%Z in
  if (wordCount <? 20)%nat then #0.3
  else if (500 <? wordCount)%nat then #0.6
  else
    let distance := Z.abs (Z.of_nat wordCount - optimal) in
    let score := 1 -. inject_Z distance /. inject_Z (optimal + tolerance) in
    Qmax 0 (Qmin 1 score).

Definition sentence_separator (c : ascii) : bool :=
  Ascii.eqb c "." || Ascii.eqb c "!" || Ascii.eqb c "?".

Definition paragraph_break : string :=
  String (ascii_of_nat 10) (String (ascii_of_nat 10) EmptyString).

(** Factor 3: structure (logical connectors, several sentences). *)
Definition _scoreStructure (answer : string) : Q :=
  let sentences := filter has_non_space (split sentence_separator answer) in
  let connectors :=
    ["therefore"; "however"; "moreover"; "furthermore";
     "additionally"; "consequently"; "nevertheless"; "thus"]%string in
  let hasConnectors := existsb (fun c => includes c (toLowerCase answer)) connectors in
  let multiSentence := (3 <=? List.length sentences)%nat in
  let hasParagraphs := includes paragraph_break answer in
  let score := #0.4 in
  let score := if hasConnectors then score +. #0.3 else score in
  let score := if multiSentence then score +. #0.2 else score in
  let score := if hasParagraphs then score +. #0.1 else score in
  Qmin 1 score.

(** Factor 4: confidence markers. *)
Definition _scoreConfidenceMarkers (answer : string) : Q :=
  let confident :=
    ["research shows"; "studies indicate"; "evidence suggests"; "proven"; "established"]%string in
  let uncertain :=
    ["might"; "maybe"; "perhaps"; "possibly"; "unclear"; "uncertain"]%string in
  let hasConfident := existsb (fun m => includes m (toLowerCase answer)) confident in
  let hasUncertain := existsb (fun m => includes m (toLowerCase answer)) uncertain in
  if hasConfident && negb hasUncertain then #0.9
  else if hasConfident && hasUncertain then #0.7
  else if negb hasConfident && negb hasUncertain then #0.5
  else #0.3.

Definition contradictionPatterns : list regex :=
  [ Cat (lit_i "but ") (Cat (alts_i ["then"; "also"; "however"]%string)
      (Cat (Star dot) (alts_i ["not"; "never"; "no"]%string)));
    Cat (alts_i ["although"; "while"; "whereas"]%string)
      (Cat (Star dot) (alts_i ["but"; "however"]%string));
    Cat (alts_i ["yes"; "true"; "correct"]%string)
      (Cat (Star dot) (Cat (alts_i ["but"; "however"]%string)
         (Cat (Star dot) (alts_i ["no"; "false"; "incorrect"]%string)))) ].

(** Factor 5: contradiction detection. *)
Definition _scoreContradictions (answer : string) : Q :=
  let hasContradiction := existsb (fun p => test p answer) contradictionPatterns in
  if hasContradiction then #0.3 else #1.0.

Inductive question_type : Type := how | why | what | when | general.

Definition _detectQuestionType (question : string) : question_type :=
  if test_at_start (lit_i "how") question then how
  else if test_at_start (lit_i "why") question then why
  else if test_at_start (lit_i "what") question then what
  else if test_at_start (lit_i "when") question then when
  else general.

Record answer_format : Type := mkFormat {
  hasSteps : bool;
  hasReasons : bool;
  hasDefinition : bool;
  hasTimeframe : bool
}.

Definition _detectAnswerFormat (answer : string) : answer_format :=
  {| hasSteps :=
       test (alts_i ["step"; "first"; "second"; "next"; "then"; "finally"]%string) answer;
     hasReasons :=
       test (alts_i ["because"; "since"; "due to"; "reason"; "cause"]%string) answer;
     hasDefinition :=
       test (alts_i ["is"; "means"; "refers to"; "defined as"]%string) answer;
     hasTimeframe :=
       test (alts_i ["when"; "during"; "after"; "before"; "time"; "period"]%string) answer |}.

(** Factor 6: context alignment. *)
Definition _scoreContextAlignment (answer question : string) : Q :=
  let questionType := _detectQuestionType question in
  let answerFormat := _detectAnswerFormat answer in
  let aligned :=
    match questionType with
    | how => hasSteps answerFormat
    | why => hasReasons answerFormat
    | what => hasDefinition answerFormat
    | when => hasTimeframe answerFormat
    | general => false
    end in
  if aligned then #0.9 else #0.5.

(** Factor 7: specificity against vagueness. *)
Definition _scoreSpecificity (answer : string) : Q :=
  let specific :=
    [Digits; Word "specific"; Word "particular"; Word "exact"; Word "precise"; Word "detailed"] in
  let vague :=
    [Word "some"; Word "many"; Word "few"; Word "several"; Word "various";
     Word "general"; Word "roughly"] in
  let specificCount := count_matches specific 0 answer in
  let vagueCount := count_matches vague 0 answer in
  if (vagueCount <? specificCount)%nat then #0.8
  else if (specificCount =? vagueCount)%nat then #0.5
  else #0.3.

(** Factor 8: presence of evidence. *)
Definition _scoreEvidence (answer : string) : Q :=
  let evidenceMarkers :=
    ["study"; "research"; "data"; "statistics"; "example";
     "case"; "experiment"; "analysis"; "findings"; "results"]%string in
  let count :=
    List.length (filter (fun m => includes m (toLowerCase answer)) evidenceMarkers) in
  Qmin 1 (of_nat count *. #0.2).

(** The eight factors and their weighted combination. *)
Definition _scoreAnswer (answer question : string) : Score :=
  let factors :=
    {| relevance := _scoreRelevance answer question;
       completeness := _scoreCompleteness answer;
       structure := _scoreStructure answer;
       confidence := _scoreConfidenceMarkers answer;
       contradiction := _scoreContradictions answer;
       context := _scoreContextAlignment answer question;
       specificity := _scoreSpecificity answer;
       evidence := _scoreEvidence answer |} in
  let overall :=
    relevance factors *. #0.25 +.
    completeness factors *. #0.15 +.
    structure factors *. #0.12 +.
    confidence factors *. #0.15 +.
    contradiction factors *. #0.10 +.
    context factors *. #0.10 +.
    specificity factors *. #0.08 +.
    evidence factors *. #0.05 in
  {| overall := overall; factors := factors |}.

Definition _calculateConfidence (score : Score) : Q := overall score.

(** [Array.prototype.sort] with a comparison function: the sort is
    stable, and for a consistent comparison function its result is the one
    stable ordering, which insertion from the right computes.  [cmp a b]
    negative or zero keeps [a] before a [b] that followed it. *)
Section Sort.
Context {A : Type} (cmp : A -> A -> Q).

Fixpoint insert (x : A) (l : list A) : list A :=
  match l with
  | [] => [x]
  | y :: l' => if Qle_bool (cmp x y) 0 then x :: y :: l' else y :: insert x l'
  end.

Definition sort (l : list A) : list A := fold_right insert [] l.

End Sort.

Record scored : Type := mkScored {
  scored_answer : string;
  scored_score : Score
}.

Record result : Type := mkResult {
  answer : string;
  score : Score;
  result_confidence : Q
}.

(** The argument [candidates]: an array of strings, or any other value. *)
Inductive candidates_arg : Type :=
  | not_an_array
  | array (l : list string).

(** [filterAnswers(candidates, question)]; [now] is [Date.now()]. *)
Definition filterAnswers (self : t) (now : Z) (candidates : candidates_arg) (question : string)
  : outcome result * t :=
  match candidates with
  | not_an_array => (Throw (Error "Candidates must be a non-empty array"), self)
  | array [] => (Throw (Error "Candidates must be a non-empty array"), self)
  | array (c :: cs) =>
      let scored_list :=
        map (fun answer => mkScored answer (_scoreAnswer answer question)) (c :: cs) in
      let sorted :=
        sort (fun a b => overall (scored_score b) -. overall (scored_score a)) scored_list in
      match sorted with
      | [] => (Throw (TypeError "Cannot read properties of undefined (reading 'score')"), self)
      | best :: others =>
          (Return {| answer := scored_answer best;
                     score := scored_score best;
                     result_confidence := _calculateConfidence (scored_score best) |},
           {| filterHistory :=
                filterHistory self ++
                [ {| timestamp := now;
                     question := question;
                     candidateCount := List.length (c :: cs);
                     bestScore := overall (scored_score best);
                     rejected := List.length others |} ] |})
      end
  end.

End AIHousekeeper.

Set Warnings "-register-all".

(** ** JSON

    Values that [JSON.parse] produces and [JSON.stringify] prints.
    Numbers are the integers; an object is the list of its own properties
    in enumeration order.  Strings are sequences of code units below 256. *)

Module JSON.
Local Open Scope string_scope.

Inductive value : Type :=
  | JNull
  | JBool (b : bool)
  | JNum (n : Z)
  | JStr (s : string)
  | JArr (items : list value)
  | JObj (members : list (string * value)).

(** [undefined] is [None]. *)
Definition jsval : Type := option value.
Definition undefined : jsval := None.

Definition quote_char : ascii := ascii_of_nat 34.
Definition backslash : ascii := ascii_of_nat 92.

Definition code (c : ascii) : nat := nat_of_ascii c.

(** *** Property access, truthiness, conversion to string *)

Fixpoint assoc (key : string) (m : list (string * value)) : jsval :=
  match m with
  | [] => None
  | (k, v) :: rest => if String.eqb k key then Some v else assoc key rest
  end.

(** [v.key] for a value [v] that is neither [null] nor [undefined]. *)
Definition get (key : string) (v : value) : jsval :=
  match v with
  | JObj m => assoc key m
  | _ => None
  end.

(** Defining an own property: an existing key keeps its place. *)
Fixpoint set_member (key : string) (v : value) (m : list (string * value))
  : list (string * value) :=
  match m with
  | [] => [(key, v)]
  | (k, w) :: rest =>
      if String.eqb k key then (k, v) :: rest else (k, w) :: set_member key v rest
  end.

Definition truthy (v : jsval) : bool :=
  match v with
  | None => false
  | Some JNull => false
  | Some (JBool b) => b
  | Some (JNum n) => negb (n =? 0)%Z
  | Some (JStr s) => negb (String.eqb s "")
  | Some (JArr _) => true
  | Some (JObj _) => true
  end.

Definition string_of_N (n : N) : string :=
  DecimalString.NilEmpty.string_of_uint (N.to_uint n).

(** Decimal numeral of an integer. *)
Definition string_of_Z (n : Z) : string :=
  if (n <? 0)%Z then String "-" (string_of_N (Z.abs_N n))
  else string_of_N (Z.to_N n).

Fixpoint join (sep : string) (l : list string) : string :=
  match l with
  | [] => ""
  | [x] => x
  | x :: rest => x ++ sep ++ join sep rest
  end.

(** [String(v)], as a template literal applies it. *)
Fixpoint to_string_value (v : value) : string :=
  match v with
  | JNull => "null"
  | JBool true => "true"
  | JBool false => "false"
  | JNum n => string_of_Z n
  | JStr s => s
  | JArr l =>
      join ","
        (map (fun x => match x with JNull => "" | _ => to_string_value x end) l)
  | JObj _ => "[object Object]"
  end.

Definition to_string (v : jsval) : string :=
  match v with
  | None => "undefined"
  | Some x => to_string_value x
  end.

(** Structural equality, which is the equality of map keys on
    primitive values. *)
Fixpoint eqb (a b : value) : bool :=
  match a, b with
  | JNull, JNull => true
  | JBool x, JBool y => Bool.eqb x y
  | JNum x, JNum y => (x =? y)%Z
  | JStr x, JStr y => String.eqb x y
  | JArr x, JArr y =>
      (fix all2 (l1 l2 : list value) : bool :=
         match l1, l2 with
         | [], [] => true
         | u :: l1', w :: l2' => eqb u w && all2 l1' l2'
         | _, _ => false
         end) x y
  | JObj x, JObj y =>
      (fix all2 (l1 l2 : list (string * value)) : bool :=
         match l1, l2 with
         | [], [] => true
         | (k1, u) :: l1', (k2, w) :: l2' => String.eqb k1 k2 && eqb u w && all2 l1' l2'
         | _, _ => false
         end) x y
  | _, _ => false
  end.

Definition jsval_eqb (a b : jsval) : bool :=
  match a, b with
  | None, None => true
  | Some x, Some y => eqb x y
  | _, _ => false
  end.

(** *** [JSON.stringify] *)

Definition hex_digit (n : nat) : ascii :=
  if (n <? 10)%nat then ascii_of_nat (48 + n) else ascii_of_nat (87 + n).

(** The escape of one code unit inside a string literal. *)
Definition escape_char (c : ascii) : string :=
  let n := code c in
  if (n =? 34)%nat then String backslash (String quote_char "")
  else if (n =? 92)%nat then String backslash (String backslash "")
  else if (n =? 8)%nat then String backslash "b"
  else if (n =? 12)%nat then String backslash "f"
  else if (n =? 10)%nat then String backslash "n"
  else if (n =? 13)%nat then String backslash "r"
  else if (n =? 9)%nat then String backslash "t"
  else if (n <? 32)%nat then
    String backslash
      (String "u" (String "0" (String "0"
        (String (hex_digit (n / 16)) (String (hex_digit (n mod 16)) "")))))
  else String c "".

Fixpoint escape (s : string) : string :=
  match s with
  | EmptyString => ""
  | String c s' => escape_char c ++ escape s'
  end.

Definition quote (s : string) : string :=
  String quote_char (escape s ++ String quote_char "").

Fixpoint stringify (v : value) : string :=
  match v with
  | JNull => "null"
  | JBool true => "true"
  | JBool false => "false"
  | JNum n => string_of_Z n
  | JStr s => quote s
  | JArr l => "[" ++ join "," (map stringify l) ++ "]"
  | JObj m =>
      "{" ++ join "," (map (fun kv => quote (fst kv) ++ ":" ++ stringify (snd kv)) m) ++ "}"
  end.

(** *** [JSON.parse] *)

Definition is_ws (c : ascii) : bool :=
  let n := code c in
  (n =? 32)%nat || (n =? 9)%nat || (n =? 10)%nat || (n =? 13)%nat.

Definition is_digit (c : ascii) : bool :=
  let n := code c in (48 <=? n)%nat && (n <=? 57)%nat.

Fixpoint skip_ws (s : string) : string :=
  match s with
  | EmptyString => EmptyString
  | String c s' => if is_ws c then skip_ws s' else s
  end.

(** [expect w s]: [s] without its prefix [w]. *)
Fixpoint expect (w s : string) : option string :=
  match w, s with
  | EmptyString, _ => Some s
  | String a w', String b s' => if Ascii.eqb a b then expect w' s' else None
  | String _ _, EmptyString => None
  end.

Definition hex_value (c : ascii) : option nat :=
  let n := code c in
  if is_digit c then Some (n - 48)
  else if (97 <=? n)%nat && (n <=? 102)%nat then Some (n - 87)
  else if (65 <=? n)%nat && (n <=? 70)%nat then Some (n - 55)
  else None.

(** Where the reader of a string literal stands: in plain text, after a
    backslash, or inside [\uXXXX] with [k] digits to go. *)
Inductive string_state : Type :=
  | Plain
  | Escaped
  | Unicode (k : nat) (acc : nat).

(** The body of a string literal, after its opening quote; [acc] holds
    the characters read, last first.  A code unit above 255 is outside
    the model and is refused. *)
Fixpoint parse_string_body (st : string_state) (acc : list ascii) (s : string)
  : option (string * string) :=
  match s with
  | EmptyString => None
  | String c s' =>
      match st with
      | Plain =>
          if (code c =? 34)%nat then Some (string_of_list_ascii (rev acc), s')
          else if (code c =? 92)%nat then parse_string_body Escaped acc s'
          else if (code c <? 32)%nat then None
          else parse_string_body Plain (c :: acc) s'
      | Escaped =>
          let n := code c in
          if (n =? 34)%nat || (n =? 92)%nat || (n =? 47)%nat
          then parse_string_body Plain (c :: acc) s'
          else if (n =? 98)%nat then parse_string_body Plain (ascii_of_nat 8 :: acc) s'
          else if (n =? 102)%nat then parse_string_body Plain (ascii_of_nat 12 :: acc) s'
          else if (n =? 110)%nat then parse_string_body Plain (ascii_of_nat 10 :: acc) s'
          else if (n =? 114)%nat then parse_string_body Plain (ascii_of_nat 13 :: acc) s'
          else if (n =? 116)%nat then parse_string_body Plain (ascii_of_nat 9 :: acc) s'
          else if (n =? 117)%nat then parse_string_body (Unicode 3 0) acc s'
          else None
      | Unicode k v =>
          match hex_value c with
          | None => None
          | Some h =>
              let v' := 16 * v + h in
              match k with
              | O =>
                  if (v' <? 256)%nat
                  then parse_string_body Plain (ascii_of_nat v' :: acc) s'
                  else None
              | S k' => parse_string_body (Unicode k' v') acc s'
              end
          end
      end
  end.

(** The longest prefix of digits, and what follows it. *)
Fixpoint span_digits (s : string) : string * string :=
  match s with
  | EmptyString => (EmptyString, EmptyString)
  | String c s' =>
      if is_digit c then let (ds, rest) := span_digits s' in (String c ds, rest)
      else (EmptyString, s)
  end.

(** An unsigned integer: digits without a superfluous leading zero. *)
Definition parse_unsigned (s : string) : option (N * string) :=
  let (ds, rest) := span_digits s in
  match ds with
  | EmptyString => None
  | _ =>
      match DecimalString.NilEmpty.uint_of_string ds with
      | Some u => if Decimal.uint_beq (Decimal.unorm u) u then Some (N.of_uint u, rest) else None
      | None => None
      end
  end.

Definition parse_number (s : string) : option (value * string) :=
  match s with
  | String "-" s' =>
      match parse_unsigned s' with
      | Some (n, rest) => Some (JNum (- Z.of_N n), rest)
      | None => None
      end
  | _ =>
      match parse_unsigned s with
      | Some (n, rest) => Some (JNum (Z.of_N n), rest)
      | None => None
      end
  end.

Fixpoint parse_value (fuel : nat) (s : string) {struct fuel} : option (value * string) :=
  match fuel with
  | O => None
  | S fuel' =>
      match skip_ws s with
      | EmptyString => None
      | String c s' =>
          if Ascii.eqb c "n" then
            match expect "ull" s' with
            | Some rest => Some (JNull, rest)
            | None => None
            end
          else if Ascii.eqb c "t" then
            match expect "rue" s' with
            | Some rest => Some (JBool true, rest)
            | None => None
            end
          else if Ascii.eqb c "f" then
            match expect "alse" s' with
            | Some rest => Some (JBool false, rest)
            | None => None
            end
          else if Ascii.eqb c quote_char then
            match parse_string_body Plain [] s' with
            | Some (str, rest) => Some (JStr str, rest)
            | None => None
            end
          else if Ascii.eqb c "[" then
            match skip_ws s' with
            | String "]" rest => Some (JArr [], rest)
            | _ =>
                match parse_elements fuel' s' with
                | Some (items, rest) => Some (JArr items, rest)
                | None => None
                end
            end
          else if Ascii.eqb c "{" then
            match skip_ws s' with
            | String "}" rest => Some (JObj [], rest)
            | _ =>
                match parse_members fuel' [] s' with
                | Some (members, rest) => Some (JObj members, rest)
                | None => None
                end
            end
          else parse_number (String c s')
      end
  end

with parse_elements (fuel : nat) (s : string) {struct fuel} : option (list value * string) :=
  match fuel with
  | O => None
  | S fuel' =>
      match parse_value fuel' s with
      | None => None
      | Some (v, rest) =>
          match skip_ws rest with
          | String "," rest' =>
              match parse_elements fuel' rest' with
              | Some (vs, rest'') => Some (v :: vs, rest'')
              | None => None
              end
          | String "]" rest' => Some ([v], rest')
          | _ => None
          end
      end
  end

with parse_members (fuel : nat) (acc : list (string * value)) (s : string) {struct fuel}
  : option (list (string * value) * string) :=
  match fuel with
  | O => None
  | S fuel' =>
      match skip_ws s with
      | String c s1 =>
          if Ascii.eqb c quote_char then
            match parse_string_body Plain [] s1 with
            | None => None
            | Some (key, s2) =>
                match skip_ws s2 with
                | String ":" s3 =>
                    match parse_value fuel' s3 with
                    | None => None
                    | Some (v, rest) =>
                        let acc' := set_member key v acc in
                        match skip_ws rest with
                        | String "," rest' => parse_members fuel' acc' rest'
                        | String "}" rest' => Some (acc', rest')
                        | _ => None
                        end
                    end
                | _ => None
                end
            end
          else None
      | EmptyString => None
      end
  end.

(** [JSON.parse(text)]; [None] stands for the [SyntaxError]. *)
Definition parse (text : string) : option value :=
  match parse_value (S (String.length text)) text with
  | Some (v, rest) =>
      match skip_ws rest with
      | EmptyString => Some v
      | _ => None
      end
  | None => None
  end.

End JSON.


Module JSONFacts.
Import JSON.
Local Open Scope string_scope.

(** Keys that are pairwise different. *)
Fixpoint distinct (l : list string) : bool :=
  match l with
  | [] => true
  | x :: rest => negb (existsb (String.eqb x) rest) && distinct rest
  end.

(** A value whose objects, at every depth, have pairwise different keys. *)
Fixpoint well_formed (v : value) : bool :=
  match v with
  | JArr l => forallb well_formed l
  | JObj m =>
      distinct (map fst m) && forallb (fun kv => well_formed (snd kv)) m
  | _ => true
  end.

Fixpoint size (v : value) : nat :=
  match v with
  | JArr l => S (list_sum (map (fun x => S (size x)) l))
  | JObj m => S (list_sum (map (fun kv => S (size (snd kv))) m))
  | _ => 1
  end.

(** [s] does not start with a digit. *)
Definition no_digit_head (s : string) : bool :=
  match s with
  | EmptyString => true
  | String c _ => negb (is_digit c)
  end.

(** The first character of a printed value. *)
Definition value_start (c : ascii) : bool :=
  is_digit c || Ascii.eqb c "-" || Ascii.eqb c "n" || Ascii.eqb c "t" ||
  Ascii.eqb c "f" || Ascii.eqb c quote_char || Ascii.eqb c "[" || Ascii.eqb c "{".

Definition elements_text (l : list value) : string := join "," (map stringify l).

Definition member_text (kv : string * value) : string :=
  quote (fst kv) ++ ":" ++ stringify (snd kv).

Definition members_text (m : list (string * value)) : string :=
  join "," (map member_text m).

Definition round_trips (v : value) : Prop :=
  forall fuel rest, size v <= fuel -> no_digit_head rest = true ->
    parse_value fuel (stringify v ++ rest) = Some (v, rest).

Definition digit_value (d : Decimal.uint) : N :=
  match d with
  | Decimal.Nil => 0
  | Decimal.D0 _ => 0 | Decimal.D1 _ => 1 | Decimal.D2 _ => 2 | Decimal.D3 _ => 3
  | Decimal.D4 _ => 4 | Decimal.D5 _ => 5 | Decimal.D6 _ => 6 | Decimal.D7 _ => 7
  | Decimal.D8 _ => 8 | Decimal.D9 _ => 9
  end%N.

Definition digits_tail (d : Decimal.uint) : Decimal.uint :=
  match d with
  | Decimal.Nil => Decimal.Nil
  | Decimal.D0 l | Decimal.D1 l | Decimal.D2 l | Decimal.D3 l | Decimal.D4 l
  | Decimal.D5 l | Decimal.D6 l | Decimal.D7 l | Decimal.D8 l | Decimal.D9 l => l
  end.

End JSONFacts.

(** ** The runtime services behind StateVault.js

    [crypto] and the order of directory listings belong to Node.js, not
    to the repository; they are an interface with the laws the vault
    relies on.

    - [key_valid key]: [createCipheriv] and [createDecipheriv] accept
      [Buffer.from(key, 'hex')] as an AES-256 key.
    - [seal key iv data]: the hex ciphertext and the hex authentication
      tag that [update], [final] and [getAuthTag] produce under a valid
      key, for the initialisation vector whose hex form is [iv].
    - [unseal key iv authTag encrypted]: the plaintext that
      [createDecipheriv], [setAuthTag], [update] and [final] produce under
      a valid key from the three properties of a parsed envelope, or
      [None] when one of these steps raises (a property of the wrong type,
      a tag that does not authenticate, ...).
    - [readdir_order names]: the order in which [fs.readdirSync] lists a
      directory whose entries are [names]. *)

Class Runtime : Type := {
  key_valid : string -> bool;
  seal : string -> string -> string -> string * string;
  unseal : string -> JSON.jsval -> JSON.jsval -> JSON.jsval -> option string;
  unseal_seal :
    forall key iv data,
      key_valid key = true ->
      unseal key (Some (JSON.JStr iv))
                 (Some (JSON.JStr (snd (seal key iv data))))
                 (Some (JSON.JStr (fst (seal key iv data)))) = Some data;
  readdir_order : list string -> list string;
  readdir_order_permutation :
    forall names, Permutation (readdir_order names) names
}.

(** ** StateVault.js *)

Module StateVault.
Import JSON.
Local Open Scope string_scope.

(** *** The [Map] of contexts

    A [Map] keeps its entries in insertion order; [set] on a key that is
    present replaces the value in place.  Keys are compared structurally,
    which is the comparison of [Map] on primitive keys. *)

Definition jsmap : Type := list (jsval * value).

Fixpoint map_get (key : jsval) (m : jsmap) : option value :=
  match m with
  | [] => None
  | (k, v) :: rest => if jsval_eqb k key then Some v else map_get key rest
  end.

Definition map_has (key : jsval) (m : jsmap) : bool :=
  match map_get key m with
  | Some _ => true
  | None => false
  end.

Fixpoint map_set (key : jsval) (v : value) (m : jsmap) : jsmap :=
  match m with
  | [] => [(key, v)]
  | (k, w) :: rest =>
      if jsval_eqb k key then (k, v) :: rest else (k, w) :: map_set key v rest
  end.

Definition map_delete (key : jsval) (m : jsmap) : jsmap :=
  filter (fun e => negb (jsval_eqb (fst e) key)) m.

(** [Array.from(map.values())]. *)
Definition map_values (m : jsmap) : list value := map snd m.

(** *** The file system

    The storage directory and its [backups] subdirectory, each a list of
    named files.  A file name is used as it is computed: [path.join]
    keeps the name of an identifier without path separator in the storage
    directory, and the model has no other directory for an identifier
    with one; the theorems that depend on it say so.  Names are compared
    exactly, as a POSIX file system does.  When the medium is not
    [available], every operation that touches it raises. *)

Definition directory : Type := list (string * string).

Record disk : Type := mkDisk {
  available : bool;
  files : directory;
  backups : directory
}.

Fixpoint lookup_file (name : string) (d : directory) : option string :=
  match d with
  | [] => None
  | (n, content) :: rest => if String.eqb n name then Some content else lookup_file name rest
  end.

Fixpoint write_file (name content : string) (d : directory) : directory :=
  match d with
  | [] => [(name, content)]
  | (n, c) :: rest =>
      if String.eqb n name then (n, content) :: rest
      else (n, c) :: write_file name content rest
  end.

Definition remove_file (name : string) (d : directory) : directory :=
  filter (fun e => negb (String.eqb (fst e) name)) d.

(** The world outside the instance: the disk, the handles of the running
    interval timers and the next handle to hand out. *)
Record world : Type := mkWorld {
  storage : disk;
  timers : list nat;
  next_timer : nat
}.

Definition with_files (w : world) (d : directory) : world :=
  {| storage := {| available := available (storage w);
                   files := d;
                   backups := backups (storage w) |};
     timers := timers w;
     next_timer := next_timer w |}.

Definition with_backups (w : world) (d : directory) : world :=
  {| storage := {| available := available (storage w);
                   files := files (storage w);
                   backups := d |};
     timers := timers w;
     next_timer := next_timer w |}.

(** *** Configuration *)

Record config : Type := mkConfig {
  storagePath : string;
  encryptionEnabled : bool;
  encryptionKey : string;
  backupEnabled : bool;
  backupInterval : Z;
  maxBackups : nat
}.

(** The object handed to the constructor; [None] is an absent property. *)
Record options : Type := mkOptions {
  opt_storagePath : option string;
  opt_encryptionEnabled : option bool;
  opt_encryptionKey : option string;
  opt_backupEnabled : option bool;
  opt_backupInterval : option Z;
  opt_maxBackups : option nat
}.

(** The trailing [...config]: an own property of the caller's object
    replaces the value computed before it. *)
Definition spread {A : Type} (x : option A) (computed : A) : A :=
  match x with
  | Some v => v
  | None => computed
  end.

Definition string_or (x : option string) (d : string) : string :=
  match x with
  | Some s => if String.eqb s "" then d else s
  | None => d
  end.

Definition Z_or (x : option Z) (d : Z) : Z :=
  match x with
  | Some n => if (n =? 0)%Z then d else n
  | None => d
  end.

Definition nat_or (x : option nat) (d : nat) : nat :=
  match x with
  | Some O => d
  | Some n => n
  | None => d
  end.

(** [x !== false]. *)
Definition not_false (x : option bool) : bool :=
  match x with
  | Some false => false
  | _ => true
  end.

(** The instance. *)
Record t : Type := mkVault {
  vault_config : config;
  contexts : jsmap;
  backupTimer : option nat;
  memoryOnly : bool
}.

Definition with_contexts (self : t) (m : jsmap) : t :=
  {| vault_config := vault_config self;
     contexts := m;
     backupTimer := backupTimer self;
     memoryOnly := memoryOnly self |}.

(** *** File names *)

Fixpoint endsWith_from (suffix s : string) : bool :=
  String.eqb s suffix ||
  match s with
  | EmptyString => false
  | String _ s' => endsWith_from suffix s'
  end.

(** [s.endsWith(suffix)]. *)
Definition endsWith (suffix s : string) : bool := endsWith_from suffix s.

Definition is_bak (f : string) : bool := endsWith ".bak" f.

Definition context_file (contextId : jsval) : string :=
  to_string contextId ++ ".ctx".

Definition backup_file (timestamp : Z) : string :=
  "backup_" ++ string_of_Z timestamp ++ ".bak".

(** [names.sort()]: the default order of [sort] compares strings code unit
    by code unit.  The result of sorting is determined by the order, so
    insertion sort stands for the engine's algorithm. *)
Fixpoint insert_name (x : string) (l : list string) : list string :=
  match l with
  | [] => [x]
  | y :: l' => if String.leb x y then x :: y :: l' else y :: insert_name x l'
  end.

Definition sort_names (l : list string) : list string :=
  fold_right insert_name [] l.

Section Vault.
Context {runtime : Runtime}.

(** [fs.readdirSync(dir)]. *)
Definition readdirSync (d : directory) : list string :=
  readdir_order (map fst d).

(** *** Encryption *)

(** [_encrypt(data)]; [iv] is the hex form of [crypto.randomBytes(16)]. *)
Definition _encrypt (cfg : config) (iv : string) (data : string) : outcome string :=
  try_catch
    (if key_valid (encryptionKey cfg) then
       let sealed := seal (encryptionKey cfg) iv data in
       Return (stringify (JObj [ ("encrypted", JStr (fst sealed));
                                 ("iv", JStr iv);
                                 ("authTag", JStr (snd sealed)) ]))
     else Throw (TypeError "Invalid key length"))
    (fun _ => Return data).

(** [_decrypt(encryptedData)]. *)
Definition _decrypt (cfg : config) (encryptedData : string) : outcome string :=
  try_catch
    (match JSON.parse encryptedData with
     | None => Throw (SyntaxError "Unexpected token in JSON")
     | Some JNull => Throw (TypeError "Cannot destructure 'JSON.parse(...)' as it is null")
     | Some envelope =>
         if key_valid (encryptionKey cfg) then
           match unseal (encryptionKey cfg)
                   (get "iv" envelope) (get "authTag" envelope) (get "encrypted" envelope) with
           | Some decrypted => Return decrypted
           | None => Throw (Error "Unsupported state or unable to authenticate data")
           end
         else Throw (TypeError "Invalid key length")
     end)
    (fun _ => Return encryptedData).

(** [encryptionEnabled ? this._encrypt(data) : data]. *)
Definition encrypt_if_enabled (cfg : config) (iv : string) (data : string) : outcome string :=
  if encryptionEnabled cfg then _encrypt cfg iv data else Return data.

Definition decrypt_if_enabled (cfg : config) (data : string) : outcome string :=
  if encryptionEnabled cfg then _decrypt cfg data else Return data.

(** *** Construction *)

(** [_initStorage()].  The disk of the model holds the storage directory
    and its [backups] subdirectory from the start, empty where the source
    finds them missing, so that [mkdirSync], which creates a missing
    directory, leaves it as it is.  On a medium that is not available
    creating the directories raises, and the instance falls back to
    memory. *)
Definition _initStorage (self : t) (w : world) : t :=
  if available (storage w) then self
  else {| vault_config := vault_config self;
          contexts := contexts self;
          backupTimer := backupTimer self;
          memoryOnly := true |}.

(** [_startAutoBackup()]: [setInterval] hands out a fresh handle. *)
Definition _startAutoBackup (self : t) (w : world) : t * world :=
  ({| vault_config := vault_config self;
      contexts := contexts self;
      backupTimer := Some (next_timer w);
      memoryOnly := memoryOnly self |},
   {| storage := storage w;
      timers := next_timer w :: timers w;
      next_timer := S (next_timer w) |}).

(** [new StateVault(config)]; [generated] is the key that
    [_generateKey()] draws when it is called. *)
Definition constructor (o : options) (generated : string) (w : world) : t * world :=
  let cfg :=
    {| storagePath := spread (opt_storagePath o)
                        (string_or (opt_storagePath o) "./contextual_data");
       encryptionEnabled := spread (opt_encryptionEnabled o)
                              (not_false (opt_encryptionEnabled o));
       encryptionKey := spread (opt_encryptionKey o)
                          (string_or (opt_encryptionKey o) generated);
       backupEnabled := spread (opt_backupEnabled o) (not_false (opt_backupEnabled o));
       backupInterval := spread (opt_backupInterval o) (Z_or (opt_backupInterval o) 300000);
       maxBackups := spread (opt_maxBackups o) (nat_or (opt_maxBackups o) 10) |} in
  let self :=
    _initStorage
      {| vault_config := cfg; contexts := []; backupTimer := None; memoryOnly := false |} w in
  if backupEnabled cfg then _startAutoBackup self w else (self, w).

(** *** Saving and loading contexts *)

(** [_persistContext(context)]. *)
Definition _persistContext (self : t) (iv : string) (context : value) (w : world) : world :=
  match
    try_catch
      (bind (Return (stringify context)) (fun data =>
       bind (encrypt_if_enabled (vault_config self) iv data) (fun encrypted =>
       if available (storage w) then
         Return (with_files w
                   (write_file (context_file (get "id" context)) encrypted
                      (files (storage w))))
       else Throw (Error "EIO: i/o error, open"))))
      (fun _ => Return w)
  with
  | Return w' => w'
  | Throw _ => w
  end.

(** [saveContext(context)]. *)
Definition saveContext (self : t) (iv : string) (context : jsval) (w : world)
  : outcome unit * t * world :=
  match context with
  | None => (Throw (Error "Context must have an id"), self, w)
  | Some ctx =>
      if negb (truthy (Some ctx)) || negb (truthy (get "id" ctx)) then
        (Throw (Error "Context must have an id"), self, w)
      else
        let self' := with_contexts self (map_set (get "id" ctx) ctx (contexts self)) in
        if negb (memoryOnly self') then (Return tt, self', _persistContext self' iv ctx w)
        else (Return tt, self', w)
  end.

(** [_loadContextFromDisk(contextId)]; the result is the parsed value or
    [null]. *)
Definition _loadContextFromDisk (self : t) (contextId : jsval) (w : world) : outcome value :=
  try_catch
    (let data :=
       if available (storage w)
       then lookup_file (context_file contextId) (files (storage w))
       else None in
     match data with
     | None => Return JNull
     | Some text =>
         if String.eqb text "" then Return JNull
         else
           bind (decrypt_if_enabled (vault_config self) text) (fun decrypted =>
           match JSON.parse decrypted with
           | Some v => Return v
           | None => Throw (SyntaxError "Unexpected token in JSON")
           end)
     end)
    (fun _ => Return JNull).

(** [loadContext(contextId)]. *)
Definition loadContext (self : t) (contextId : jsval) (w : world) : outcome value * t :=
  match map_get contextId (contexts self) with
  | Some v => (Return v, self)
  | None =>
      if negb (memoryOnly self) then
        match _loadContextFromDisk self contextId w with
        | Throw e => (Throw e, self)
        | Return context =>
            if truthy (Some context) then
              (Return context, with_contexts self (map_set contextId context (contexts self)))
            else (Return JNull, self)
        end
      else (Return JNull, self)
  end.

(** *** Backups *)

(** The loop of [_cleanOldBackups]: [files.shift()] and [unlinkSync] while
    more than [maxBackups] names are left. *)
Fixpoint clean_loop (maxBackups : nat) (names : list string) (d : directory) : directory :=
  match names with
  | [] => d
  | oldFile :: rest =>
      if (maxBackups <? List.length names)%nat
      then clean_loop maxBackups rest (remove_file oldFile d)
      else d
  end.

(** [_cleanOldBackups()]. *)
Definition _cleanOldBackups (self : t) (w : world) : world :=
  match
    try_catch
      (if available (storage w) then
         let names := sort_names (filter is_bak (readdirSync (backups (storage w)))) in
         Return (with_backups w
                   (clean_loop (maxBackups (vault_config self)) names (backups (storage w))))
       else Throw (Error "EIO: i/o error, scandir"))
      (fun _ => Return w)
  with
  | Return w' => w'
  | Throw _ => w
  end.

(** [backup()]; [now] is [Date.now()].  The result is the timestamp,
    [null] after a failure, [undefined] in memory-only mode. *)
Definition backup (self : t) (now : Z) (iv : string) (w : world) : outcome jsval * world :=
  if memoryOnly self then (Return undefined, w)
  else
    let timestamp := now in
    let backupData :=
      JObj [ ("timestamp", JNum timestamp);
             ("contexts", JArr (map_values (contexts self))) ] in
    match bind (Return (stringify backupData)) (fun data =>
               encrypt_if_enabled (vault_config self) iv data) with
    | Throw _ => (Return (Some JNull), w)
    | Return encrypted =>
        if available (storage w) then
          let w1 := with_backups w
                      (write_file (backup_file timestamp) encrypted (backups (storage w))) in
          (Return (Some (JNum timestamp)), _cleanOldBackups self w1)
        else (Return (Some JNull), w)
    end.

(** The body of [contexts.forEach(ctx => this.contexts.set(ctx.id, ctx))]:
    reading [id] off [null] raises and ends the loop where it stands. *)
Fixpoint restore_each (items : list value) (m : jsmap) : outcome unit * jsmap :=
  match items with
  | [] => (Return tt, m)
  | JNull :: _ => (Throw (TypeError "Cannot read properties of null (reading 'id')"), m)
  | ctx :: rest => restore_each rest (map_set (get "id" ctx) ctx m)
  end.

Definition last_name (names : list string) : string := List.last names "".

(** [restore(timestamp = null)]. *)
Definition restore (self : t) (timestamp : jsval) (w : world) : outcome bool * t :=
  if memoryOnly self then (Return false, self)
  else if negb (available (storage w)) then (Return false, self)
  else
    let names := filter is_bak (readdirSync (backups (storage w))) in
    match names with
    | [] => (Return false, self)
    | _ =>
        let backupFile :=
          if truthy timestamp then "backup_" ++ to_string timestamp ++ ".bak"
          else last_name names in
        match lookup_file backupFile (backups (storage w)) with
        | None => (Return false, self)
        | Some backupData =>
            if String.eqb backupData "" then (Return false, self)
            else
              match bind (decrypt_if_enabled (vault_config self) backupData) (fun decrypted =>
                         match JSON.parse decrypted with
                         | Some v => Return v
                         | None => Throw (SyntaxError "Unexpected token in JSON")
                         end) with
              | Throw _ => (Return false, self)
              | Return JNull => (Return false, self)
              | Return parsed =>
                  match get "contexts" parsed with
                  | Some (JArr items) =>
                      match restore_each items [] with
                      | (Return _, m) => (Return true, with_contexts self m)
                      | (Throw _, m) => (Return false, with_contexts self m)
                      end
                  | _ => (Return false, with_contexts self [])
                  end
              end
        end
    end.

(** [stopAutoBackup()]. *)
Definition stopAutoBackup (self : t) (w : world) : t * world :=
  match backupTimer self with
  | Some handle =>
      ({| vault_config := vault_config self;
          contexts := contexts self;
          backupTimer := None;
          memoryOnly := memoryOnly self |},
       {| storage := storage w;
          timers := filter (fun h => negb (Nat.eqb h handle)) (timers w);
          next_timer := next_timer w |})
  | None => (self, w)
  end.

(** [shutdown()]. *)
Definition shutdown (self : t) (now : Z) (iv : string) (w : world) : outcome unit * t * world :=
  let (self', w1) := stopAutoBackup self w in
  match backup self' now iv w1 with
  | (Return _, w2) => (Return tt, self', w2)
  | (Throw e, w2) => (Throw e, self', w2)
  end.

End Vault.
End StateVault.

Module VaultScenario.
Import JSON StateVault.

(** The snapshot units on storage: the [.bak] files of the backups
    directory, in name order. *)
Definition snapshot_names (w : world) : list string :=
  sort_names (filter is_bak (map fst (backups (storage w)))).

(** The last [n] elements of a list (all of it when it is shorter). *)
Definition keep {A : Type} (n : nat) (l : list A) : list A :=
  skipn (List.length l - n) l.

(** Successive calls of [backup()]; each call comes with the contexts the
    vault holds at that moment, the clock and the vector drawn. *)
Fixpoint backups_in_sequence {runtime : Runtime} (self : t)
    (calls : list (jsmap * Z * string)) (w : world)
  : list (outcome jsval) * world :=
  match calls with
  | [] => ([], w)
  | (m, now, iv) :: rest =>
      let (r, w1) := backup (with_contexts self m) now iv w in
      let (rs, w2) := backups_in_sequence self rest w1 in
      (r :: rs, w2)
  end.

Definition call_time (c : jsmap * Z * string) : Z := snd (fst c).

Definition name_lt (a b : string) : Prop := String.ltb a b = true.

(** A timestamp that is not negative and prints with [k] digits. *)
Definition prints_with (k : nat) (t : Z) : Prop :=
  (0 <= t)%Z /\ String.length (string_of_Z t) = k.

End VaultScenario.

Module VaultInvariant.
Import JSON JSONFacts StateVault.

(** An entry of the map as [saveContext] and [restore] put it there: a
    value other than [null], stored under its own [id], whose objects
    have pairwise different keys. *)
Definition entry_ok (e : jsval * value) : Prop :=
  snd e <> JNull /\ fst e = get "id" (snd e) /\ well_formed (snd e) = true.

(** No key of the map occurs twice. *)
Fixpoint keys_distinct (m : jsmap) : bool :=
  match m with
  | [] => true
  | (k, _) :: rest =>
      negb (existsb (fun e => jsval_eqb k (fst e)) rest) && keys_distinct rest
  end.

End VaultInvariant.

(** ** StateVault.js: deleting, listing and clearing

    The remaining public methods of the vault. *)

Module VaultAdmin.
Import JSON StateVault.
Local Open Scope string_scope.

(** What [getStats()] returns; [memoryOnly] is the field of the instance,
    which is [undefined] until [_initStorage] has set it. *)
Record stats : Type := mkStats {
  contextCount : nat;
  encrypted : bool;
  stats_memoryOnly : option bool;
  autoBackup : bool
}.

(** [getAllContextIds()]: the keys of the map, in insertion order. *)
Definition getAllContextIds (self : t) : list jsval := map fst (contexts self).

(** [getStats()]. *)
Definition getStats (self : t) : stats :=
  {| contextCount := List.length (contexts self);
     encrypted := encryptionEnabled (vault_config self);
     stats_memoryOnly := if memoryOnly self then Some true else None;
     autoBackup := match backupTimer self with Some _ => true | None => false end |}.

(** Identifiers as file names.  [path.join(storagePath, id + '.ctx')] is
    the entry [id + '.ctx'] of the storage directory as long as the
    identifier holds no path separator: with one, the path leads into
    another directory ([backups/a]), or names the unit of another
    identifier ([./b]).  A name with a NUL character is refused by the
    file system calls, and a name of more than 255 bytes cannot be
    created; a plain name is free of separators and of NUL, and short
    enough for its [.ctx] name to fit whatever its characters are. *)
Definition separator (c : ascii) : bool :=
  Ascii.eqb c "/" || Ascii.eqb c backslash.

Definition separator_free (contextId : jsval) : bool :=
  forallb (fun c => negb (separator c)) (list_ascii_of_string (to_string contextId)).

Definition plain_name (contextId : jsval) : bool :=
  separator_free contextId &&
  forallb (fun c => negb (Ascii.eqb c Ascii.zero))
    (list_ascii_of_string (to_string contextId)) &&
  (String.length (to_string contextId) <=? 100)%nat.

(** [fs.existsSync(path)] for a file of the storage directory: it
    answers [false], and does not raise, when the medium is not available. *)
Definition existsSync (name : string) (d : disk) : bool :=
  available d &&
  match lookup_file name (files d) with
  | Some _ => true
  | None => false
  end.

(** [deleteContext(contextId)]. *)
Definition deleteContext (self : t) (contextId : jsval) (w : world) : t * world :=
  let self' := with_contexts self (map_delete contextId (contexts self)) in
  if negb (memoryOnly self') then
    match
      try_catch
        (let filename := context_file contextId in
         if existsSync filename (storage w)
         then Return (with_files w (remove_file filename (files (storage w))))
         else Return w)
        (fun _ => Return w)
    with
    | Return w' => (self', w')
    | Throw _ => (self', w)
    end
  else (self', w).

Section Clearing.
Context {runtime : Runtime}.

(** The loop of [clearAll]: [files.forEach(f => fs.unlinkSync(...))]. *)
Definition unlink_each (names : list string) (d : directory) : directory :=
  fold_left (fun d' f => remove_file f d') names d.

(** [clearAll()]. *)
Definition clearAll (self : t) (w : world) : t * world :=
  let self' := with_contexts self [] in
  if negb (memoryOnly self') then
    match
      try_catch
        (if available (storage w) then
           let names := filter (endsWith ".ctx") (readdirSync (files (storage w))) in
           Return (with_files w (unlink_each names (files (storage w))))
         else Throw (Error "ENOENT: no such file or directory, scandir"))
        (fun _ => Return w)
    with
    | Return w' => (self', w')
    | Throw _ => (self', w)
    end
  else (self', w).

End Clearing.
End VaultAdmin.

(** ** ContextBridge.js: statistics, normalisation and bridging

    The remaining methods of the bridge.  Conversations and messages are
    JSON values; [new Date().toISOString()] is an explicit argument, read
    once for the conversation ([now]) and once for each message that
    needs it ([clock i] for the message at index [i]). *)

Module Bridging.
Import JSON ContextBridge.
Local Open Scope string_scope.

(** What [getStats()] returns. *)
Record stats : Type := mkStats {
  connectedPlatforms : list string;
  stats_activeContext : option string;
  totalSwitches : nat;
  history : list history_entry
}.

(** [getStats()]. *)
Definition getStats (b : t) : stats :=
  {| connectedPlatforms := filter (is_connected b) (map fst (platforms b));
     stats_activeContext := activeContext b;
     totalSwitches := List.length (contextHistory b);
     history := contextHistory b |}.

(** The property names that an object literal inherits from
    [Object.prototype] as long as nothing has been added to it.  For
    these names [this.platforms[name]] is a function or an object and not
    [undefined], although [platforms] has no such property of its own:
    the lookup among the own properties stands for [this.platforms[name]]
    on every other name. *)
Definition inherited_names : list string :=
  [ "constructor"; "__defineGetter__"; "__defineSetter__"; "hasOwnProperty";
    "__lookupGetter__"; "__lookupSetter__"; "isPrototypeOf";
    "propertyIsEnumerable"; "toString"; "valueOf"; "__proto__"; "toLocaleString" ].

Definition inherited (key : string) : bool :=
  existsb (String.eqb key) inherited_names.

(** [disconnectAll()]: [disconnect] for every key of [platforms], then
    the active context and the history are reset. *)
Definition disconnectAll (b : t) : t :=
  let b' := fold_left (fun acc key => snd (disconnect acc key)) (map fst (platforms b)) b in
  {| platforms := platforms b';
     activeContext := None;
     contextHistory := [] |}.

(** [a || d] where [d] is a value. *)
Definition or_else (a : jsval) (d : value) : value :=
  match a with
  | Some v => if truthy a then v else d
  | None => d
  end.

(** [(data.messages || [])], on which [map] is then called: anything but
    an array has no [map]. *)
Definition messages_of (data : value) : outcome (list value) :=
  match or_else (get "messages" data) (JArr []) with
  | JArr l => Return l
  | _ => Throw (TypeError "(data.messages || []).map is not a function")
  end.

(** [array.map(msg => f(msg))] for a callback that reads properties of
    [msg]: reading a property of [null] raises.  [i] is the index of the
    first element. *)
Fixpoint map_messages (f : nat -> value -> value) (i : nat) (l : list value)
  : outcome (list value) :=
  match l with
  | [] => Return []
  | JNull :: _ => Throw (TypeError "Cannot read properties of null")
  | msg :: rest =>
      bind (map_messages f (S i) rest) (fun out => Return (f i msg :: out))
  end.

Definition message (role content timestamp : value) : value :=
  JObj [ ("role", role); ("content", content); ("timestamp", timestamp) ].

(** A message as the four normalisers build it: the three properties
    [role], [content], [timestamp]; the role is never falsy, the content
    is truthy or the empty string. *)
Definition normalized_message (v : value) : Prop :=
  exists role content timestamp,
    v = message role content timestamp /\
    truthy (Some role) = true /\
    (truthy (Some content) = true \/ content = JStr "").

(** The platforms that [normalizeConversation] has a normaliser for. *)
Definition known_platform (p : string) : Prop :=
  p = "chatgpt" \/ p = "claude" \/ p = "perplexity" \/ p = "gemini".

Definition _normalizeChatGPT (clock : nat -> string) (data : value) : outcome (list value) :=
  bind (messages_of data) (map_messages (fun i msg =>
    message (or_else (get "role" msg) (JStr "user"))
            (or_else (get "content" msg) (JStr ""))
            (or_else (get "create_time" msg) (JStr (clock i)))) 0).

Definition _normalizeClaude (clock : nat -> string) (data : value) : outcome (list value) :=
  bind (messages_of data) (map_messages (fun i msg =>
    message (or_else (get "sender" msg) (JStr "user"))
            (or_else (get "text" msg) (JStr ""))
            (or_else (get "created_at" msg) (JStr (clock i)))) 0).

Definition _normalizePerplexity (clock : nat -> string) (data : value) : outcome (list value) :=
  bind (messages_of data) (map_messages (fun i msg =>
    message (or_else (get "author" msg) (JStr "user"))
            (or_else (get "text" msg) (JStr ""))
            (or_else (get "timestamp" msg) (JStr (clock i)))) 0).

(** [parts?.[0]]: the first element of an array, the first code unit of a
    string, the property [0] of an object; nothing for [null],
    [undefined] and the other primitive values. *)
Definition first_part (parts : jsval) : jsval :=
  match parts with
  | Some (JArr l) => nth_error l 0
  | Some (JStr (String c _)) => Some (JStr (String c ""))
  | Some (JObj m) => assoc "0" m
  | _ => None
  end.

(** [part?.text]. *)
Definition text_of (part : jsval) : jsval :=
  match part with
  | None => None
  | Some JNull => None
  | Some v => get "text" v
  end.

Definition _normalizeGemini (clock : nat -> string) (data : value) : outcome (list value) :=
  bind (messages_of data) (map_messages (fun i msg =>
    message (or_else (get "role" msg) (JStr "user"))
            (or_else (text_of (first_part (get "parts" msg))) (JStr ""))
            (or_else (get "timestamp" msg) (JStr (clock i)))) 0).

(** What [normalizeConversation] returns. *)
Record conversation : Type := mkConversation {
  id : value;
  conversation_platform : value;
  conversation_timestamp : value;
  messages : value;
  metadata : value
}.

(** [normalizeConversation(data, sourcePlatform)]; [fresh] is what
    [_generateId()] draws.  The platform is a string or [null]. *)
Definition normalizeConversation (fresh now : string) (clock : nat -> string)
    (data : value) (sourcePlatform : value) : outcome conversation :=
  match data with
  | JNull => Throw (TypeError "Cannot read properties of null (reading 'id')")
  | _ =>
      let normalized messages :=
        {| id := or_else (get "id" data) (JStr fresh);
           conversation_platform := sourcePlatform;
           conversation_timestamp := or_else (get "timestamp" data) (JStr now);
           messages := messages;
           metadata := JObj [] |} in
      let as_array (r : outcome (list value)) : outcome conversation :=
        bind r (fun l => Return (normalized (JArr l))) in
      match sourcePlatform with
      | JStr p =>
          if String.eqb p "chatgpt" then as_array (_normalizeChatGPT clock data)
          else if String.eqb p "claude" then as_array (_normalizeClaude clock data)
          else if String.eqb p "perplexity" then as_array (_normalizePerplexity clock data)
          else if String.eqb p "gemini" then as_array (_normalizeGemini clock data)
          else Return (normalized (or_else (get "messages" data) (JArr [])))
      | _ => Return (normalized (or_else (get "messages" data) (JArr [])))
      end
  end.

(** The object that [normalizeConversation] returns, as [bridgeMessage]
    hands it to the callbacks: its properties in the order in which they
    were created. *)
Definition live : Type := list (string * value).

Definition as_object (c : conversation) : live :=
  [ ("id", id c);
    ("platform", conversation_platform c);
    ("timestamp", conversation_timestamp c);
    ("messages", messages c);
    ("metadata", metadata c) ].

(** A callback registered with [onBridge]: it is handed the normalised
    conversation, an object whose properties it may change, add and
    remove, and its promise is fulfilled or rejected.  The second
    component is the object as the callback leaves it.  A callback acts
    on the object it is handed, not on the bridge. *)
Definition callback : Type := live -> outcome unit * live.

(** The instance with its [bridgeCallbacks], a [Map] from platform names
    to arrays of callbacks. *)
Record bridge : Type := mkBridge {
  core : ContextBridge.t;
  bridgeCallbacks : list (string * list callback)
}.

Fixpoint callbacks_for (platform : string) (m : list (string * list callback))
  : option (list callback) :=
  match m with
  | [] => None
  | (k, cs) :: rest => if String.eqb k platform then Some cs else callbacks_for platform rest
  end.

Fixpoint push_callback (platform : string) (cb : callback) (m : list (string * list callback))
  : list (string * list callback) :=
  match m with
  | [] => [(platform, [cb])]
  | (k, cs) :: rest =>
      if String.eqb k platform then (k, (cs ++ [cb])%list) :: rest
      else (k, cs) :: push_callback platform cb rest
  end.

(** [onBridge(platform, callback)]. *)
Definition onBridge (b : bridge) (platform : string) (cb : callback) : bridge :=
  {| core := core b;
     bridgeCallbacks := push_callback platform cb (bridgeCallbacks b) |}.

(** [for (const callback of callbacks) await callback(normalized)]: every
    callback is handed the same object, so each sees it as the callbacks
    before it left it. *)
Fixpoint run_callbacks (cs : list callback) (normalized : live)
  : outcome unit * live :=
  match cs with
  | [] => (Return tt, normalized)
  | cb :: rest =>
      match cb normalized with
      | (Return _, normalized') => run_callbacks rest normalized'
      | (Throw e, normalized') => (Throw e, normalized')
      end
  end.

(** [this.bridgeCallbacks.get(targetPlatform) || []]. *)
Definition registered (b : bridge) (target : string) : list callback :=
  match callbacks_for target (bridgeCallbacks b) with
  | Some cs => cs
  | None => []
  end.

(** [normalized.messages[0]], read after the callbacks have run: reading
    an element of [undefined] or [null] raises. *)
Definition read_first (normalized : live) : outcome jsval :=
  match assoc "messages" normalized with
  | None => Throw (TypeError "Cannot read properties of undefined (reading '0')")
  | Some JNull => Throw (TypeError "Cannot read properties of null (reading '0')")
  | Some messages => Return (first_part (Some messages))
  end.

(** What a fulfilled [bridgeMessage] resolves to; [bridged_message] is
    [normalized.messages[0]], which may be [undefined]. *)
Record bridge_result : Type := mkResult {
  bridge_success : bool;
  bridged_message : jsval;
  targetPlatform : string;
  bridgedAt : string
}.

(** The source platform handed to [normalizeConversation]:
    [this.activeContext], a name or [null]. *)
Definition active_platform (b : bridge) : value :=
  match activeContext (core b) with
  | Some p => JStr p
  | None => JNull
  end.

(** [bridgeMessage(message, targetPlatform)]; [at_end] is the time read
    for [bridgedAt]. *)
Definition bridgeMessage (b : bridge) (fresh now : string) (clock : nat -> string)
    (at_end : string) (msg : value) (target : string) : outcome bridge_result :=
  if negb (is_connected (core b) target) then
    Throw (Error ("Target platform " ++ target ++ " is not connected"))
  else
    bind (normalizeConversation fresh now clock
            (JObj [ ("messages", JArr [msg]) ]) (active_platform b)) (fun normalized =>
    match run_callbacks (registered b target) (as_object normalized) with
    | (Throw e, _) => Throw e
    | (Return _, final) =>
        bind (read_first final) (fun first =>
        Return {| bridge_success := true;
                  bridged_message := first;
                  targetPlatform := target;
                  bridgedAt := at_end |})
    end).

End Bridging.

(** ** AIHousekeeper.js: amplification and statistics

    The six stages of [amplify] and [getStats]. *)

Module Amplifier.
Import Text AIHousekeeper.
Local Open Scope string_scope.

(** [_isStopWord(word)]. *)
Definition _isStopWord (word : string) : bool :=
  member (toLowerCase word) ["this"; "that"; "with"; "from"; "have"; "been"; "were"].

(** [[...new Set(list)]]: the first occurrences, in order; [seen] holds
    the elements already taken. *)
Fixpoint unique (seen : list string) (l : list string) : list string :=
  match l with
  | [] => []
  | x :: rest =>
      if member x seen then unique seen rest else x :: unique (x :: seen) rest
  end.

(** Stage 1: [_extractCoreConcepts(answer, question)]. *)
Definition _extractCoreConcepts (answer question : string) : list string :=
  let words := _extractWords (answer ++ " " ++ question) in
  let important :=
    filter (fun w => (5 <? String.length w)%nat && negb (_isStopWord w)) words in
  firstn 10 (unique [] important).

Record reasoning_step : Type := mkStep {
  step : nat;
  concept : string;
  connection : option string
}.

(** [array.map((x, i) => f(x, i))]; [i] is the index of the first
    element. *)
Fixpoint map_indexed {A B : Type} (f : A -> nat -> B) (i : nat) (l : list A) : list B :=
  match l with
  | [] => []
  | x :: rest => f x i :: map_indexed f (S i) rest
  end.

(** Stage 2: [_buildReasoningChain(concepts)]. *)
Definition _buildReasoningChain (concepts : list string) : list reasoning_step :=
  map_indexed
    (fun concept i =>
       {| step := i + 1;
          concept := concept;
          connection :=
            if (i <? List.length concepts - 1)%nat
            then nth_error concepts (i + 1)
            else None |})
    0 concepts.

Record depth_layers : Type := mkLayers {
  implications : string;
  applications : string;
  extensions : string
}.

(** Stage 3: [_addDepthLayers(concepts, reasoning)].  [concepts[0]] of an
    empty array is [undefined], which the template prints as such;
    [slice(-2)] takes the last two elements. *)
Definition _addDepthLayers (concepts : list string) (reasoning : list reasoning_step)
  : depth_layers :=
  {| implications :=
       "This implies deeper connections between " ++
       JSON.join ", " (firstn 3 concepts) ++ ".";
     applications :=
       "Practically, this applies to scenarios involving " ++
       match concepts with
       | c :: _ => c
       | [] => "undefined"
       end ++ ".";
     extensions :=
       "This can be extended to consider " ++
       JSON.join " and " (VaultScenario.keep 2 concepts) ++ "." |}.

Record structured_content : Type := mkStructured {
  introduction : string;
  body : string;
  structured_depth : string
}.

(** [s.split(/[...]/)[0]] for a class [sep] of separator characters:
    what precedes the first separator. *)
Fixpoint first_piece (sep : ascii -> bool) (s : string) : string :=
  match s with
  | EmptyString => EmptyString
  | String c s' => if sep c then EmptyString else String c (first_piece sep s')
  end.

(** Stage 4: [_structureContent(answer, depthLayers)]. *)
Definition _structureContent (answer : string) (depthLayers : depth_layers)
  : structured_content :=
  {| introduction := first_piece sentence_separator answer ++ ".";
     body := answer;
     structured_depth :=
       JSON.join " "
         [implications depthLayers; applications depthLayers; extensions depthLayers] |}.

Record actionable_content : Type := mkActionable {
  actionable_structured : structured_content;
  insights : string
}.

(** Stage 5: [_addActionableInsights(structured, question)]. *)
Definition _addActionableInsights (structured : structured_content) (question : string)
  : actionable_content :=
  {| actionable_structured := structured;
     insights := "Key takeaways: " ++ introduction structured |}.

Record components : Type := mkComponents {
  original : string;
  concepts : list string;
  reasoning : list reasoning_step;
  components_depth : depth_layers;
  structured : structured_content;
  actionable : actionable_content
}.

Definition blank_line : string := paragraph_break.

(** Stage 6: [_synthesize(components)]. *)
Definition _synthesize (c : components) : string :=
  introduction (structured c) ++ blank_line ++
  original c ++ blank_line ++
  structured_depth (structured c) ++ blank_line ++
  insights (actionable c).

(** [amplify(answer, question)]. *)
Definition amplify (answer question : string) : string :=
  let concepts := _extractCoreConcepts answer question in
  let reasoning := _buildReasoningChain concepts in
  let depthLayers := _addDepthLayers concepts reasoning in
  let structured := _structureContent answer depthLayers in
  let actionable := _addActionableInsights structured question in
  _synthesize
    {| original := answer;
       concepts := concepts;
       reasoning := reasoning;
       components_depth := depthLayers;
       structured := structured;
       actionable := actionable |}.

Local Open Scope Q_scope.

(** What [getStats()] returns. *)
Record stats : Type := mkStats {
  totalFiltered : nat;
  avgBestScore : Q;
  totalRejected : nat
}.

(** [getStats()]; [length || 1] guards the division.  The sum and the
    quotient are binary64 operations. *)
Definition getStats (self : t) : stats :=
  {| totalFiltered := List.length (filterHistory self);
     avgBestScore :=
       Binary64.div
         (fold_left (fun sum f => Binary64.add sum (bestScore f)) (filterHistory self) 0)
         (of_nat (match List.length (filterHistory self) with
                  | O => 1
                  | n => n
                  end));
     totalRejected :=
       fold_left (fun sum f => (sum + rejected f)%nat) (filterHistory self) O |}.

End Amplifier.

(** ** MomentumEngine.js: the factors that read the state, the
    statistics and the transition history

    A context is the object that the engine is handed: [state] is an
    object and [transitions] an array of objects, both JSON values;
    [lastAccess] and [accessCount] are numbers.  The semantic and the
    depth factor are quotients of counts and sums of such quotients,
    written here over the rationals. *)

Module MomentumTracking.
Import Text JSON.
Local Open Scope string_scope.

(** *** [Set]

    A [Set] keeps its elements in insertion order, without repetition;
    [same] is the comparison of elements. *)
Section JsSet.
Context {A : Type} (same : A -> A -> bool).

(** [set.has(x)]. *)
Definition has (x : A) (s : list A) : bool := existsb (same x) s.

(** [set.add(x)]. *)
Definition add (x : A) (s : list A) : list A :=
  if has x s then s else s ++ [x].

(** [new Set(list)]. *)
Definition make (l : list A) : list A := fold_left (fun s x => add x s) l [].

(** [_calculateOverlap(set1, set2)]. *)
Definition _calculateOverlap (set1 set2 : list A) : Q :=
  let intersection := make (filter (fun x => has x set2) set1) in
  let union := make (set1 ++ set2) in
  if (0 <? List.length union)%nat
  then (AIHousekeeper.of_nat (List.length intersection) /
        AIHousekeeper.of_nat (List.length union))%Q
  else 0%Q.

End JsSet.

Record context_t : Type := mkContext {
  id : jsval;
  appId : jsval;
  lastAccess : R;
  accessCount : R;
  transitions : list (list (string * value));
  state : list (string * value)
}.

(** [_isStopWord(word)]. *)
Definition _isStopWord (word : string) : bool :=
  member word
    ["this"; "that"; "with"; "from"; "have"; "been";
     "were"; "what"; "when"; "where"; "which"; "while"].

(** [text.match(/\b\w{4,}\b/g) || []]: the maximal runs of word
    characters that have four characters or more. *)
Definition long_words (text : string) : list string :=
  filter (fun w => (4 <=? String.length w)%nat) (runs is_word_char [] text).

(** [_extractKeywords(state)]. *)
Definition _extractKeywords (state : list (string * value)) : list string :=
  let text := toLowerCase (stringify (JObj state)) in
  let words := long_words text in
  fold_left
    (fun keywords word =>
       if negb (_isStopWord word) then add String.eqb word keywords else keywords)
    words [].

(** Factor 2: [_calculateSemanticMomentum(context, previousContext)]. *)
Definition _calculateSemanticMomentum (context : context_t) (previousContext : option context_t)
  : Q :=
  match previousContext with
  | None => 1.0%Q
  | Some previous =>
      let state1 := state context in
      let state2 := state previous in
      let keys1 := make String.eqb (map fst state1) in
      let keys2 := make String.eqb (map fst state2) in
      let intersection := make String.eqb (filter (fun k => has String.eqb k keys2) keys1) in
      let union := make String.eqb (keys1 ++ keys2) in
      let jaccard :=
        if (0 <? List.length union)%nat
        then (AIHousekeeper.of_nat (List.length intersection) /
              AIHousekeeper.of_nat (List.length union))%Q
        else 0%Q in
      let keywords1 := _extractKeywords state1 in
      let keywords2 := _extractKeywords state2 in
      let keywordOverlap := _calculateOverlap String.eqb keywords1 keywords2 in
      (0.6 * jaccard + 0.4 * keywordOverlap)%Q
  end.

(** [_countReasoningSteps(state)]. *)
Definition _countReasoningSteps (state : list (string * value)) : nat :=
  let reasoningKeys := ["steps"; "reasoning"; "chain"; "analysis"; "conclusions"] in
  fold_left
    (fun steps key =>
       if truthy (assoc key state) then
         match assoc key state with
         | Some (JArr items) => steps + List.length items
         | Some (JObj members) => steps + List.length members
         | _ => steps + 1
         end
       else steps)
    reasoningKeys 0.

(** [_hasContinuityMarkers(state)]. *)
Definition _hasContinuityMarkers (state : list (string * value)) : bool :=
  let markers :=
    ["therefore"; "thus"; "consequently"; "following";
     "building on"; "extending"; "continuing"; "next"] in
  let text := toLowerCase (stringify (JObj state)) in
  existsb (fun marker => includes marker text) markers.

(** Factor 4: [_calculateDepthMomentum(context)]. *)
Definition _calculateDepthMomentum (context : context_t) : Q :=
  let state := state context in
  let reasoningSteps := _countReasoningSteps state in
  let hasContinuity := _hasContinuityMarkers state in
  let depthScore := Qmin 1 (AIHousekeeper.of_nat reasoningSteps / 10)%Q in
  let continuityBonus := if hasContinuity then 0.2%Q else 0%Q in
  Qmin 1 (depthScore + continuityBonus)%Q.

(** A momentum vector. *)
Record vector : Type := mkVector {
  timestamp : R;
  contextId : jsval;
  factors : MomentumEngine.Factors;
  overall : R
}.

(** The instance. *)
Record engine : Type := mkEngine {
  engine_config : MomentumEngine.config;
  momentumVectors : list (jsval * vector);
  transitionHistory : list (list (string * value))
}.

Definition constructor (o : MomentumEngine.options) : engine :=
  {| engine_config := MomentumEngine.constructor o;
     momentumVectors := [];
     transitionHistory := [] |}.

(** [momentumVectors.get(key)]. *)
Fixpoint vectors_get (key : jsval) (m : list (jsval * vector)) : option vector :=
  match m with
  | [] => None
  | (k, v) :: rest => if jsval_eqb k key then Some v else vectors_get key rest
  end.

(** [recordTransition(transition)]; [now] is [Date.now()]. *)
Definition recordTransition (self : engine) (now : Z) (transition : list (string * value))
  : engine :=
  let pushed :=
    (transitionHistory self ++ [set_member "recordedAt" (JNum now) transition])%list in
  {| engine_config := engine_config self;
     momentumVectors := momentumVectors self;
     transitionHistory :=
       if Rlt_dec (MomentumEngine.maxHistory (engine_config self)) (INR (List.length pushed))
       then tl pushed
       else pushed |}.

(** Successive calls of [recordTransition], each with the clock read
    and the transition handed in; [stamped] is the entry that a call
    pushes. *)
Definition stamped (call : Z * list (string * value)) : list (string * value) :=
  set_member "recordedAt" (JNum (fst call)) (snd call).

Definition record_all (self : engine) (calls : list (Z * list (string * value))) : engine :=
  fold_left (fun e call => recordTransition e (fst call) (snd call)) calls self.

(** [getMomentumVector(contextId)]; [None] is [null]. *)
Definition getMomentumVector (self : engine) (contextId : jsval) : option vector :=
  vectors_get contextId (momentumVectors self).

(** What [getStats()] returns: without vectors [factors] is the empty
    object and there is no property [transitions]. *)
Record stats : Type := mkStats {
  count : nat;
  averageMomentum : R;
  stats_factors : option MomentumEngine.Factors;
  stats_transitions : option nat
}.

Local Open Scope R_scope.

Definition add_factors (a b : MomentumEngine.Factors) : MomentumEngine.Factors :=
  {| MomentumEngine.temporal := MomentumEngine.temporal a + MomentumEngine.temporal b;
     MomentumEngine.semantic := MomentumEngine.semantic a + MomentumEngine.semantic b;
     MomentumEngine.operational := MomentumEngine.operational a + MomentumEngine.operational b;
     MomentumEngine.depth := MomentumEngine.depth a + MomentumEngine.depth b;
     MomentumEngine.confidence := MomentumEngine.confidence a + MomentumEngine.confidence b |}.

Definition divide_factors (a : MomentumEngine.Factors) (n : R) : MomentumEngine.Factors :=
  {| MomentumEngine.temporal := MomentumEngine.temporal a / n;
     MomentumEngine.semantic := MomentumEngine.semantic a / n;
     MomentumEngine.operational := MomentumEngine.operational a / n;
     MomentumEngine.depth := MomentumEngine.depth a / n;
     MomentumEngine.confidence := MomentumEngine.confidence a / n |}.

(** [getStats()]. *)
Definition getStats (self : engine) : stats :=
  let vectors := map snd (momentumVectors self) in
  match vectors with
  | [] =>
      {| count := 0; averageMomentum := 0; stats_factors := None; stats_transitions := None |}
  | _ =>
      let totalMomentum := fold_left (fun sum v => sum + overall v) vectors 0 in
      let avgFactors :=
        fold_left (fun avg v => add_factors avg (factors v)) vectors
          (MomentumEngine.mkFactors 0 0 0 0 0) in
      {| count := List.length vectors;
         averageMomentum := totalMomentum / INR (List.length vectors);
         stats_factors := Some (divide_factors avgFactors (INR (List.length vectors)));
         stats_transitions := Some (List.length (transitionHistory self)) |}
  end.

(** [clear()]. *)
Definition clear (self : engine) : engine :=
  {| engine_config := engine_config self;
     momentumVectors := [];
     transitionHistory := [] |}.

End MomentumTracking.

(** ** index.js: construction of the facade

    [new CONTEXTUAL(config)] builds the four modules and then calls
    [_restoreState].  The bridge is the one of ContextBridge.js, whose
    constructor takes no argument; the properties [momentumEngine] and
    [stateVault] that the facade sets on it are read by no method. *)

Module Facade.
Import JSON.
Local Open Scope string_scope.

Record config : Type := mkConfig {
  storagePath : string;
  encryptionEnabled : bool;
  autoBackup : bool;
  momentumHalfLife : R
}.

(** The object handed to the constructor; [None] is an absent property.
    [opt_encryptionKey] is a property that the caller may set and that
    the spread copies into [this.config]. *)
Record options : Type := mkOptions {
  opt_storagePath : option string;
  opt_encryptionEnabled : option bool;
  opt_autoBackup : option bool;
  opt_momentumHalfLife : option R;
  opt_encryptionKey : option string
}.

(** The instance. *)
Record t : Type := mkFacade {
  facade_config : config;
  vault : StateVault.t;
  momentumEngine : MomentumTracking.engine;
  housekeeper : AIHousekeeper.t;
  bridge : ContextBridge.t
}.

(** The object literals that the constructor hands to [StateVault] and
    to [MomentumEngine]. *)
Definition vault_options (cfg : config) : StateVault.options :=
  {| StateVault.opt_storagePath := Some (storagePath cfg);
     StateVault.opt_encryptionEnabled := Some (encryptionEnabled cfg);
     StateVault.opt_encryptionKey := None;
     StateVault.opt_backupEnabled := Some (autoBackup cfg);
     StateVault.opt_backupInterval := None;
     StateVault.opt_maxBackups := None |}.

Definition engine_options (cfg : config) : MomentumEngine.options :=
  {| MomentumEngine.opt_halfLife := Some (momentumHalfLife cfg);
     MomentumEngine.opt_minMomentum := None;
     MomentumEngine.opt_maxHistory := None;
     MomentumEngine.opt_temporalWeight := None;
     MomentumEngine.opt_semanticWeight := None;
     MomentumEngine.opt_operationalWeight := None;
     MomentumEngine.opt_depthWeight := None;
     MomentumEngine.opt_confidenceWeight := None;
     MomentumEngine.opt_factors := None |}.

Section Construction.
Context {runtime : Runtime}.

(** The loop of [_restoreState]: a context that loads is put into
    [this.bridge.contexts], a property that the bridge does not have. *)
Fixpoint restore_ids (ids : list jsval) (v : StateVault.t) (w : StateVault.world)
  : outcome unit * StateVault.t :=
  match ids with
  | [] => (Return tt, v)
  | contextId :: rest =>
      match StateVault.loadContext v contextId w with
      | (Throw e, v') => (Throw e, v')
      | (Return context, v') =>
          if truthy (Some context) then
            (Throw (TypeError "Cannot read properties of undefined (reading 'set')"), v')
          else restore_ids rest v' w
      end
  end.

(** [_restoreState()]. *)
Definition _restoreState (self : t) (w : StateVault.world) : outcome unit * t :=
  let contextIds := VaultAdmin.getAllContextIds (vault self) in
  match restore_ids contextIds (vault self) w with
  | (r, v') =>
      (r, {| facade_config := facade_config self;
             vault := v';
             momentumEngine := momentumEngine self;
             housekeeper := housekeeper self;
             bridge := bridge self |})
  end.

(** [new CONTEXTUAL(config)]; [generated] is the key that the vault
    draws. *)
Definition constructor (o : options) (generated : string) (w : StateVault.world)
  : outcome t * StateVault.world :=
  let cfg :=
    {| storagePath := StateVault.spread (opt_storagePath o)
                        (StateVault.string_or (opt_storagePath o) "./contextual_data");
       encryptionEnabled := StateVault.spread (opt_encryptionEnabled o)
                              (StateVault.not_false (opt_encryptionEnabled o));
       autoBackup := StateVault.spread (opt_autoBackup o)
                       (StateVault.not_false (opt_autoBackup o));
       momentumHalfLife := MomentumEngine.spread (opt_momentumHalfLife o)
                             (MomentumEngine.or_default (opt_momentumHalfLife o) 30000) |} in
  let (v, w1) := StateVault.constructor (vault_options cfg) generated w in
  let self :=
    {| facade_config := cfg;
       vault := v;
       momentumEngine := MomentumTracking.constructor (engine_options cfg);
       housekeeper := AIHousekeeper.mkHousekeeper [];
       bridge := ContextBridge.constructor |} in
  match _restoreState self w1 with
  | (Return _, self') => (Return self', w1)
  | (Throw e, _) => (Throw e, w1)
  end.

End Construction.
End Facade.

(** ** Sample data

    Concrete instances of the definitions above, at which the statements
    of Part II are instantiated. *)

Section SampleData.
Local Open Scope string_scope.

(** The configuration of [new MomentumEngine()] and a sample context,
    used to instantiate the statements below. *)
Definition default_options : MomentumEngine.options :=
  MomentumEngine.mkOptions None None None None None None None None None.

Definition default_config : MomentumEngine.config :=
  MomentumEngine.constructor default_options.

Definition sample_context : MomentumEngine.Context :=
  MomentumEngine.mkContext 1000 3
    (MomentumEngine.mkState (Some (8/10)%R) None).

(** A context whose state carries [confidence: 0]. *)
Definition zero_confidence_context : MomentumEngine.Context :=
  MomentumEngine.mkContext 1000 2
    (MomentumEngine.mkState (Some 0%R) None).

(** A runtime that satisfies the laws: its cipher leaves the text as it
    is, its tag is the key, the vector and the text together, and it lists
    directories in name order. *)
Definition transparent_seal (key iv data : string) : string * string :=
  (data, key ++ iv ++ data).

Definition transparent_unseal (key : string) (iv authTag encrypted : JSON.jsval)
  : option string :=
  match iv, authTag, encrypted with
  | Some (JSON.JStr i), Some (JSON.JStr t), Some (JSON.JStr c) =>
      if String.eqb t (key ++ i ++ c) then Some c else None
  | _, _, _ => None
  end.

Definition sample_key : string :=
  "000102030405060708090a0b0c0d0e0f101112131415161718191a1b1c1d1e1f".

Definition sample_config : StateVault.config :=
  StateVault.mkConfig "./contextual_data" true sample_key true 300000 2.

Definition sample_vault : StateVault.t :=
  StateVault.mkVault sample_config [] None false.

Definition sample_iv : string := "000102030405060708090a0b0c0d0e0f".

(** An envelope as [_encrypt] writes it, with another tag put in. *)
Definition tampered_envelope : JSON.value :=
  JSON.JObj [ ("encrypted", JSON.JStr "payload");
              ("iv", JSON.JStr sample_iv);
              ("authTag", JSON.JStr "00") ].

(** A vault with two contexts and a running backup timer, the world it
    runs in, and the options of a vault restarted on the same storage. *)
Definition research_context : JSON.value :=
  JSON.JObj [ ("id", JSON.JStr "ctx-1");
              ("appId", JSON.JStr "app1");
              ("state", JSON.JObj [ ("task", JSON.JStr "research");
                                    ("progress", JSON.JNum 50) ]);
              ("lastAccess", JSON.JNum 1699999999000);
              ("accessCount", JSON.JNum 1);
              ("transitions", JSON.JArr []) ].

Definition writing_context : JSON.value :=
  JSON.JObj [ ("id", JSON.JStr "ctx-2");
              ("appId", JSON.JStr "app2");
              ("state", JSON.JObj [ ("task", JSON.JStr "writing") ]);
              ("lastAccess", JSON.JNum 1699999999500);
              ("accessCount", JSON.JNum 0);
              ("transitions", JSON.JArr []) ].

Definition running_vault : StateVault.t :=
  StateVault.mkVault sample_config
    [ (Some (JSON.JStr "ctx-1"), research_context);
      (Some (JSON.JStr "ctx-2"), writing_context) ]
    (Some 0) false.

Definition running_world : StateVault.world :=
  StateVault.mkWorld (StateVault.mkDisk true [] []) [0] 1.

(** The vault of an earlier run, which held the first context only. *)
Definition earlier_vault : StateVault.t :=
  StateVault.mkVault sample_config
    [ (Some (JSON.JStr "ctx-1"), research_context) ]
    (Some 0) false.

Definition restart_options : StateVault.options :=
  StateVault.mkOptions None (Some true) (Some sample_key) (Some false) None None.

Definition empty_world : StateVault.world :=
  StateVault.mkWorld (StateVault.mkDisk true [] []) [] 0.

(** A storage directory that holds the tampered envelope as the unit of
    context [ctx-1]. *)
Definition tampered_world : StateVault.world :=
  StateVault.mkWorld
    (StateVault.mkDisk true [("ctx-1.ctx", JSON.stringify tampered_envelope)] []) [] 0.

Definition sample_calls : list (StateVault.jsmap * Z * string) :=
  [ ([], 1700000000000%Z, sample_iv);
    ([], 1700000300000%Z, sample_iv);
    ([], 1700000600000%Z, sample_iv) ].

(** Three calls of [backup()] within one millisecond. *)
Definition colliding_calls : list (StateVault.jsmap * Z * string) :=
  [ ([], 1700000000000%Z, sample_iv);
    ([], 1700000000000%Z, sample_iv);
    ([], 1700000000000%Z, sample_iv) ].

(** A medium that is not available, and a vault constructed on it that
    holds one context. *)
Definition unavailable_world : StateVault.world :=
  StateVault.mkWorld (StateVault.mkDisk false [] []) [] 0.

Definition fallback_vault : StateVault.t :=
  StateVault.with_contexts
    (fst (StateVault.constructor restart_options "" unavailable_world))
    [ (Some (JSON.JStr "ctx-1"), research_context) ].

(** A context as the momentum engine is handed it, whose state carries a
    confidence and two reasoning steps; the options of an engine that
    keeps two transitions. *)
Definition scored_context : MomentumTracking.context_t :=
  MomentumTracking.mkContext (Some (JSON.JStr "ctx-1")) (Some (JSON.JStr "app1"))
    1000 3 []
    [ ("task", JSON.JStr "research");
      ("confidence", JSON.JNum 1);
      ("steps", JSON.JArr [ JSON.JStr "collect"; JSON.JStr "compare" ]) ].

Definition short_history_options : MomentumEngine.options :=
  MomentumEngine.mkOptions None None (Some 2%R) None None None None None None.

Definition sample_transitions : list (Z * list (string * JSON.value)) :=
  [ (1700000000000%Z, [ ("source", JSON.JStr "ctx-1"); ("target", JSON.JStr "ctx-2") ]);
    (1700000001000%Z, [ ("source", JSON.JStr "ctx-2"); ("target", JSON.JStr "ctx-3") ]);
    (1700000002000%Z, [ ("source", JSON.JStr "ctx-3"); ("target", JSON.JStr "ctx-1") ]) ].

End SampleData.

(* ================================================================== *)
(** * Part II.  Theorems                                               *)
(* ================================================================== *)

Section MomentumEngineFacts.
Import MomentumEngine.
Local Open Scope R_scope.

Lemma exp_half_life (h : R) : h <> 0 -> exp (- (ln 2 / h) * h) = 1/2.
Proof.
  intros Hh.
  replace (- (ln 2 / h) * h) with (- ln 2) by (field; exact Hh).
  rewrite exp_Ropp, exp_ln by lra. lra.
Qed.

Lemma decay_antitone (h a b : R) :
  0 < h -> a <= b -> exp (- (ln 2 / h) * b) <= exp (- (ln 2 / h) * a).
Proof.
  intros Hh Hab.
  assert (Hl : 0 < ln 2 / h).
  { apply Rdiv_lt_0_compat; [|exact Hh]. rewrite <- ln_1. apply ln_increasing; lra. }
  destruct Hab as [Hlt | ->]; [|right; reflexivity].
  left. apply exp_increasing. nra.
Qed.

Lemma decay_vanishes (h eps : R) :
  0 < h -> 0 < eps ->
  exists T, forall t, T <= t -> exp (- (ln 2 / h) * t) < eps.
Proof.
  intros Hh He.
  assert (Hl : 0 < ln 2 / h).
  { apply Rdiv_lt_0_compat; [|exact Hh]. rewrite <- ln_1. apply ln_increasing; lra. }
  exists (- ln eps / (ln 2 / h) + 1). intros t Ht.
  rewrite <- (exp_ln eps He).
  apply exp_increasing.
  assert (E : ln 2 / h * (- ln eps / (ln 2 / h) + 1) = - ln eps + ln 2 / h).
  { field. split; [lra|]. intro Hz. rewrite Hz in Hl.
    unfold Rdiv in Hl. rewrite Rmult_0_l in Hl. lra. }
  nra.
Qed.

(** The formula of the temporal factor read over the real numbers,
    [max(minMomentum, exp(-ln 2 / halfLife * (now - lastAccess)))].  For a
    positive half-life and a non-negative floor it is one half when the
    elapsed time equals the half-life (and the floor is at most one
    half), it never increases as time passes, and it tends to
    [minMomentum] as the elapsed time grows without bound.  The engine
    evaluates the formula in binary64 with its own [Math.exp] and
    [Math.log], where these equalities hold up to rounding only. *)
Theorem temporal_momentum_decay (cfg : config) (context : Context) :
  0 < halfLife cfg ->
  0 <= minMomentum cfg ->
  (forall now,
      _calculateTemporalMomentum cfg now context =
      Rmax (minMomentum cfg)
           (exp (- (ln 2 / halfLife cfg) * (now - lastAccess context)))) /\
  (minMomentum cfg <= 1/2 ->
   forall now, now - lastAccess context = halfLife cfg ->
      _calculateTemporalMomentum cfg now context = 1/2) /\
  (forall now1 now2, now1 <= now2 ->
      _calculateTemporalMomentum cfg now2 context <=
      _calculateTemporalMomentum cfg now1 context) /\
  (forall eps, 0 < eps ->
      exists T, forall now, T <= now - lastAccess context ->
        Rabs (_calculateTemporalMomentum cfg now context - minMomentum cfg) < eps).
Proof.
  intros Hh Hm. unfold _calculateTemporalMomentum. repeat split.
  - intros Hhalf now Hnow. rewrite Hnow, exp_half_life by lra.
    apply Rmax_right. exact Hhalf.
  - intros now1 now2 Hle.
    apply Rle_max_compat_l, decay_antitone; [exact Hh | lra].
  - intros eps He.
    destruct (decay_vanishes (halfLife cfg) eps Hh He) as [T HT].
    exists T. intros now Hnow. specialize (HT _ Hnow).
    pose proof (exp_pos (- (ln 2 / halfLife cfg) * (now - lastAccess context))) as Hpos.
    unfold Rmax. destruct (Rle_dec _ _) as [Hc | Hc].
    + rewrite Rabs_pos_eq; lra.
    + replace (minMomentum cfg - minMomentum cfg) with 0 by ring.
      rewrite Rabs_R0. exact He.
Qed.

(** At the default configuration, read over the real numbers: thirty
    seconds after the last access the temporal factor is one half. *)
Lemma temporal_momentum_decay_witness :
  0 < halfLife default_config /\
  0 <= minMomentum default_config /\
  _calculateTemporalMomentum default_config (1000 + 30000) sample_context = 1/2.
Proof.
  assert (H1 : 0 < halfLife default_config) by (simpl; lra).
  assert (H2 : 0 <= minMomentum default_config) by (simpl; lra).
  split; [exact H1 | split; [exact H2 |]].
  destruct (temporal_momentum_decay default_config sample_context H1 H2)
    as (_ & Hhalf & _).
  apply Hhalf; simpl; lra.
Defined.

(** The exponent that the engine hands to [Math.exp] one half-life after
    the last access is [-(Math.log(2) / halfLife) * halfLife], computed in
    binary64.  With [Math.log(2)] the binary64 number nearest to ln 2, the
    product is that number again for the default half-life of 30000 ms;
    for a half-life of 43000 ms it is the next binary64 number,
    0.6931471805599454. *)
Example half_life_exponent_rounded :
  let ln2 := Binary64.lit 0.6931471805599453%Q in
  (Binary64.mul (Binary64.div ln2 30000) 30000 == ln2)%Q /\
  (Binary64.mul (Binary64.div ln2 43000) 43000 == Binary64.lit 0.6931471805599454)%Q /\
  (ln2 < Binary64.lit 0.6931471805599454)%Q.
Proof. vm_compute. repeat split; discriminate. Qed.

(** C3.  The overall momentum is the weighted sum of the five factors
    under the configured weights, clamped below by [minMomentum] and above
    by 1; with a floor of at most 1 it lies in [[minMomentum, 1]], for all
    factor inputs and so for those in [[0, 1]]. *)
Theorem combined_momentum_clamped (cfg : config) (f : Factors) :
  minMomentum cfg <= 1 ->
  _combineFactors cfg f =
    Rmax (minMomentum cfg)
      (Rmin 1
         (temporal f * temporal (factors cfg) +
          semantic f * semantic (factors cfg) +
          operational f * operational (factors cfg) +
          depth f * depth (factors cfg) +
          confidence f * confidence (factors cfg))) /\
  minMomentum cfg <= _combineFactors cfg f <= 1.
Proof.
  intros Hm. split; [reflexivity|].
  unfold _combineFactors. split.
  - apply Rmax_l.
  - apply Rmax_lub; [exact Hm | apply Rmin_l].
Qed.

Lemma combined_momentum_clamped_witness :
  minMomentum default_config <= 1 /\
  minMomentum default_config
    <= _combineFactors default_config (mkFactors 1 1 1 1 1) <= 1.
Proof.
  assert (H : minMomentum default_config <= 1) by (simpl; lra).
  split; [exact H|].
  exact (proj2 (combined_momentum_clamped default_config (mkFactors 1 1 1 1 1) H)).
Defined.

(** With weights that are non-negative and sum to 1, the weighted sum of
    factors in [[0, 1]] is itself in [[0, 1]]: the upper clamp is idle. *)
Lemma weighted_sum_in_unit_interval (w f : Factors) :
  0 <= temporal w -> 0 <= semantic w -> 0 <= operational w ->
  0 <= depth w -> 0 <= confidence w ->
  temporal w + semantic w + operational w + depth w + confidence w = 1 ->
  0 <= temporal f <= 1 -> 0 <= semantic f <= 1 -> 0 <= operational f <= 1 ->
  0 <= depth f <= 1 -> 0 <= confidence f <= 1 ->
  0 <= temporal f * temporal w + semantic f * semantic w +
       operational f * operational w + depth f * depth w +
       confidence f * confidence w <= 1.
Proof. intros. nra. Qed.

Lemma truthy_nonzero (x : R) : x <> 0 -> truthy x = true.
Proof. intros H. unfold truthy. destruct (Req_dec_T x 0); [contradiction | reflexivity]. Qed.

Lemma truthy_zero : truthy 0 = false.
Proof. unfold truthy. destruct (Req_dec_T 0 0); [reflexivity | contradiction]. Qed.

(** The confidence factor on the inputs where the test of the source and
    a test for presence agree: both properties absent, or [confidence]
    present and non-zero. *)
Lemma confidence_momentum_absent (la n : R) :
  _calculateConfidenceMomentum (mkContext la n (mkState None None)) = 1/2.
Proof. reflexivity. Qed.

Lemma confidence_momentum_present (la n c : R) (certainty : option R) :
  c <> 0 ->
  _calculateConfidenceMomentum (mkContext la n (mkState (Some c) certainty)) =
  Rmin 1 (c + Rmin (3/10) (n * (5/100))).
Proof.
  intros Hc. unfold _calculateConfidenceMomentum, falsy, first_truthy. simpl.
  rewrite (truthy_nonzero c Hc). reflexivity.
Qed.

(** C9.  A state that carries [confidence: 0] (and no [certainty]) is
    scored as if it carried no confidence at all: the factor is the neutral
    0.5, not [min(1, 0 + min(0.3, accessCount * 0.05))], which is 0.1 for
    an access count of 2. *)
Theorem confidence_momentum_zero_confidence :
  _calculateConfidenceMomentum zero_confidence_context = 1/2 /\
  Rmin 1 (0 + Rmin (3/10) (accessCount zero_confidence_context * (5/100))) = 1/10.
Proof.
  split.
  - unfold _calculateConfidenceMomentum, falsy. simpl.
    rewrite truthy_zero. reflexivity.
  - simpl. rewrite (Rmin_right (3/10)) by lra. rewrite Rmin_right by lra. lra.
Qed.

End MomentumEngineFacts.

Section BridgeFacts.
Local Open Scope string_scope.

Lemma lookup_update_same key p ps :
  ContextBridge.lookup key ps <> None ->
  ContextBridge.lookup key (ContextBridge.update key p ps) = Some p.
Proof.
  induction ps as [|[k q] rest IH]; simpl; [congruence|].
  destruct (String.eqb k key) eqn:E; simpl; rewrite E; auto.
Qed.

(** A platform that was connected can be switched to. *)
Lemma switchContext_after_connect b fresh key now tc b1 :
  ContextBridge.connect b fresh key = (Return true, b1) ->
  fst (ContextBridge.switchContext b1 now key tc) =
  Return (ContextBridge.mkSwitch true key (ContextBridge.activeContext b1) (Some fresh)).
Proof.
  unfold ContextBridge.connect.
  destruct (ContextBridge.lookup key (ContextBridge.platforms b)) as [p|] eqn:E;
    [|discriminate].
  intros H. injection H as <-.
  unfold ContextBridge.switchContext, ContextBridge.is_connected. simpl.
  rewrite lookup_update_same by congruence. reflexivity.
Qed.

(** C7.  For a target that is not registered the facade's [transition]
    raises a [TypeError] (the bridge class defines no [transition]), and
    the bridge's own switch operation, [switchContext], rejects with an
    [Error]; neither returns [false].  Both leave the bridge unchanged. *)
Theorem transition_unregistered_target_raises
    {D : Type} (b : ContextBridge.t) (now target : string)
    (transitionData : D) (transferContext : bool) :
  ContextBridge.is_connected b target = false ->
  CONTEXTUAL.transition CONTEXTUAL.ContextBridge_class b target transitionData =
    (Throw (TypeError "this.bridge.transition is not a function"), b) /\
  ContextBridge.switchContext b now target transferContext =
    (Throw (Error ("Platform " ++ target ++ " is not connected")), b).
Proof.
  intros H. split; [reflexivity|].
  unfold ContextBridge.switchContext. rewrite H. reflexivity.
Qed.

Lemma transition_unregistered_target_raises_witness :
  ContextBridge.is_connected ContextBridge.constructor "ctx-unknown" = false /\
  CONTEXTUAL.transition CONTEXTUAL.ContextBridge_class
    ContextBridge.constructor "ctx-unknown" [("reason", "continue research")] =
    (Throw (TypeError "this.bridge.transition is not a function"),
     ContextBridge.constructor).
Proof.
  split; [reflexivity|].
  exact (proj1 (transition_unregistered_target_raises ContextBridge.constructor
                  "2024-01-01T00:00:00.000Z" "ctx-unknown"
                  [("reason", "continue research")] true eq_refl)).
Defined.

End BridgeFacts.

(** ** Binary64 arithmetic

    Rounding is monotone, and the rounded difference of two binary64
    numbers has the sign of their difference. *)

Section Binary64Facts.
Import Binary64.
Local Open Scope Q_scope.

Lemma pow2_pos (e : Z) : 0 < 2 ^ e.
Proof. apply Qpower_0_lt. reflexivity. Qed.

Lemma pow2_plus (a b : Z) : 2 ^ (a + b) == 2 ^ a * 2 ^ b.
Proof. apply Qpower_plus. discriminate. Qed.

Lemma pow2_le (a b : Z) : (a <= b)%Z -> 2 ^ a <= 2 ^ b.
Proof. intros H. apply Qpower_le_compat_l; [exact H | discriminate]. Qed.

Lemma pow2_lt_inv (a b : Z) : 2 ^ a < 2 ^ b -> (a < b)%Z.
Proof. intros H. apply (Qpower_lt_compat_l_inv 2); [exact H | reflexivity]. Qed.

Lemma pow2_Z (n : Z) : (0 <= n)%Z -> inject_Z (2 ^ n) == 2 ^ n.
Proof. intros H. apply (Zpower_Qpower 2 n H). Qed.

Lemma inject_Z_sub (x y : Z) : inject_Z (x - y) = inject_Z x - inject_Z y.
Proof. unfold Z.sub. rewrite inject_Z_plus, inject_Z_opp. reflexivity. Qed.

(** [ilog2] brackets a positive rational between two powers of two. *)
Lemma ilog2_spec (q : Q) :
  0 < q -> 2 ^ ilog2 q <= q /\ q < 2 ^ (ilog2 q + 1).
Proof.
  intros Hq. unfold ilog2.
  destruct q as [n d]. cbn [Qnum Qden].
  assert (Hn : (0 < n)%Z) by (unfold Qlt in Hq; simpl in Hq; lia).
  set (a := Z.log2 n). set (b := Z.log2 (Zpos d)).
  assert (Ha : (2 ^ a <= n < 2 ^ (a + 1))%Z).
  { unfold a. replace (Z.log2 n + 1)%Z with (Z.succ (Z.log2 n)) by lia.
    apply Z.log2_spec. exact Hn. }
  assert (Hb : (2 ^ b <= Zpos d < 2 ^ (b + 1))%Z).
  { unfold b. replace (Z.log2 (Zpos d) + 1)%Z with (Z.succ (Z.log2 (Zpos d))) by lia.
    apply Z.log2_spec. lia. }
  assert (Ha0 : (0 <= a)%Z) by apply Z.log2_nonneg.
  assert (Hb0 : (0 <= b)%Z) by apply Z.log2_nonneg.
  assert (Hd : 0 < inject_Z (Zpos d)) by reflexivity.
  assert (Eq : n # d == inject_Z n / inject_Z (Zpos d)) by apply Qmake_Qdiv.
  assert (Hlow : 2 ^ (a - b - 1) < n # d).
  { rewrite Eq. apply Qlt_shift_div_l; [exact Hd|].
    apply Qlt_le_trans with (2 ^ (a - b - 1) * 2 ^ (b + 1)).
    - apply Qmult_lt_l; [apply pow2_pos|].
      rewrite <- pow2_Z by lia. rewrite <- Zlt_Qlt. lia.
    - rewrite <- pow2_plus. replace (a - b - 1 + (b + 1))%Z with a by lia.
      rewrite <- pow2_Z by lia. rewrite <- Zle_Qle. lia. }
  assert (Hhigh : n # d < 2 ^ (a - b + 1)).
  { rewrite Eq. apply Qlt_shift_div_r; [exact Hd|].
    apply Qlt_le_trans with (2 ^ (a + 1)).
    - rewrite <- pow2_Z by lia. rewrite <- Zlt_Qlt. lia.
    - replace (a + 1)%Z with (a - b + 1 + b)%Z at 1 by lia.
      rewrite pow2_plus. apply Qmult_le_l; [apply pow2_pos|].
      rewrite <- pow2_Z by lia. rewrite <- Zle_Qle. lia. }
  destruct (Qle_bool (2 ^ (a - b)) (n # d)) eqn:E.
  - apply Qle_bool_iff in E. split; assumption.
  - assert (Hlt : n # d < 2 ^ (a - b)).
    { apply Qnot_le_lt. intros H. apply Qle_bool_iff in H. congruence. }
    split; [apply Qlt_le_weak; exact Hlow|].
    replace (a - b - 1 + 1)%Z with (a - b)%Z by lia. exact Hlt.
Qed.

Lemma ilog2_le (x y : Q) : 0 < x -> x <= y -> (ilog2 x <= ilog2 y)%Z.
Proof.
  intros Hx Hxy.
  assert (Hy : 0 < y) by (eapply Qlt_le_trans; eassumption).
  destruct (ilog2_spec x Hx) as [H1 _]. destruct (ilog2_spec y Hy) as [_ H2].
  assert (H : 2 ^ ilog2 x < 2 ^ (ilog2 y + 1)).
  { eapply Qle_lt_trans; [exact H1|]. eapply Qle_lt_trans; eassumption. }
  apply pow2_lt_inv in H. lia.
Qed.

(** *** Rounding to an integer *)

Ltac compare_facts :=
  repeat match goal with
  | H : Qcompare _ _ = Eq |- _ => rewrite <- Qeq_alt in H
  | H : Qcompare _ _ = Lt |- _ => rewrite <- Qlt_alt in H
  | H : Qcompare _ _ = Gt |- _ => rewrite <- Qgt_alt in H
  end.

Lemma nearest_even_cases (q : Q) :
  nearest_even q = Qfloor q \/ nearest_even q = (Qfloor q + 1)%Z.
Proof.
  unfold nearest_even.
  destruct (Qcompare _ _); [destruct (Z.even _)| |]; auto.
Qed.

Lemma nearest_even_Z (z : Z) : nearest_even (inject_Z z) = z.
Proof.
  unfold nearest_even. rewrite Qfloor_Z.
  assert (E : Qcompare (inject_Z z - inject_Z z) (1 # 2) = Lt).
  { rewrite <- Qlt_alt. ring_simplify (inject_Z z - inject_Z z). reflexivity. }
  rewrite E. reflexivity.
Qed.

Lemma nearest_even_le (x y : Q) : x <= y -> (nearest_even x <= nearest_even y)%Z.
Proof.
  intros Hxy.
  pose proof (Qfloor_resp_le x y Hxy) as Hf.
  destruct (Z.eq_dec (Qfloor x) (Qfloor y)) as [E | N].
  - unfold nearest_even. rewrite <- E.
    destruct (Qcompare (x - inject_Z (Qfloor x)) (1 # 2)) eqn:Cx;
      destruct (Qcompare (y - inject_Z (Qfloor x)) (1 # 2)) eqn:Cy;
      try (destruct (Z.even (Qfloor x))); try lia;
      exfalso; compare_facts; lra.
  - destruct (nearest_even_cases x) as [-> | ->];
      destruct (nearest_even_cases y) as [-> | ->]; lia.
Qed.

Lemma nearest_even_upper (x : Q) (z : Z) : x <= inject_Z z -> (nearest_even x <= z)%Z.
Proof. intros H. rewrite <- (nearest_even_Z z). apply nearest_even_le. exact H. Qed.

Lemma nearest_even_lower (x : Q) (z : Z) : inject_Z z <= x -> (z <= nearest_even x)%Z.
Proof. intros H. rewrite <- (nearest_even_Z z). apply nearest_even_le. exact H. Qed.

(** *** Rounding to binary64 *)

Lemma Qabs_pos_eq (q : Q) : 0 < q -> Qabs q = q.
Proof.
  destruct q as [n d]. unfold Qlt. simpl. intros H.
  rewrite Z.abs_eq by lia. reflexivity.
Qed.

Lemma round_zero (q : Q) : q == 0 -> round q = 0.
Proof.
  intros H. unfold round.
  destruct (Qeq_bool q 0) eqn:E; [reflexivity|].
  apply Qeq_bool_neq in E. contradiction.
Qed.

Lemma round_unfold (q : Q) :
  ~ q == 0 -> round q = inject_Z (nearest_even (q / 2 ^ exponent q)) * 2 ^ exponent q.
Proof.
  intros H. unfold round.
  destruct (Qeq_bool q 0) eqn:E; [|reflexivity].
  apply Qeq_bool_iff in E. contradiction.
Qed.

Lemma exponent_emin (q : Q) : (emin <= exponent q)%Z.
Proof. unfold exponent. lia. Qed.

Lemma scale_le (x y : Q) (e : Z) : x <= y -> x / 2 ^ e <= y / 2 ^ e.
Proof.
  intros H. unfold Qdiv. apply Qmult_le_compat_r; [exact H|].
  apply Qlt_le_weak, Qinv_lt_0_compat, pow2_pos.
Qed.

Lemma scaled_upper (q : Q) : 0 < q -> q / 2 ^ exponent q < inject_Z (2 ^ 53).
Proof.
  intros Hq. destruct (ilog2_spec q Hq) as [_ H].
  apply Qlt_shift_div_r; [apply pow2_pos|].
  eapply Qlt_le_trans; [exact H|].
  rewrite pow2_Z by lia. rewrite <- pow2_plus. apply pow2_le.
  unfold exponent. rewrite (Qabs_pos_eq q Hq). lia.
Qed.

Lemma scaled_lower (q : Q) :
  0 < q -> (emin < exponent q)%Z -> inject_Z (2 ^ 52) <= q / 2 ^ exponent q.
Proof.
  intros Hq He. destruct (ilog2_spec q Hq) as [H _].
  apply Qle_shift_div_l; [apply pow2_pos|].
  eapply Qle_trans; [|exact H].
  rewrite pow2_Z by lia. rewrite <- pow2_plus. apply pow2_le.
  unfold exponent in *. rewrite (Qabs_pos_eq q Hq) in *. lia.
Qed.

Lemma round_nonneg (q : Q) : 0 <= q -> 0 <= round q.
Proof.
  intros Hq. destruct (Qeq_dec q 0) as [E | N].
  - rewrite (round_zero q E). apply Qle_refl.
  - rewrite (round_unfold q N).
    apply Qmult_le_0_compat; [|apply Qlt_le_weak, pow2_pos].
    change 0 with (inject_Z 0). rewrite <- Zle_Qle.
    apply nearest_even_lower. simpl inject_Z.
    apply Qle_shift_div_l; [apply pow2_pos|]. rewrite Qmult_0_l. exact Hq.
Qed.

Lemma round_nonpos (q : Q) : q <= 0 -> round q <= 0.
Proof.
  intros Hq. destruct (Qeq_dec q 0) as [E | N].
  - rewrite (round_zero q E). apply Qle_refl.
  - rewrite (round_unfold q N).
    assert (H : inject_Z (nearest_even (q / 2 ^ exponent q)) <= 0).
    { change 0 with (inject_Z 0). rewrite <- Zle_Qle.
      apply nearest_even_upper. simpl inject_Z.
      apply Qle_shift_div_r; [apply pow2_pos|]. rewrite Qmult_0_l. exact Hq. }
    pose proof (pow2_pos (exponent q)) as Hp.
    revert H Hp. generalize (inject_Z (nearest_even (q / 2 ^ exponent q))) (2 ^ exponent q).
    intros a b H Hp. nra.
Qed.

Lemma round_le_pos (x y : Q) : 0 < x -> x <= y -> round x <= round y.
Proof.
  intros Hx Hxy.
  assert (Hy : 0 < y) by (eapply Qlt_le_trans; eassumption).
  assert (Nx : ~ x == 0) by lra. assert (Ny : ~ y == 0) by lra.
  rewrite (round_unfold x Nx), (round_unfold y Ny).
  assert (He : (exponent x <= exponent y)%Z).
  { unfold exponent. rewrite (Qabs_pos_eq x Hx), (Qabs_pos_eq y Hy).
    pose proof (ilog2_le x y Hx Hxy). lia. }
  destruct (Z.eq_dec (exponent x) (exponent y)) as [E | N].
  - rewrite E. apply Qmult_le_compat_r; [|apply Qlt_le_weak, pow2_pos].
    rewrite <- Zle_Qle. apply nearest_even_le, scale_le. exact Hxy.
  - assert (Hlow : inject_Z (2 ^ 52) <= inject_Z (nearest_even (y / 2 ^ exponent y))).
    { rewrite <- Zle_Qle. apply nearest_even_lower, scaled_lower; [exact Hy|].
      pose proof (exponent_emin x). lia. }
    assert (Hup : inject_Z (nearest_even (x / 2 ^ exponent x)) <= inject_Z (2 ^ 53)).
    { rewrite <- Zle_Qle. apply nearest_even_upper, Qlt_le_weak, scaled_upper. exact Hx. }
    apply Qle_trans with (inject_Z (2 ^ 53) * 2 ^ exponent x).
    { apply Qmult_le_compat_r; [exact Hup | apply Qlt_le_weak, pow2_pos]. }
    apply Qle_trans with (inject_Z (2 ^ 52) * 2 ^ exponent y).
    2: { apply Qmult_le_compat_r; [exact Hlow | apply Qlt_le_weak, pow2_pos]. }
    rewrite !pow2_Z by lia. rewrite <- !pow2_plus. apply pow2_le. lia.
Qed.

Lemma nearest_even_opp (q : Q) : nearest_even (- q) = (- nearest_even q)%Z.
Proof.
  unfold nearest_even.
  pose proof (Qfloor_le q) as H1. pose proof (Qlt_floor q) as H2.
  pose proof (Qfloor_le (- q)) as H3. pose proof (Qlt_floor (- q)) as H4.
  rewrite inject_Z_plus in H2, H4. change (inject_Z 1) with 1 in H2, H4.
  destruct (Qeq_dec q (inject_Z (Qfloor q))) as [E | N].
  - assert (F : Qfloor (- q) = (- Qfloor q)%Z).
    { assert (Hlo : inject_Z (- Qfloor q - 1) < inject_Z (Qfloor (- q)) + 0).
      { rewrite inject_Z_sub, inject_Z_opp. change (inject_Z 1) with 1; change (inject_Z 2) with 2. lra. }
      assert (Hhi : inject_Z (Qfloor (- q)) < inject_Z (- Qfloor q + 1)).
      { rewrite inject_Z_plus, inject_Z_opp. change (inject_Z 1) with 1; change (inject_Z 2) with 2. lra. }
      rewrite Qplus_0_r in Hlo. rewrite <- Zlt_Qlt in Hlo, Hhi. lia. }
    rewrite F.
    assert (Ca : Qcompare (q - inject_Z (Qfloor q)) (1 # 2) = Lt).
    { rewrite <- Qlt_alt. lra. }
    assert (Cb : Qcompare (- q - inject_Z (- Qfloor q)) (1 # 2) = Lt).
    { rewrite <- Qlt_alt. rewrite inject_Z_opp. lra. }
    rewrite Ca, Cb. reflexivity.
  - assert (F : Qfloor (- q) = (- Qfloor q - 1)%Z).
    { assert (Hlo : inject_Z (- Qfloor q - 2) < inject_Z (Qfloor (- q)) + 0).
      { rewrite inject_Z_sub, inject_Z_opp. change (inject_Z 1) with 1; change (inject_Z 2) with 2. lra. }
      assert (Hhi : inject_Z (Qfloor (- q)) < inject_Z (- Qfloor q)).
      { rewrite inject_Z_opp.
        assert (inject_Z (Qfloor q) < q) by (apply Qle_lteq in H1; destruct H1; [assumption|]; exfalso; apply N; symmetry; assumption).
        lra. }
      rewrite Qplus_0_r in Hlo. rewrite <- Zlt_Qlt in Hlo, Hhi. lia. }
    rewrite F.
    assert (Ediff : - q - inject_Z (- Qfloor q - 1) == 1 - (q - inject_Z (Qfloor q))).
    { rewrite inject_Z_sub, inject_Z_opp. change (inject_Z 1) with 1; change (inject_Z 2) with 2. ring. }
    destruct (Qcompare (q - inject_Z (Qfloor q)) (1 # 2)) eqn:Ca.
    + rewrite <- Qeq_alt in Ca.
      assert (Cb : Qcompare (- q - inject_Z (- Qfloor q - 1)) (1 # 2) = Eq).
      { rewrite <- Qeq_alt. rewrite Ediff. lra. }
      rewrite Cb.
      replace (- Qfloor q - 1)%Z with (- (Qfloor q + 1))%Z by lia.
      rewrite Z.even_opp. rewrite Z.even_add. simpl (Z.even 1).
      destruct (Z.even (Qfloor q)); simpl; lia.
    + rewrite <- Qlt_alt in Ca.
      assert (Cb : Qcompare (- q - inject_Z (- Qfloor q - 1)) (1 # 2) = Gt).
      { rewrite <- Qgt_alt. rewrite Ediff. lra. }
      rewrite Cb. lia.
    + rewrite <- Qgt_alt in Ca.
      assert (Cb : Qcompare (- q - inject_Z (- Qfloor q - 1)) (1 # 2) = Lt).
      { rewrite <- Qlt_alt. rewrite Ediff. lra. }
      rewrite Cb. lia.
Qed.

Lemma Qabs_opp_eq (q : Q) : Qabs (- q) = Qabs q.
Proof. destruct q as [n d]. unfold Qabs, Qopp. simpl. rewrite Z.abs_opp. reflexivity. Qed.

Lemma round_opp (q : Q) : round (- q) == - round q.
Proof.
  destruct (Qeq_dec q 0) as [E | N].
  - rewrite (round_zero q E), (round_zero (- q)) by lra. reflexivity.
  - assert (N' : ~ - q == 0) by lra.
    rewrite (round_unfold q N), (round_unfold _ N').
    unfold exponent. rewrite Qabs_opp_eq.
    assert (E : - q / 2 ^ Z.max (ilog2 (Qabs q) - 52) emin ==
                - (q / 2 ^ Z.max (ilog2 (Qabs q) - 52) emin)).
    { unfold Qdiv. ring. }
    assert (F : nearest_even (- q / 2 ^ Z.max (ilog2 (Qabs q) - 52) emin) =
                nearest_even (- (q / 2 ^ Z.max (ilog2 (Qabs q) - 52) emin))).
    { apply Z.le_antisymm; apply nearest_even_le; rewrite E; apply Qle_refl. }
    rewrite F, nearest_even_opp, inject_Z_opp. ring.
Qed.

(** Rounding is monotone. *)
Lemma round_le (x y : Q) : x <= y -> round x <= round y.
Proof.
  intros Hxy.
  destruct (Qlt_le_dec 0 x) as [Hx | Hx].
  - apply round_le_pos; assumption.
  - destruct (Qlt_le_dec y 0) as [Hy | Hy].
    + assert (H : round (- y) <= round (- x)) by (apply round_le_pos; lra).
      rewrite !round_opp in H. lra.
    + apply Qle_trans with 0; [apply round_nonpos | apply round_nonneg]; assumption.
Qed.

Lemma round_eq (x y : Q) : x == y -> round x == round y.
Proof. intros H. apply Qle_antisym; apply round_le; rewrite H; apply Qle_refl. Qed.

(** *** The grid of the subnormal numbers *)

Lemma round_on_grid (q : Q) : on_grid (round q).
Proof.
  destruct (Qeq_dec q 0) as [E | N].
  - rewrite (round_zero q E). exists 0%Z. ring.
  - rewrite (round_unfold q N).
    exists (nearest_even (q / 2 ^ exponent q) * 2 ^ (exponent q - emin))%Z.
    rewrite inject_Z_mult. rewrite pow2_Z by (pose proof (exponent_emin q); lia).
    rewrite <- Qmult_assoc, <- pow2_plus.
    replace (exponent q - emin + emin)%Z with (exponent q) by lia. reflexivity.
Qed.

Lemma on_grid_minus (x y : Q) : on_grid x -> on_grid y -> on_grid (x - y).
Proof.
  intros [a Ha] [b Hb]. exists (a - b)%Z.
  rewrite Ha, Hb, inject_Z_sub. ring.
Qed.

(** A difference of two binary64 numbers does not round to zero. *)
Lemma round_pos_on_grid (q : Q) : on_grid q -> 0 < q -> 0 < round q.
Proof.
  intros [z Hz] Hq.
  assert (N : ~ q == 0) by lra.
  assert (Hz1 : (1 <= z)%Z).
  { destruct (Z_lt_le_dec z 1) as [H | H]; [|exact H]. exfalso.
    assert (inject_Z z <= 0) by (change 0 with (inject_Z 0); rewrite <- Zle_Qle; lia).
    pose proof (pow2_pos emin). nra. }
  assert (Hmin : 2 ^ emin <= q).
  { rewrite Hz. rewrite <- (Qmult_1_l (2 ^ emin)) at 1.
    apply Qmult_le_compat_r; [|apply Qlt_le_weak, pow2_pos].
    change 1 with (inject_Z 1). rewrite <- Zle_Qle. exact Hz1. }
  destruct (ilog2_spec q Hq) as [Hlo Hhi].
  assert (He : (exponent q <= ilog2 q)%Z).
  { unfold exponent. rewrite (Qabs_pos_eq q Hq).
    assert (H : 2 ^ emin < 2 ^ (ilog2 q + 1)) by (eapply Qle_lt_trans; eassumption).
    apply pow2_lt_inv in H. lia. }
  rewrite (round_unfold q N).
  apply Qmult_lt_0_compat; [|apply pow2_pos].
  change 0 with (inject_Z 0). rewrite <- Zlt_Qlt.
  assert (H1 : (1 <= nearest_even (q / 2 ^ exponent q))%Z).
  { apply nearest_even_lower. simpl inject_Z.
    apply Qle_shift_div_l; [apply pow2_pos|]. rewrite Qmult_1_l.
    eapply Qle_trans; [|exact Hlo]. apply pow2_le. exact He. }
  lia.
Qed.

(** The sign of a rounded difference is the sign of the difference. *)
Lemma sub_nonpos_iff (x y : Q) :
  on_grid x -> on_grid y -> (sub x y <= 0 <-> x <= y).
Proof.
  intros Hx Hy. unfold sub. split.
  - intros H. apply Qnot_lt_le. intros Hlt.
    assert (0 < round (x - y)).
    { apply round_pos_on_grid; [apply on_grid_minus; assumption | lra]. }
    lra.
  - intros H. apply round_nonpos. lra.
Qed.

(** *** Binary64 numbers are fixed points of rounding *)

Lemma ilog2_unique (q : Q) (k : Z) :
  2 ^ k <= q -> q < 2 ^ (k + 1) -> ilog2 q = k.
Proof.
  intros Hlo Hhi.
  assert (Hq : 0 < q) by (eapply Qlt_le_trans; [apply (pow2_pos k) | exact Hlo]).
  destruct (ilog2_spec q Hq) as [H1 H2].
  assert (A : 2 ^ k < 2 ^ (ilog2 q + 1)) by (eapply Qle_lt_trans; eassumption).
  assert (B : 2 ^ ilog2 q < 2 ^ (k + 1)) by (eapply Qle_lt_trans; eassumption).
  apply pow2_lt_inv in A. apply pow2_lt_inv in B. lia.
Qed.

Lemma scaled_integer (m e e' : Z) :
  (e <= e')%Z ->
  (exists m', m = (m' * 2 ^ (e' - e))%Z) ->
  exists m', inject_Z m * 2 ^ e / 2 ^ e' == inject_Z m'.
Proof.
  intros He [m' ->]. exists m'.
  rewrite inject_Z_mult, pow2_Z by lia.
  assert (E : 2 ^ e' == 2 ^ (e' - e) * 2 ^ e).
  { rewrite <- pow2_plus. replace (e' - e + e)%Z with e' by lia. reflexivity. }
  rewrite E. field.
  split; apply Qnot_eq_sym, Qlt_not_eq, pow2_pos.
Qed.

Lemma round_fixed (m e : Z) :
  (0 < m <= 2 ^ 53)%Z -> (emin <= e)%Z -> (emin < e -> 2 ^ 52 <= m)%Z ->
  round (inject_Z m * 2 ^ e) == inject_Z m * 2 ^ e.
Proof.
  intros Hm He Hnormal.
  set (r := inject_Z m * 2 ^ e).
  assert (Hr : 0 < r).
  { apply Qmult_lt_0_compat; [|apply pow2_pos].
    change 0 with (inject_Z 0). rewrite <- Zlt_Qlt. lia. }
  assert (N : ~ r == 0) by lra.
  set (k := Z.log2 m).
  assert (Hk : (2 ^ k <= m < 2 ^ (k + 1))%Z).
  { unfold k. replace (Z.log2 m + 1)%Z with (Z.succ (Z.log2 m)) by lia.
    apply Z.log2_spec. lia. }
  assert (Hk0 : (0 <= k)%Z) by apply Z.log2_nonneg.
  assert (Hk53 : (k <= 53)%Z).
  { destruct (Z_le_gt_dec k 53) as [H | H]; [exact H|]. exfalso.
    assert ((2 ^ 54 <= 2 ^ k)%Z) by (apply Z.pow_le_mono_r; lia). lia. }
  assert (Hlog : ilog2 r = (k + e)%Z).
  { apply ilog2_unique; unfold r.
    - rewrite pow2_plus. apply Qmult_le_compat_r; [|apply Qlt_le_weak, pow2_pos].
      rewrite <- pow2_Z by lia. rewrite <- Zle_Qle. lia.
    - replace (k + e + 1)%Z with (k + 1 + e)%Z by lia.
      rewrite pow2_plus. apply Qmult_lt_compat_r; [apply pow2_pos|].
      rewrite <- pow2_Z by lia. rewrite <- Zlt_Qlt. lia. }
  assert (Hexp : (e <= exponent r)%Z /\
                 exists m', m = (m' * 2 ^ (exponent r - e))%Z).
  { unfold exponent. rewrite (Qabs_pos_eq r Hr), Hlog.
    destruct (Z_le_gt_dec 52 k) as [Hb | Hs].
    - rewrite Z.max_l by lia. split; [lia|].
      destruct (Z.eq_dec k 52) as [-> | Hne].
      + exists m. replace (52 + e - 52 - e)%Z with 0%Z by lia. simpl. lia.
      + assert (k = 53%Z) by lia. subst k.
        exists (2 ^ 52)%Z.
        assert (k' : Z.log2 m = 53%Z) by assumption.
        rewrite k' in *.
        replace (53 + e - 52 - e)%Z with 1%Z by lia.
        change (2 ^ (53 + 1))%Z with (2 * 2 ^ 53)%Z in Hk.
        change (2 ^ 1)%Z with 2%Z. lia.
    - assert (e = emin).
      { destruct (Z.eq_dec e emin) as [E | E]; [exact E|]. exfalso.
        assert (H52 : (2 ^ 52 <= m)%Z) by (apply Hnormal; lia).
        assert ((2 ^ (k + 1) <= 2 ^ 52)%Z) by (apply Z.pow_le_mono_r; lia). lia. }
      subst e. rewrite Z.max_r by lia. split; [lia|].
      exists m. replace (emin - emin)%Z with 0%Z by lia. simpl. lia. }
  destruct Hexp as [Hle Hdiv].
  destruct (scaled_integer m e (exponent r) Hle Hdiv) as [m' Hm'].
  assert (E' : r / 2 ^ exponent r == inject_Z m') by exact Hm'.
  rewrite (round_unfold r N).
  assert (F : nearest_even (r / 2 ^ exponent r) = m').
  { rewrite <- (nearest_even_Z m').
    apply Z.le_antisymm; apply nearest_even_le; rewrite E'; apply Qle_refl. }
  rewrite F, <- E'. field.
  apply Qnot_eq_sym, Qlt_not_eq, pow2_pos.
Qed.

(** Rounding a rounded number changes nothing. *)
Lemma round_idem (q : Q) : round (round q) == round q.
Proof.
  assert (Hpos : forall x, 0 < x -> round (round x) == round x).
  { intros x Hx.
    assert (N : ~ x == 0) by lra.
    pose proof (round_nonneg x (Qlt_le_weak _ _ Hx)) as H0.
    rewrite (round_unfold x N) in *.
    set (m := nearest_even (x / 2 ^ exponent x)) in *.
    assert (Hm0 : (0 <= m)%Z).
    { apply nearest_even_lower. change (inject_Z 0) with 0.
      apply Qle_shift_div_l; [apply pow2_pos|]. rewrite Qmult_0_l. lra. }
    destruct (Z.eq_dec m 0) as [E | Hne].
    - rewrite E. rewrite round_zero; [ring | ring].
    - apply round_fixed.
      + split; [lia|]. apply nearest_even_upper, Qlt_le_weak, scaled_upper. exact Hx.
      + apply exponent_emin.
      + intros He. apply nearest_even_lower, scaled_lower; assumption. }
  destruct (Qlt_le_dec 0 q) as [H | H]; [apply Hpos; exact H|].
  destruct (Qeq_dec q 0) as [E | N].
  - rewrite (round_zero q E). reflexivity.
  - assert (Hn : 0 < - q) by lra.
    specialize (Hpos (- q) Hn).
    rewrite (round_eq (round (- q)) (- round q) (round_opp q)) in Hpos.
    rewrite !round_opp in Hpos. lra.
Qed.

End Binary64Facts.

Section HousekeeperFacts.
Import AIHousekeeper.
Local Open Scope Q_scope.

Variable question : string.

Let entry (answer : string) : scored := mkScored answer (_scoreAnswer answer question).
Let by_overall (a b : scored) : Q :=
  Binary64.sub (overall (scored_score b)) (overall (scored_score a)).
Let value (answer : string) : Q := overall (_scoreAnswer answer question).

Lemma insert_length {A : Type} (cmp : A -> A -> Q) (x : A) (l : list A) :
  List.length (insert cmp x l) = S (List.length l).
Proof.
  induction l as [|y l IH]; simpl; [reflexivity|].
  destruct (Qle_bool _ _); simpl; [reflexivity | now rewrite IH].
Qed.

(** An overall score is the result of an addition, a binary64 number. *)
Lemma overall_on_grid (answer : string) : Binary64.on_grid (value answer).
Proof. apply round_on_grid. Qed.

(** The comparison function of [filterAnswers] orders as the scores do. *)
Lemma by_overall_nonpos (x y : string) :
  Qle_bool (by_overall (entry x) (entry y)) 0 = true <-> value y <= value x.
Proof.
  rewrite Qle_bool_iff. apply sub_nonpos_iff; apply overall_on_grid.
Qed.

(** The head of the sorted candidates is the first candidate of maximal
    overall score. *)
Lemma sort_head_first_maximum (c : string) (cs : list string) :
  exists pre a post rest,
    c :: cs = pre ++ a :: post /\
    (forall p, In p pre -> value p < value a) /\
    (forall p, In p post -> value p <= value a) /\
    sort by_overall (map entry (c :: cs)) = entry a :: rest /\
    List.length rest = List.length cs.
Proof.
  revert c. induction cs as [|d cs IH]; intros c.
  - exists [], c, [], []. simpl. repeat split; intros p [].
  - destruct (IH d) as (pre & a & post & rest & Hl & Hpre & Hpost & Hs & Hlen).
    change (sort by_overall (map entry (c :: d :: cs)))
      with (insert by_overall (entry c) (sort by_overall (map entry (d :: cs)))).
    rewrite Hs. cbn [insert].
    destruct (Qle_bool (by_overall (entry c) (entry a)) 0) eqn:E.
    + apply by_overall_nonpos in E.
      exists [], c, (d :: cs), (entry a :: rest).
      split; [reflexivity|]. split; [intros p []|].
      split; [|split; [reflexivity | simpl; lia]].
      intros p Hp. rewrite Hl in Hp. apply in_app_or in Hp.
      destruct Hp as [Hp | [<- | Hp]].
      * specialize (Hpre p Hp). lra.
      * lra.
      * specialize (Hpost p Hp). lra.
    + assert (Hlt : value c < value a).
      { apply Qnot_le_lt. intros Hle. apply by_overall_nonpos in Hle. congruence. }
      exists (c :: pre), a, post, (insert by_overall (entry c) rest).
      repeat split.
      * simpl. rewrite Hl. reflexivity.
      * intros p [<- | Hp]; [exact Hlt | exact (Hpre p Hp)].
      * exact Hpost.
      * rewrite insert_length. simpl. lia.
Qed.

End HousekeeperFacts.

(** Two runs of the housekeeper: among three candidates the second
    scores highest, and a one-word answer gets the completeness of an
    answer that is too short. *)
Example filterAnswers_picks_second :
  match fst (AIHousekeeper.filterAnswers (AIHousekeeper.mkHousekeeper []) 0
               (AIHousekeeper.array
                  [ "short"; "X is a letter because research shows 42"; "maybe" ]%string)
               "What is X?"%string) with
  | Return r => AIHousekeeper.answer r
  | Throw _ => ""%string
  end = "X is a letter because research shows 42"%string.
Proof. vm_compute. reflexivity. Qed.

Example short_answer_completeness :
  AIHousekeeper.completeness
    (AIHousekeeper.factors (AIHousekeeper._scoreAnswer "short" "What is X?")) =
  Binary64.lit 0.3.
Proof. reflexivity. Qed.

(** Two candidates whose scores are both 453/1000 when the weighted sum
    is taken exactly: rounded as the engine rounds, the first sum falls
    one place short of the second, and the second candidate is returned. *)
Example filterAnswers_rounded_scores :
  (AIHousekeeper.overall (AIHousekeeper._scoreAnswer "data case" "q") <
   AIHousekeeper.overall (AIHousekeeper._scoreAnswer "thus some" "q"))%Q /\
  (AIHousekeeper.overall (AIHousekeeper._scoreAnswer "thus some" "q") ==
   Binary64.lit 0.453)%Q /\
  match fst (AIHousekeeper.filterAnswers (AIHousekeeper.mkHousekeeper []) 0
               (AIHousekeeper.array [ "data case"; "thus some" ]%string) "q"%string) with
  | Return r => AIHousekeeper.answer r
  | Throw _ => ""%string
  end = "thus some"%string.
Proof. vm_compute. repeat split; discriminate. Qed.

(** C8.  [filterAnswers] raises its validation error exactly when the
    argument is not an array or is the empty array.  On a non-empty array
    of strings it returns the earliest candidate whose overall score is
    maximal, together with that candidate's score; the returned value
    depends neither on the clock nor on the housekeeper's history.  The
    overall score of a candidate is the weighted sum of its eight factors,
    each product and each sum rounded to binary64, the terms added from
    left to right. *)
Theorem filterAnswers_first_maximum
    (self : AIHousekeeper.t) (now : Z) (question : string) :
  (forall candidates,
      fst (AIHousekeeper.filterAnswers self now candidates question) =
        Throw (Error "Candidates must be a non-empty array") <->
      candidates = AIHousekeeper.not_an_array \/
      candidates = AIHousekeeper.array []) /\
  (forall candidates,
      raises (fst (AIHousekeeper.filterAnswers self now candidates question)) = true <->
      candidates = AIHousekeeper.not_an_array \/
      candidates = AIHousekeeper.array []) /\
  (forall c cs,
      exists pre a post,
        c :: cs = pre ++ a :: post /\
        (forall p, In p pre ->
           (AIHousekeeper.overall (AIHousekeeper._scoreAnswer p question) <
            AIHousekeeper.overall (AIHousekeeper._scoreAnswer a question))%Q) /\
        (forall p, In p post ->
           (AIHousekeeper.overall (AIHousekeeper._scoreAnswer p question) <=
            AIHousekeeper.overall (AIHousekeeper._scoreAnswer a question))%Q) /\
        fst (AIHousekeeper.filterAnswers self now (AIHousekeeper.array (c :: cs)) question) =
          Return (AIHousekeeper.mkResult a
                    (AIHousekeeper._scoreAnswer a question)
                    (AIHousekeeper.overall (AIHousekeeper._scoreAnswer a question)))) /\
  (forall candidates self' now',
      fst (AIHousekeeper.filterAnswers self' now' candidates question) =
      fst (AIHousekeeper.filterAnswers self now candidates question)) /\
  (forall a,
      AIHousekeeper.factors (AIHousekeeper._scoreAnswer a question) =
        AIHousekeeper.mkFactors
          (AIHousekeeper._scoreRelevance a question)
          (AIHousekeeper._scoreCompleteness a)
          (AIHousekeeper._scoreStructure a)
          (AIHousekeeper._scoreConfidenceMarkers a)
          (AIHousekeeper._scoreContradictions a)
          (AIHousekeeper._scoreContextAlignment a question)
          (AIHousekeeper._scoreSpecificity a)
          (AIHousekeeper._scoreEvidence a) /\
      AIHousekeeper.overall (AIHousekeeper._scoreAnswer a question) =
        Binary64.add (Binary64.add (Binary64.add (Binary64.add
          (Binary64.add (Binary64.add (Binary64.add
            (Binary64.mul (AIHousekeeper._scoreRelevance a question) (Binary64.lit 0.25))
            (Binary64.mul (AIHousekeeper._scoreCompleteness a) (Binary64.lit 0.15)))
            (Binary64.mul (AIHousekeeper._scoreStructure a) (Binary64.lit 0.12)))
            (Binary64.mul (AIHousekeeper._scoreConfidenceMarkers a) (Binary64.lit 0.15)))
            (Binary64.mul (AIHousekeeper._scoreContradictions a) (Binary64.lit 0.10)))
            (Binary64.mul (AIHousekeeper._scoreContextAlignment a question)
               (Binary64.lit 0.10)))
            (Binary64.mul (AIHousekeeper._scoreSpecificity a) (Binary64.lit 0.08)))
            (Binary64.mul (AIHousekeeper._scoreEvidence a) (Binary64.lit 0.05))).
Proof.
  assert (Hret : forall s n c cs,
    exists pre a post,
      c :: cs = pre ++ a :: post /\
      (forall p, In p pre ->
         (AIHousekeeper.overall (AIHousekeeper._scoreAnswer p question) <
          AIHousekeeper.overall (AIHousekeeper._scoreAnswer a question))%Q) /\
      (forall p, In p post ->
         (AIHousekeeper.overall (AIHousekeeper._scoreAnswer p question) <=
          AIHousekeeper.overall (AIHousekeeper._scoreAnswer a question))%Q) /\
      fst (AIHousekeeper.filterAnswers s n (AIHousekeeper.array (c :: cs)) question) =
        Return (AIHousekeeper.mkResult a
                  (AIHousekeeper._scoreAnswer a question)
                  (AIHousekeeper.overall (AIHousekeeper._scoreAnswer a question)))).
  { intros s n c cs.
    destruct (sort_head_first_maximum question c cs)
      as (pre & a & post & rest & Hl & Hpre & Hpost & Hs & _).
    exists pre, a, post. repeat split; try assumption.
    unfold AIHousekeeper.filterAnswers. rewrite Hs. reflexivity. }
  repeat split.
  - destruct candidates as [|[|c cs]]; auto.
    destruct (Hret self now c cs) as (? & ? & ? & _ & _ & _ & E).
    rewrite E. discriminate.
  - intros [-> | ->]; reflexivity.
  - destruct candidates as [|[|c cs]]; auto.
    destruct (Hret self now c cs) as (? & ? & ? & _ & _ & _ & E).
    rewrite E. discriminate.
  - intros [-> | ->]; reflexivity.
  - intros c cs. apply Hret.
  - intros [|[|c cs]] self' now'; try reflexivity.
    destruct (Hret self now c cs) as (pre & a & post & Hl & Hpre & Hpost & E).
    destruct (sort_head_first_maximum question c cs)
      as (pre' & a' & post' & rest & Hl' & Hpre' & Hpost' & Hs & _).
    unfold AIHousekeeper.filterAnswers. rewrite Hs. reflexivity.
Qed.

(** ** JSON, the vault

    From here on the names of the JSON and vault modules are used
    unqualified. *)

Import JSON JSONFacts StateVault VaultScenario VaultInvariant.
Local Open Scope string_scope.

Ltac by_cases c := destruct c as [[] [] [] [] [] [] [] []]; try discriminate; try reflexivity.

Lemma parse_escape_char (c : ascii) (acc : list ascii) (t : string) :
  parse_string_body Plain acc (escape_char c ++ t) = parse_string_body Plain (c :: acc) t.
Proof. destruct c as [[] [] [] [] [] [] [] []]; reflexivity. Qed.

Lemma string_of_list_ascii_app (a b : list ascii) :
  string_of_list_ascii (a ++ b) = string_of_list_ascii a ++ string_of_list_ascii b.
Proof. induction a; simpl; congruence. Qed.

Lemma append_assoc (a b c : string) : (a ++ b) ++ c = a ++ (b ++ c).
Proof. induction a; simpl; congruence. Qed.

Lemma parse_escape (s : string) (acc : list ascii) (rest : string) :
  parse_string_body Plain acc (escape s ++ String quote_char rest) =
  Some (string_of_list_ascii (rev acc) ++ s, rest).
Proof.
  revert acc. induction s as [|c s IH]; intros acc.
  - simpl. f_equal. f_equal. induction (string_of_list_ascii (rev acc)); simpl; congruence.
  - simpl escape. rewrite append_assoc, parse_escape_char, IH. simpl.
    rewrite string_of_list_ascii_app. simpl. rewrite append_assoc. reflexivity.
Qed.

Lemma parse_quote (s rest : string) :
  parse_string_body Plain [] (escape s ++ String quote_char rest) = Some (s, rest).
Proof. rewrite parse_escape. reflexivity. Qed.

Section ValueInduction.
Variable P : value -> Prop.
Hypothesis Hnull : P JNull.
Hypothesis Hbool : forall b, P (JBool b).
Hypothesis Hnum : forall n, P (JNum n).
Hypothesis Hstr : forall s, P (JStr s).
Hypothesis Harr : forall l, Forall P l -> P (JArr l).
Hypothesis Hobj : forall m, Forall (fun kv => P (snd kv)) m -> P (JObj m).

Fixpoint value_induction (v : value) : P v :=
  match v with
  | JNull => Hnull
  | JBool b => Hbool b
  | JNum n => Hnum n
  | JStr s => Hstr s
  | JArr l =>
      Harr l
        ((fix go (l : list value) : Forall P l :=
            match l with
            | [] => Forall_nil P
            | x :: l' => Forall_cons x (value_induction x) (go l')
            end) l)
  | JObj m =>
      Hobj m
        ((fix go (m : list (string * value)) : Forall (fun kv => P (snd kv)) m :=
            match m with
            | [] => Forall_nil _
            | kv :: m' =>
                Forall_cons (P := fun kv => P (snd kv)) kv
                  (value_induction (snd kv)) (go m')
            end) m)
  end.
End ValueInduction.

Lemma span_digits_uint (u : Decimal.uint) (rest : string) :
  no_digit_head rest = true ->
  span_digits (DecimalString.NilEmpty.string_of_uint u ++ rest) =
  (DecimalString.NilEmpty.string_of_uint u, rest).
Proof.
  intros Hr. induction u; simpl;
    try (change (is_digit _) with true; cbv iota; rewrite IHu; reflexivity).
  destruct rest as [|c rest]; [reflexivity|]. simpl in *.
  apply negb_true_iff in Hr. rewrite Hr. reflexivity.
Qed.

Lemma to_uint_normal (n : N) : Decimal.unorm (N.to_uint n) = N.to_uint n.
Proof.
  pose proof (DecimalN.Unsigned.to_of (N.to_uint n)) as H.
  rewrite DecimalN.Unsigned.of_to in H. symmetry. exact H.
Qed.

Lemma uint_beq_refl (u : Decimal.uint) : Decimal.uint_beq u u = true.
Proof. induction u; simpl; auto. Qed.

Lemma string_of_N_head (n : N) :
  exists c s, string_of_N n = String c s /\ is_digit c = true.
Proof.
  unfold string_of_N.
  pose proof (to_uint_normal n) as H.
  destruct (N.to_uint n) eqn:E; simpl; eauto.
  exfalso. revert H. apply DecimalFacts.unorm_nonnil.
Qed.

Lemma parse_unsigned_string_of_N (n : N) (rest : string) :
  no_digit_head rest = true ->
  parse_unsigned (string_of_N n ++ rest) = Some (n, rest).
Proof.
  intros Hr. unfold parse_unsigned.
  destruct (string_of_N_head n) as (c & s & E & _).
  unfold string_of_N in *. rewrite span_digits_uint by exact Hr.
  rewrite E. rewrite <- E. rewrite DecimalString.NilEmpty.usu.
  rewrite to_uint_normal, uint_beq_refl, DecimalN.Unsigned.of_to. reflexivity.
Qed.

Lemma digit_not_minus (c : ascii) : is_digit c = true -> Ascii.eqb c "-" = false.
Proof. by_cases c. Qed.

Lemma parse_number_string_of_Z (z : Z) (rest : string) :
  no_digit_head rest = true ->
  parse_number (string_of_Z z ++ rest) = Some (JNum z, rest).
Proof.
  intros Hr. unfold string_of_Z.
  destruct (z <? 0)%Z eqn:E.
  - simpl. rewrite parse_unsigned_string_of_N by exact Hr.
    do 2 f_equal. f_equal. rewrite N2Z.inj_abs_N. apply Z.ltb_lt in E. lia.
  - destruct (string_of_N_head (Z.to_N z)) as (c & s & Hs & Hc).
    pose proof (parse_unsigned_string_of_N (Z.to_N z) rest Hr) as Hp.
    rewrite Hs in *. simpl append in *. unfold parse_number.
    assert (Hm : Ascii.eqb c "-" = false) by (apply digit_not_minus; exact Hc).
    destruct c as [[] [] [] [] [] [] [] []]; try discriminate Hm;
      rewrite Hp; do 2 f_equal; f_equal; apply Z.ltb_ge in E; lia.
Qed.

Lemma string_of_Z_head (z : Z) :
  exists c s, string_of_Z z = String c s /\ (is_digit c || Ascii.eqb c "-") = true.
Proof.
  unfold string_of_Z. destruct (z <? 0)%Z.
  - eauto.
  - destruct (string_of_N_head (Z.to_N z)) as (c & s & E & H).
    exists c, s. rewrite H. auto.
Qed.

Lemma stringify_head (v : value) :
  exists c s, stringify v = String c s /\ value_start c = true.
Proof.
  destruct v as [|[]|n|s|l|m];
    try (do 2 eexists; split; [reflexivity | reflexivity]).
  destruct (string_of_Z_head n) as (c & s & E & H). simpl.
  exists c, s. split; [exact E|]. unfold value_start.
  apply orb_true_iff in H. destruct H as [-> | ->]; [reflexivity|].
  rewrite orb_true_r. reflexivity.
Qed.

Lemma skip_ws_value_start (c : ascii) (s : string) :
  value_start c = true -> skip_ws (String c s) = String c s.
Proof. intros H. simpl. replace (is_ws c) with false; [reflexivity|]. by_cases c. Qed.

Lemma parse_value_number (fuel : nat) (c : ascii) (s : string) :
  (is_digit c || Ascii.eqb c "-") = true ->
  parse_value (S fuel) (String c s) = parse_number (String c s).
Proof. intros H. by_cases c. Qed.

Lemma not_close_bracket (c : ascii) (s : string) :
  value_start c = true ->
  match skip_ws (String c s) with
  | String "]" _ => False
  | _ => True
  end.
Proof. intros H. by_cases c; exact I. Qed.

Lemma skip_ws_char (c : ascii) (s : string) :
  is_ws c = false -> skip_ws (String c s) = String c s.
Proof. intros H. simpl. rewrite H. reflexivity. Qed.

Lemma parse_elements_text (l : list value) :
  Forall round_trips l -> l <> [] ->
  forall fuel rest,
    list_sum (map (fun x => S (size x)) l) <= fuel ->
    parse_elements fuel (elements_text l ++ String "]" rest) = Some (l, rest).
Proof.
  induction 1 as [|x l Hx Hl IH]; [congruence|]. intros _ fuel rest Hfuel.
  destruct fuel as [|fuel]; [simpl in Hfuel; lia|].
  simpl in Hfuel. unfold elements_text in *.
  destruct l as [|y l].
  - simpl join. cbn [parse_elements].
    rewrite Hx by (simpl; auto; lia).
    rewrite skip_ws_char by reflexivity. reflexivity.
  - change (join "," (map stringify (x :: y :: l)))
      with (stringify x ++ "," ++ join "," (map stringify (y :: l))).
    rewrite !append_assoc. cbn [parse_elements].
    rewrite Hx by (simpl in *; auto; lia).
    cbn [append]. rewrite skip_ws_char by reflexivity.
    rewrite IH by (simpl in *; try congruence; lia). reflexivity.
Qed.

Lemma set_member_fresh (k : string) (v : value) (acc : list (string * value)) :
  existsb (String.eqb k) (map fst acc) = false ->
  set_member k v acc = (acc ++ [(k, v)])%list.
Proof.
  induction acc as [|[k' w] acc IH]; simpl; [reflexivity|].
  intros H. apply orb_false_iff in H. destruct H as [H1 H2].
  rewrite String.eqb_sym, H1, IH by exact H2. reflexivity.
Qed.

Lemma existsb_app_false {A} (f : A -> bool) (a b : list A) :
  existsb f (a ++ b)%list = false <-> existsb f a = false /\ existsb f b = false.
Proof. rewrite existsb_app, orb_false_iff. reflexivity. Qed.

Lemma distinct_app_cons (a : list string) (k : string) (b : list string) :
  distinct (a ++ k :: b)%list = true ->
  existsb (String.eqb k) a = false /\ distinct ((a ++ [k]) ++ b)%list = true.
Proof.
  induction a as [|x a IH]; simpl.
  - intros H. split; [reflexivity | exact H].
  - intros H. apply andb_true_iff in H. destruct H as [H1 H2].
    destruct (IH H2) as [H3 H4]. apply negb_true_iff in H1.
    apply existsb_app_false in H1. destruct H1 as [H5 H6]. simpl in H6.
    apply orb_false_iff in H6. destruct H6 as [H6 H7].
    split.
    + rewrite String.eqb_sym, H6, H3. reflexivity.
    + rewrite H4, andb_true_r. apply negb_true_iff.
      rewrite <- app_assoc. simpl. apply existsb_app_false. split; [exact H5|].
      simpl. rewrite H6, H7. reflexivity.
Qed.

Lemma parse_members_text (m : list (string * value)) :
  Forall (fun kv => round_trips (snd kv)) m -> m <> [] ->
  forall fuel acc rest,
    distinct (map fst (acc ++ m)%list) = true ->
    list_sum (map (fun kv => S (size (snd kv))) m) <= fuel ->
    parse_members fuel acc (members_text m ++ String "}" rest) = Some ((acc ++ m)%list, rest).
Proof.
  induction 1 as [|[k v] m Hv Hm IH]; [congruence|]. intros _ fuel acc rest Hd Hfuel.
  destruct fuel as [|fuel]; [simpl in Hfuel; lia|].
  simpl in Hfuel, Hv. unfold members_text in *.
  rewrite map_app in Hd. simpl in Hd. apply distinct_app_cons in Hd.
  destruct Hd as [Hk Hd].
  assert (Hset : set_member k v acc = (acc ++ [(k, v)])%list)
    by (apply set_member_fresh; exact Hk).
  destruct m as [|kv m].
  - simpl join. unfold member_text, quote. simpl fst. simpl snd.
    cbn [append]. rewrite !append_assoc. cbn [append].
    cbn [parse_members]. rewrite skip_ws_char by reflexivity.
    change (Ascii.eqb quote_char quote_char) with true. cbv iota.
    rewrite parse_quote. rewrite skip_ws_char by reflexivity.
    rewrite Hv by (simpl; auto; lia).
    rewrite skip_ws_char by reflexivity. rewrite Hset. reflexivity.
  - change (join "," (map member_text ((k, v) :: kv :: m)))
      with (member_text (k, v) ++ "," ++ join "," (map member_text (kv :: m))).
    unfold member_text at 1, quote. simpl fst. simpl snd.
    cbn [append]. rewrite !append_assoc. cbn [append].
    cbn [parse_members]. rewrite skip_ws_char by reflexivity.
    change (Ascii.eqb quote_char quote_char) with true. cbv iota.
    rewrite parse_quote. rewrite skip_ws_char by reflexivity.
    rewrite Hv by (simpl; auto; lia).
    rewrite skip_ws_char by reflexivity. rewrite Hset.
    rewrite IH; try congruence; try lia.
    + rewrite <- app_assoc. reflexivity.
    + rewrite map_app, map_app in *. simpl in *. exact Hd.
Qed.

Lemma forallb_Forall_imp {A} (f : A -> bool) (P : A -> Prop) (l : list A) :
  Forall (fun x => f x = true -> P x) l -> forallb f l = true -> Forall P l.
Proof.
  induction 1 as [|x l Hx Hl IH]; simpl; [constructor|].
  intros H. apply andb_true_iff in H. destruct H. constructor; auto.
Qed.

(** Printing a well-formed value and reading it back, with any
    continuation that does not prolong a number. *)
Lemma parse_value_stringify (v : value) :
  well_formed v = true -> round_trips v.
Proof.
  induction v as [|b|n|s|l IH|m IH] using value_induction;
    intros Hwf fuel rest Hfuel Hrest;
    (destruct fuel as [|fuel]; [simpl in Hfuel; lia|]).
  - reflexivity.
  - destruct b; reflexivity.
  - destruct (string_of_Z_head n) as (c & s & E & H).
    pose proof (parse_number_string_of_Z n rest Hrest) as Hp.
    simpl stringify. rewrite E in *. cbn [append] in *.
    rewrite parse_value_number by exact H. exact Hp.
  - simpl stringify. unfold quote. cbn [append]. rewrite append_assoc. cbn [append].
    cbn [parse_value]. rewrite skip_ws_char by reflexivity.
    change (Ascii.eqb quote_char "n") with false.
    change (Ascii.eqb quote_char "t") with false.
    change (Ascii.eqb quote_char "f") with false.
    change (Ascii.eqb quote_char quote_char) with true. cbv iota.
    rewrite parse_quote. reflexivity.
  - simpl in Hwf. pose proof (forallb_Forall_imp _ _ _ IH Hwf) as Hall.
    destruct l as [|x l]; [reflexivity|].
    change (stringify (JArr (x :: l)))
      with (String "[" (elements_text (x :: l) ++ "]")).
    cbn [append]. rewrite append_assoc. cbn [append].
    cbn [parse_value]. rewrite skip_ws_char by reflexivity.
    change (Ascii.eqb "[" "n") with false. change (Ascii.eqb "[" "t") with false.
    change (Ascii.eqb "[" "f") with false. change (Ascii.eqb "[" quote_char) with false.
    change (Ascii.eqb "[" "[") with true. cbv iota.
    rewrite parse_elements_text; [| exact Hall | congruence | simpl in *; lia].
    assert (Hopen : match skip_ws (elements_text (x :: l) ++ String "]" rest) with
                    | String "]" _ => False
                    | _ => True
                    end).
    { unfold elements_text. destruct (stringify_head x) as (c & s & E & Hc).
      destruct l as [|y l]; simpl join; rewrite E; rewrite ?append_assoc; cbn [append];
        apply not_close_bracket; exact Hc. }
    destruct (skip_ws (elements_text (x :: l) ++ String "]" rest)) as [|c s];
      [reflexivity|].
    destruct c as [[] [] [] [] [] [] [] []]; try reflexivity. contradiction.
  - simpl in Hwf. apply andb_true_iff in Hwf. destruct Hwf as [Hd Hwf].
    assert (Hall : Forall (fun kv => round_trips (snd kv)) m).
    { clear - IH Hwf. induction IH as [|kv m Hx Hl IHm]; [constructor|].
      simpl in Hwf. apply andb_true_iff in Hwf. destruct Hwf. constructor; auto. }
    destruct m as [|kv m]; [reflexivity|].
    change (stringify (JObj (kv :: m)))
      with (String "{" (members_text (kv :: m) ++ "}")).
    cbn [append]. rewrite append_assoc. cbn [append].
    cbn [parse_value]. rewrite skip_ws_char by reflexivity.
    change (Ascii.eqb "{" "n") with false. change (Ascii.eqb "{" "t") with false.
    change (Ascii.eqb "{" "f") with false. change (Ascii.eqb "{" quote_char) with false.
    change (Ascii.eqb "{" "[") with false. change (Ascii.eqb "{" "{") with true.
    cbv iota.
    rewrite (parse_members_text (kv :: m) Hall);
      [| congruence | exact Hd | simpl in *; lia].
    assert (Hopen : exists s, skip_ws (members_text (kv :: m) ++ String "}" rest)
                              = String quote_char s).
    { unfold members_text. destruct m as [|kv' m]; simpl join;
        unfold member_text at 1, quote; cbn [append]; eexists;
        apply skip_ws_char; reflexivity. }
    destruct Hopen as [s ->]. reflexivity.
Qed.

Lemma length_append (a b : string) :
  String.length (a ++ b) = String.length a + String.length b.
Proof. induction a; simpl; congruence. Qed.

Lemma join_length (l : list string) :
  list_sum (map (fun x => S (String.length x)) l) <= S (String.length (join "," l)).
Proof.
  induction l as [|x l IH]; [simpl; lia|].
  destruct l as [|y l]; [simpl; lia|].
  change (join "," (x :: y :: l)) with (x ++ "," ++ join "," (y :: l)).
  rewrite !length_append.
  change (String.length ",") with 1.
  change (list_sum (map (fun x => S (String.length x)) (x :: y :: l)))
    with (S (String.length x) +
          list_sum (map (fun x => S (String.length x)) (y :: l))).
  lia.
Qed.

Lemma list_sum_le {A} (f g : A -> nat) (l : list A) :
  Forall (fun x => f x <= g x) l ->
  list_sum (map f l) <= list_sum (map g l).
Proof. induction 1; simpl; lia. Qed.

Lemma size_le_length (v : value) : size v <= String.length (stringify v).
Proof.
  induction v as [|b|n|s|l IH|m IH] using value_induction.
  - simpl. lia.
  - destruct b; simpl; lia.
  - destruct (string_of_Z_head n) as (c & s & E & _). simpl. rewrite E. simpl. lia.
  - simpl. lia.
  - change (stringify (JArr l)) with ("[" ++ elements_text l ++ "]").
    rewrite !length_append. change (String.length "[") with 1.
    change (String.length "]") with 1. unfold elements_text. simpl size.
    pose proof (join_length (map stringify l)) as Hj. rewrite map_map in Hj.
    assert (Hs : list_sum (map (fun x => S (size x)) l) <=
                 list_sum (map (fun x => S (String.length (stringify x))) l)).
    { apply list_sum_le. eapply Forall_impl; [|exact IH]. simpl. intros. lia. }
    lia.
  - change (stringify (JObj m)) with ("{" ++ members_text m ++ "}").
    rewrite !length_append. change (String.length "{") with 1.
    change (String.length "}") with 1. unfold members_text. simpl size.
    pose proof (join_length (map member_text m)) as Hj. rewrite map_map in Hj.
    assert (Hs : list_sum (map (fun kv => S (size (snd kv))) m) <=
                 list_sum (map (fun kv => S (String.length (member_text kv))) m)).
    { apply list_sum_le. eapply Forall_impl; [|exact IH]. simpl. intros kv H.
      unfold member_text. rewrite !length_append. simpl String.length. lia. }
    lia.
Qed.

Lemma append_empty (s : string) : s ++ "" = s.
Proof. induction s; simpl; congruence. Qed.

(** [JSON.parse(JSON.stringify(v))] is [v]. *)
Lemma parse_stringify (v : value) :
  well_formed v = true -> parse (stringify v) = Some v.
Proof.
  intros Hwf. unfold parse.
  rewrite <- (append_empty (stringify v)) at 2.
  rewrite (parse_value_stringify v Hwf); [reflexivity | | reflexivity].
  pose proof (size_le_length v). lia.
Qed.

Example parse_stringify_research_context :
  JSON.parse (stringify research_context) = Some research_context.
Proof. vm_compute. reflexivity. Qed.

(** *** Order of file names *)

Lemma ascii_compare_refl (a : ascii) : Ascii.compare a a = Eq.
Proof. unfold Ascii.compare. apply N.compare_refl. Qed.

Lemma string_compare_trans (c : comparison) (a b d : string) :
  String.compare a b = c -> String.compare b d = c -> String.compare a d = c.
Proof.
  revert b d. induction a as [|x a IH]; intros [|y b] [|z d]; simpl;
    try congruence.
  unfold Ascii.compare.
  destruct (N.compare_spec (N_of_ascii x) (N_of_ascii y)) as [Exy | Lxy | Gxy];
  destruct (N.compare_spec (N_of_ascii y) (N_of_ascii z)) as [Eyz | Lyz | Gyz];
  destruct (N.compare_spec (N_of_ascii x) (N_of_ascii z)) as [Exz | Lxz | Gxz];
    try congruence; try lia; try (intros <- ?; congruence); try (intros ? <-; congruence).
  apply IH.
Qed.

Lemma leb_ltb_false (a b : string) : String.leb a b = negb (String.ltb b a).
Proof.
  unfold String.leb, String.ltb. rewrite (String.compare_antisym a b).
  destruct (String.compare b a); reflexivity.
Qed.

Lemma ltb_trans (a b c : string) :
  String.ltb a b = true -> String.ltb b c = true -> String.ltb a c = true.
Proof.
  unfold String.ltb. intros H1 H2.
  destruct (String.compare a b) eqn:E1; try discriminate.
  destruct (String.compare b c) eqn:E2; try discriminate.
  rewrite (string_compare_trans Lt a b c E1 E2). reflexivity.
Qed.

Lemma ltb_leb (a b : string) : String.ltb a b = true -> String.leb a b = true.
Proof. unfold String.ltb, String.leb. destruct (String.compare a b); congruence. Qed.

Lemma ltb_irrefl (a : string) : String.ltb a a = false.
Proof.
  unfold String.ltb.
  assert (H : String.compare a a = Eq).
  { induction a as [|x a IH]; simpl; [reflexivity|].
    rewrite ascii_compare_refl. exact IH. }
  rewrite H. reflexivity.
Qed.

(** *** Sorting names *)

Lemma insert_name_permutation (x : string) (l : list string) :
  Permutation (StateVault.insert_name x l) (x :: l).
Proof.
  induction l as [|y l IH]; simpl; [apply Permutation_refl|].
  destruct (String.leb x y); [apply Permutation_refl|].
  eapply perm_trans; [apply perm_skip, IH | apply perm_swap].
Qed.

Lemma sort_names_permutation (l : list string) :
  Permutation (StateVault.sort_names l) l.
Proof.
  induction l as [|x l IH]; simpl; [constructor|].
  eapply perm_trans; [apply insert_name_permutation | apply perm_skip, IH].
Qed.

(** Inserting a name above a strictly increasing list puts it last. *)
Lemma insert_name_last (x : string) (l : list string) :
  Forall (fun y => name_lt y x) l ->
  StateVault.insert_name x l = (l ++ [x])%list.
Proof.
  induction 1 as [|y l Hy Hl IH]; simpl; [reflexivity|].
  rewrite leb_ltb_false, Hy. simpl. rewrite IH. reflexivity.
Qed.

(** Inserting a name into a strictly increasing list that does not
    hold it, whatever the order of the two insertions. *)
Lemma insert_name_sorted (x : string) (l : list string) :
  StronglySorted name_lt l -> ~ In x l ->
  StronglySorted name_lt (StateVault.insert_name x l).
Proof.
  induction 1 as [|y l Hs IH Hy]; intros Hx; simpl.
  - constructor; constructor.
  - destruct (String.leb x y) eqn:E.
    + assert (Hxy : name_lt x y).
      { unfold name_lt, String.ltb. unfold String.leb in E.
        destruct (String.compare x y) eqn:C; try reflexivity; try discriminate.
        apply String.compare_eq_iff in C. subst. exfalso. apply Hx. left. reflexivity. }
      constructor; [constructor; assumption|].
      constructor; [exact Hxy|].
      eapply Forall_impl; [|exact Hy]. intros z Hz. eapply ltb_trans; eassumption.
    + assert (Hyx : name_lt y x).
      { rewrite leb_ltb_false in E. apply negb_false_iff in E. exact E. }
      constructor.
      * apply IH. intros Hin. apply Hx. right. exact Hin.
      * eapply Permutation_Forall.
        -- apply Permutation_sym, insert_name_permutation.
        -- constructor; assumption.
Qed.

(** A strictly increasing list is its own sorting, and so is every
    rearrangement of it. *)
Lemma sorted_unique (l l' : list string) :
  StronglySorted name_lt l -> StronglySorted name_lt l' ->
  Permutation l l' -> l = l'.
Proof.
  intros Hl. revert l'. induction Hl as [|x l Hs IH Hx]; intros l' Hl' Hp.
  - apply Permutation_nil in Hp. congruence.
  - destruct Hl' as [|y l' Hs' Hy].
    + apply Permutation_sym, Permutation_nil in Hp. discriminate.
    + assert (Exy : x = y).
      { assert (Hin1 : In x (y :: l')) by (eapply Permutation_in; [exact Hp | left; reflexivity]).
        assert (Hin2 : In y (x :: l))
          by (eapply Permutation_in; [apply Permutation_sym; exact Hp | left; reflexivity]).
        destruct Hin1 as [-> | Hin1]; [reflexivity|].
        destruct Hin2 as [-> | Hin2]; [reflexivity|].
        rewrite Forall_forall in Hx, Hy.
        pose proof (Hx _ Hin2) as H1. pose proof (Hy _ Hin1) as H2.
        pose proof (ltb_trans _ _ _ H1 H2) as H3.
        unfold name_lt in H3. rewrite ltb_irrefl in H3. discriminate. }
      subst y. f_equal. apply IH; [exact Hs'|].
      eapply Permutation_cons_inv. exact Hp.
Qed.

Lemma strongly_sorted_nodup (l : list string) :
  StronglySorted name_lt l -> NoDup l.
Proof.
  induction 1 as [|x l Hs IH Hx]; constructor; [|exact IH].
  intros Hin. rewrite Forall_forall in Hx. specialize (Hx _ Hin).
  unfold name_lt in Hx. rewrite ltb_irrefl in Hx. discriminate.
Qed.

Lemma sort_names_sorted (l : list string) :
  NoDup l -> StronglySorted name_lt (StateVault.sort_names l).
Proof.
  induction 1 as [|x l Hx Hn IH]; simpl; [constructor|].
  apply insert_name_sorted; [exact IH|].
  intros Hin. apply Hx. eapply Permutation_in; [apply sort_names_permutation | exact Hin].
Qed.

(** Sorting any rearrangement of a strictly increasing list gives that
    list. *)
Lemma sort_names_of_permutation (l chain : list string) :
  StronglySorted name_lt chain -> Permutation l chain ->
  StateVault.sort_names l = chain.
Proof.
  intros Hc Hp. apply sorted_unique; [|exact Hc|].
  - apply sort_names_sorted. eapply Permutation_NoDup.
    + apply Permutation_sym. exact Hp.
    + apply strongly_sorted_nodup. exact Hc.
  - eapply perm_trans; [apply sort_names_permutation | exact Hp].
Qed.

(** *** Lists *)

Lemma permutation_filter {A : Type} (f : A -> bool) (l l' : list A) :
  Permutation l l' -> Permutation (filter f l) (filter f l').
Proof.
  induction 1 as [| x l l' H IH | x y l | l l' l'' H1 IH1 H2 IH2]; simpl.
  - constructor.
  - destruct (f x); [apply perm_skip|]; exact IH.
  - destruct (f x), (f y); try apply Permutation_refl. apply perm_swap.
  - eapply perm_trans; eassumption.
Qed.

Lemma strongly_sorted_app {A : Type} (R : A -> A -> Prop) (a b : list A) :
  StronglySorted R (a ++ b) ->
  StronglySorted R a /\ StronglySorted R b /\
  (forall x y, In x a -> In y b -> R x y).
Proof.
  induction a as [|x a IH]; simpl; intros H.
  - repeat split; [constructor | exact H | intros x y []].
  - inversion H as [|? ? Hs Hx]; subst.
    destruct (IH Hs) as (Ha & Hb & Hab).
    apply Forall_app in Hx. destruct Hx as [Hxa Hxb].
    repeat split.
    + constructor; assumption.
    + exact Hb.
    + intros u y [<- | Hu] Hy; [|auto].
      rewrite Forall_forall in Hxb. auto.
Qed.

Lemma strongly_sorted_skipn {A : Type} (R : A -> A -> Prop) (n : nat) (l : list A) :
  StronglySorted R l -> StronglySorted R (skipn n l).
Proof.
  intros H. rewrite <- (firstn_skipn n l) in H.
  apply strongly_sorted_app in H. tauto.
Qed.

Lemma keep_keep_app {A : Type} (n : nat) (l l' : list A) :
  keep n (keep n l ++ l') = keep n (l ++ l').
Proof.
  destruct (Nat.le_gt_cases (List.length l) n) as [Hle | Hgt].
  - assert (E : keep n l = l).
    { unfold keep. replace (List.length l - n) with 0 by lia. reflexivity. }
    rewrite E. reflexivity.
  - unfold keep. rewrite !length_app, length_skipn.
    rewrite !skipn_app, length_skipn, skipn_skipn.
    f_equal; f_equal; lia.
Qed.

(** *** File names *)

Lemma endsWith_append (suffix a : string) : endsWith suffix (a ++ suffix) = true.
Proof.
  unfold endsWith. induction a as [|c a IH]; simpl.
  - destruct suffix; simpl; rewrite ?Ascii.eqb_refl, ?String.eqb_refl; reflexivity.
  - rewrite IH. apply orb_true_r.
Qed.

Lemma backup_file_is_bak (timestamp : Z) : is_bak (backup_file timestamp) = true.
Proof.
  unfold is_bak, backup_file.
  rewrite <- append_assoc. apply endsWith_append.
Qed.

(** *** Directories *)

Lemma write_file_names (name content : string) (d : directory) :
  map fst (write_file name content d) =
  if existsb (String.eqb name) (map fst d) then map fst d
  else (map fst d ++ [name])%list.
Proof.
  induction d as [|[n c] d IH]; simpl; [reflexivity|].
  rewrite (String.eqb_sym name n).
  destruct (String.eqb n name) eqn:E; simpl; [reflexivity|].
  rewrite IH. destruct (existsb _ _); reflexivity.
Qed.

Lemma lookup_write_file (name content : string) (d : directory) :
  lookup_file name (write_file name content d) = Some content.
Proof.
  induction d as [|[n c] d IH]; simpl.
  - rewrite String.eqb_refl. reflexivity.
  - destruct (String.eqb n name) eqn:E; simpl; rewrite E; auto.
Qed.

Lemma remove_file_names (name : string) (d : directory) :
  map fst (remove_file name d) =
  filter (fun n => negb (String.eqb n name)) (map fst d).
Proof.
  induction d as [|[n c] d IH]; simpl; [reflexivity|].
  destruct (String.eqb n name); simpl; rewrite IH; reflexivity.
Qed.

Lemma lookup_remove_file (name other : string) (d : directory) :
  other <> name ->
  lookup_file name (remove_file other d) = lookup_file name d.
Proof.
  intros Hne. induction d as [|[n c] d IH]; simpl; [reflexivity|].
  destruct (String.eqb n other) eqn:E; simpl.
  - apply String.eqb_eq in E. subst n.
    destruct (String.eqb other name) eqn:E2; [|exact IH].
    apply String.eqb_eq in E2. contradiction.
  - rewrite IH. reflexivity.
Qed.

Lemma filter_filter_comm {A : Type} (f g : A -> bool) (l : list A) :
  filter f (filter g l) = filter g (filter f l).
Proof.
  induction l as [|x l IH]; simpl; [reflexivity|].
  destruct (f x) eqn:Ef, (g x) eqn:Eg; simpl; rewrite ?Ef, ?Eg, IH; reflexivity.
Qed.

Lemma filter_remove_head (x : string) (l : list string) :
  ~ In x l -> filter (fun n => negb (String.eqb n x)) (x :: l) = l.
Proof.
  intros Hx. simpl. rewrite String.eqb_refl. simpl.
  induction l as [|y l IH]; simpl; [reflexivity|].
  destruct (String.eqb y x) eqn:E.
  - apply String.eqb_eq in E. subst. exfalso. apply Hx. left. reflexivity.
  - simpl. rewrite IH; [reflexivity|]. intros H. apply Hx. right. exact H.
Qed.

(** The loop of [_cleanOldBackups], run on the snapshot names in
    increasing order, leaves the last [maxBackups] of them. *)
Lemma clean_loop_keeps_last (n : nat) (names : list string) (d : directory) :
  StronglySorted name_lt names ->
  Permutation (filter is_bak (map fst d)) names ->
  Permutation (filter is_bak (map fst (clean_loop n names d))) (keep n names).
Proof.
  intros Hs. revert d. unfold keep.
  induction Hs as [|x names Hs IH Hx]; intros d Hp; [exact Hp|].
  cbn [clean_loop].
  destruct (n <? List.length (x :: names))%nat eqn:E.
  - apply Nat.ltb_lt in E. simpl in E.
    replace (List.length (x :: names) - n) with (S (List.length names - n))
      by (cbn [List.length]; lia).
    cbn [skipn]. apply IH.
    rewrite remove_file_names, filter_filter_comm.
    rewrite <- (filter_remove_head x names).
    + apply permutation_filter. exact Hp.
    + intros Hin. rewrite Forall_forall in Hx. specialize (Hx _ Hin).
      unfold name_lt in Hx. rewrite ltb_irrefl in Hx. discriminate.
  - apply Nat.ltb_ge in E.
    replace (List.length (x :: names) - n) with 0 by lia. exact Hp.
Qed.

(** A file whose name is among the names kept survives the loop. *)
Lemma clean_loop_lookup (n : nat) (names : list string) (d : directory) (name : string) :
  NoDup names -> In name (keep n names) ->
  lookup_file name (clean_loop n names d) = lookup_file name d.
Proof.
  unfold keep. intros Hn. revert d.
  induction Hn as [|x names Hx Hn IH]; intros d Hin; [reflexivity|].
  cbn [clean_loop].
  destruct (n <? List.length (x :: names))%nat eqn:E; [|reflexivity].
  apply Nat.ltb_lt in E. simpl in E.
  replace (List.length (x :: names) - n) with (S (List.length names - n)) in Hin
    by (cbn [List.length]; lia).
  cbn [skipn] in Hin. rewrite IH by exact Hin.
  apply lookup_remove_file. intros ->. apply Hx.
  rewrite <- (firstn_skipn (List.length names - n) names).
  apply in_or_app. right. exact Hin.
Qed.

Lemma write_file_nodup (name content : string) (d : directory) :
  NoDup (map fst d) -> NoDup (map fst (write_file name content d)).
Proof.
  intros H. rewrite write_file_names.
  destruct (existsb (String.eqb name) (map fst d)) eqn:E; [exact H|].
  apply NoDup_app; [exact H | repeat constructor; intros [] |].
  intros x Hx [Ex | []]. subst x.
  assert (Hc : existsb (String.eqb name) (map fst d) = true).
  { apply existsb_exists. exists name. split; [exact Hx | apply String.eqb_refl]. }
  congruence.
Qed.

Lemma clean_loop_nodup (n : nat) (names : list string) (d : directory) :
  NoDup (map fst d) -> NoDup (map fst (clean_loop n names d)).
Proof.
  revert d. induction names as [|x names IH]; intros d H; [exact H|].
  cbn [clean_loop]. destruct (n <? _)%nat; [|exact H].
  apply IH. rewrite remove_file_names. apply NoDup_filter. exact H.
Qed.

(** *** Decimal numerals of equal length order as their numbers *)

Lemma of_uint_acc_value (d : Decimal.uint) (acc : positive) :
  N.pos (Pos.of_uint_acc d acc) =
  (N.pos acc * 10 ^ N.of_nat (Decimal.nb_digits d) + Pos.of_uint d)%N.
Proof.
  revert acc. induction d; intros acc;
    cbn [Pos.of_uint_acc Pos.of_uint Decimal.nb_digits];
    rewrite ?Nat2N.inj_succ, ?N.pow_succ_r', ?IHd; try (simpl; lia).
  all: try (rewrite (IHd 1%positive) || rewrite (IHd 2%positive) ||
            rewrite (IHd 3%positive) || rewrite (IHd 4%positive) ||
            rewrite (IHd 5%positive) || rewrite (IHd 6%positive) ||
            rewrite (IHd 7%positive) || rewrite (IHd 8%positive) ||
            rewrite (IHd 9%positive)); lia.
Qed.

Lemma of_uint_head (d : Decimal.uint) :
  Pos.of_uint d =
  (digit_value d * 10 ^ N.of_nat (Decimal.nb_digits (digits_tail d)) +
   Pos.of_uint (digits_tail d))%N.
Proof.
  destruct d; cbn [Pos.of_uint digit_value digits_tail];
    rewrite ?of_uint_acc_value; lia.
Qed.

Lemma of_uint_bound (d : Decimal.uint) :
  (Pos.of_uint d < 10 ^ N.of_nat (Decimal.nb_digits d))%N.
Proof.
  induction d; rewrite of_uint_head;
    cbn [Decimal.nb_digits digit_value digits_tail];
    rewrite ?Nat2N.inj_succ, ?N.pow_succ_r'; try lia.
  simpl. lia.
Qed.

Lemma string_of_uint_length (d : Decimal.uint) :
  String.length (DecimalString.NilEmpty.string_of_uint d) = Decimal.nb_digits d.
Proof. induction d; simpl; congruence. Qed.

(** Numerals of the same length compare as the numbers they denote. *)
Lemma compare_numerals (d1 d2 : Decimal.uint) (s1 s2 : string) :
  Decimal.nb_digits d1 = Decimal.nb_digits d2 ->
  (Pos.of_uint d1 < Pos.of_uint d2)%N ->
  String.compare (DecimalString.NilEmpty.string_of_uint d1 ++ s1)
                 (DecimalString.NilEmpty.string_of_uint d2 ++ s2) = Lt.
Proof.
  revert d2. induction d1; intros d2 Hn Hlt;
    (destruct d2; try discriminate Hn);
    try (exfalso; revert Hlt; apply N.lt_irrefl);
    cbn [Pos.of_uint] in Hlt; rewrite ?of_uint_acc_value in Hlt;
    cbn [Decimal.nb_digits] in Hn; injection Hn as Hn;
    pose proof (of_uint_bound d1) as B1; pose proof (of_uint_bound d2) as B2;
    rewrite ?Hn in Hlt; rewrite Hn in B1;
    cbn [DecimalString.NilEmpty.string_of_uint append String.compare];
    try reflexivity;
    try (change (Ascii.compare _ _) with Eq; cbv iota; apply IHd1; [exact Hn | lia]);
    try (exfalso; nia).
Qed.

Lemma compare_common_prefix (p x y : string) :
  String.compare (p ++ x) (p ++ y) = String.compare x y.
Proof.
  induction p as [|c p IH]; simpl; [reflexivity|].
  rewrite ascii_compare_refl. exact IH.
Qed.

(** Among timestamps that print with the same number of digits, a later
    timestamp gives a later file name. *)
Lemma backup_file_increasing (a b : Z) :
  (0 <= a < b)%Z ->
  String.length (string_of_Z a) = String.length (string_of_Z b) ->
  name_lt (backup_file a) (backup_file b).
Proof.
  intros Hab Hlen. unfold name_lt, String.ltb, backup_file.
  rewrite compare_common_prefix. unfold string_of_Z in *.
  replace (a <? 0)%Z with false in * by (symmetry; apply Z.ltb_ge; lia).
  replace (b <? 0)%Z with false in * by (symmetry; apply Z.ltb_ge; lia).
  unfold string_of_N in *. rewrite !string_of_uint_length in Hlen.
  rewrite compare_numerals; [reflexivity | exact Hlen |].
  change (N.of_uint (N.to_uint (Z.to_N a)) < N.of_uint (N.to_uint (Z.to_N b)))%N.
  rewrite !DecimalN.Unsigned.of_to. lia.
Qed.

Lemma backup_files_increasing (k : nat) (l : list Z) :
  StronglySorted Z.lt l -> Forall (prints_with k) l ->
  StronglySorted name_lt (map backup_file l).
Proof.
  induction 1 as [|t l Hs IH Ht]; intros Hw; simpl; [constructor|].
  inversion Hw as [|? ? [Ht0 Htk] Hw']; subst.
  constructor; [apply IH; exact Hw'|].
  rewrite Forall_map. rewrite Forall_forall in *.
  intros u Hu. destruct (Hw' u Hu) as [Hu0 Huk]. specialize (Ht u Hu).
  apply backup_file_increasing; [lia | congruence].
Qed.

Section Rotation.
Context {runtime : Runtime}.

Lemma encrypt_returns (cfg : config) (iv data : string) :
  exists s, encrypt_if_enabled cfg iv data = Return s.
Proof.
  unfold encrypt_if_enabled, _encrypt.
  destruct (encryptionEnabled cfg); [|eexists; reflexivity].
  destruct (key_valid (encryptionKey cfg)); eexists; reflexivity.
Qed.

Lemma snapshot_names_permutation (w : world) (chain : list string) :
  snapshot_names w = chain ->
  Permutation (filter is_bak (map fst (backups (storage w)))) chain.
Proof.
  intros <-. apply Permutation_sym, sort_names_permutation.
Qed.

(** What is on storage after one [backup()], when the new file name lies
    above those of the snapshot units already there. *)
Lemma backup_step (self : t) (now : Z) (iv : string) (w : world) (chain : list string) :
  memoryOnly self = false ->
  available (storage w) = true ->
  snapshot_names w = chain ->
  StronglySorted name_lt (chain ++ [backup_file now]) ->
  exists content w',
    encrypt_if_enabled (vault_config self) iv
      (stringify (JObj [ ("timestamp", JNum now);
                         ("contexts", JArr (map_values (contexts self))) ]))
      = Return content /\
    backup self now iv w = (Return (Some (JNum now)), w') /\
    available (storage w') = true /\
    files (storage w') = files (storage w) /\
    timers w' = timers w /\
    snapshot_names w' =
      keep (maxBackups (vault_config self)) (chain ++ [backup_file now]) /\
    (In (backup_file now)
        (keep (maxBackups (vault_config self)) (chain ++ [backup_file now])) ->
     lookup_file (backup_file now) (backups (storage w')) = Some content) /\
    (NoDup (map fst (backups (storage w))) ->
     NoDup (map fst (backups (storage w')))).
Proof.
  intros Hmem Hav Hchain Hsorted.
  destruct (encrypt_returns (vault_config self) iv
              (stringify (JObj [ ("timestamp", JNum now);
                                 ("contexts", JArr (map_values (contexts self))) ])))
    as [content Hc].
  set (name := backup_file now) in *.
  set (d := backups (storage w)) in *.
  set (d1 := write_file name content d).
  set (chain1 := (chain ++ [name])%list) in *.
  pose proof (snapshot_names_permutation w chain Hchain) as Hperm. fold d in Hperm.
  destruct (strongly_sorted_app _ _ _ Hsorted) as (_ & _ & Habove).
  assert (Hnew : existsb (String.eqb name) (map fst d) = false).
  { destruct (existsb (String.eqb name) (map fst d)) eqn:E; [|reflexivity].
    apply existsb_exists in E. destruct E as (n & Hin & Heq).
    apply String.eqb_eq in Heq. subst n.
    assert (Hc1 : In name chain).
    { eapply Permutation_in; [exact Hperm|].
      apply filter_In. split; [exact Hin | apply backup_file_is_bak]. }
    specialize (Habove name name Hc1 (or_introl eq_refl)).
    unfold name_lt in Habove. rewrite ltb_irrefl in Habove. discriminate. }
  assert (Hnames1 : map fst d1 = (map fst d ++ [name])%list).
  { unfold d1. rewrite write_file_names, Hnew. reflexivity. }
  assert (Hperm1 : Permutation (filter is_bak (map fst d1)) chain1).
  { rewrite Hnames1, filter_app. simpl.
    unfold name at 1. rewrite backup_file_is_bak. fold name.
    apply Permutation_app_tail. exact Hperm. }
  assert (Hlisted : sort_names (filter is_bak (readdirSync d1)) = chain1).
  { apply sort_names_of_permutation; [exact Hsorted|].
    eapply perm_trans; [|exact Hperm1].
    apply permutation_filter. apply readdir_order_permutation. }
  set (d2 := clean_loop (maxBackups (vault_config self)) chain1 d1).
  exists content, (with_backups (with_backups w d1) d2).
  split; [exact Hc|].
  split.
  { unfold backup. rewrite Hmem. cbn [bind]. rewrite Hc, Hav.
    unfold _cleanOldBackups. cbn [with_backups storage available backups].
    rewrite Hav. cbn [try_catch]. fold name. fold d. fold d1.
    rewrite Hlisted. reflexivity. }
  split; [exact Hav|]. split; [reflexivity|]. split; [reflexivity|].
  split.
  - unfold snapshot_names. cbn [with_backups storage backups].
    apply sort_names_of_permutation.
    + apply strongly_sorted_skipn. exact Hsorted.
    + apply clean_loop_keeps_last; [exact Hsorted | exact Hperm1].
  - split.
    + intros Hkept. cbn [with_backups storage backups]. unfold d2.
      rewrite clean_loop_lookup.
      * apply lookup_write_file.
      * apply strongly_sorted_nodup. exact Hsorted.
      * exact Hkept.
    + intros Hnd. cbn [with_backups storage backups].
      apply clean_loop_nodup, write_file_nodup. exact Hnd.
Qed.

Lemma backups_in_sequence_names (self : t) (calls : list (jsmap * Z * string)) :
  calls <> [] ->
  forall (w : world) (chain : list string),
  memoryOnly self = false ->
  available (storage w) = true ->
  snapshot_names w = chain ->
  StronglySorted name_lt
    (chain ++ map (fun c => backup_file (call_time c)) calls) ->
  exists w',
    backups_in_sequence self calls w =
      (map (fun c => Return (Some (JNum (call_time c)))) calls, w') /\
    snapshot_names w' =
      keep (maxBackups (vault_config self))
        (chain ++ map (fun c => backup_file (call_time c)) calls).
Proof.
  induction calls as [|[[m now] iv] calls IH]; [congruence|].
  intros _ w chain Hmem Hav Hchain Hsorted.
  cbn [map] in Hsorted. unfold call_time at 1 in Hsorted. cbn [fst snd] in Hsorted.
  assert (Hsorted1 : StronglySorted name_lt (chain ++ [backup_file now])).
  { change (backup_file now :: map (fun c => backup_file (call_time c)) calls)
      with ([backup_file now] ++ map (fun c => backup_file (call_time c)) calls)%list
      in Hsorted.
    rewrite app_assoc in Hsorted. apply strongly_sorted_app in Hsorted. tauto. }
  destruct (backup_step (with_contexts self m) now iv w chain Hmem Hav Hchain Hsorted1)
    as (content & w1 & _ & Hb & Hav1 & _ & _ & Hnames1 & _ & _).
  cbn [backups_in_sequence]. rewrite Hb.
  destruct calls as [|c calls].
  - exists w1. split; [reflexivity|]. exact Hnames1.
  - set (rest := c :: calls) in *.
    assert (Hsorted2 : StronglySorted name_lt
              (keep (maxBackups (vault_config self)) (chain ++ [backup_file now]) ++
               map (fun c => backup_file (call_time c)) rest)).
    { change (backup_file now :: map (fun c => backup_file (call_time c)) rest)
        with ([backup_file now] ++ map (fun c => backup_file (call_time c)) rest)%list
        in Hsorted.
      rewrite app_assoc in Hsorted.
      rewrite <- (firstn_skipn
        (List.length (chain ++ [backup_file now]) - maxBackups (vault_config self))
        (chain ++ [backup_file now])) in Hsorted.
      rewrite <- app_assoc in Hsorted. apply strongly_sorted_app in Hsorted.
      unfold keep. tauto. }
    destruct (IH ltac:(unfold rest; congruence) w1 _ Hmem Hav1 Hnames1 Hsorted2)
      as (w2 & Hrun & Hnames2).
    rewrite Hrun. exists w2. split; [reflexivity|].
    rewrite Hnames2, keep_keep_app, <- app_assoc. reflexivity.
Qed.

End Rotation.

Lemma transparent_unseal_seal (key iv data : string) :
  (String.length key =? 64)%nat = true ->
  transparent_unseal key (Some (JSON.JStr iv))
    (Some (JSON.JStr (snd (transparent_seal key iv data))))
    (Some (JSON.JStr (fst (transparent_seal key iv data)))) = Some data.
Proof. intros _. simpl. rewrite String.eqb_refl. reflexivity. Qed.

Definition transparent_runtime : Runtime :=
  {| key_valid := fun key => (String.length key =? 64)%nat;
     seal := transparent_seal;
     unseal := transparent_unseal;
     unseal_seal := transparent_unseal_seal;
     readdir_order := StateVault.sort_names;
     readdir_order_permutation := sort_names_permutation |}.

Section VaultFacts.
Context {runtime : Runtime}.
Import JSON JSONFacts StateVault.

Lemma envelope_round_trip (key iv data : string) :
  JSON.parse (stringify (JObj [ ("encrypted", JStr (fst (seal key iv data)));
                                ("iv", JStr iv);
                                ("authTag", JStr (snd (seal key iv data))) ])) =
  Some (JObj [ ("encrypted", JStr (fst (seal key iv data)));
               ("iv", JStr iv);
               ("authTag", JStr (snd (seal key iv data))) ]).
Proof. apply parse_stringify. reflexivity. Qed.

(** Decrypting under the key that encrypted gives the text back, whether
    the key is valid (the envelope authenticates) or not (both sides fall
    back to the text as it is). *)
Lemma decrypt_encrypt (cfg cfg' : config) (iv data : string) :
  encryptionKey cfg' = encryptionKey cfg ->
  bind (_encrypt cfg iv data) (_decrypt cfg') = Return data.
Proof.
  intros Hk. unfold _encrypt, _decrypt. rewrite Hk.
  destruct (key_valid (encryptionKey cfg)) eqn:E; cbn [try_catch bind].
  - rewrite envelope_round_trip.
    change (get "iv" (JObj _)) with (Some (JStr iv)).
    change (get "authTag" (JObj _))
      with (Some (JStr (snd (seal (encryptionKey cfg) iv data)))).
    change (get "encrypted" (JObj _))
      with (Some (JStr (fst (seal (encryptionKey cfg) iv data)))).
    rewrite (unseal_seal _ _ _ E). reflexivity.
  - destruct (JSON.parse data) as [[| | | | |]|]; reflexivity.
Qed.

Lemma decrypt_returns (cfg : config) (text : string) :
  exists s, _decrypt cfg text = Return s.
Proof.
  unfold _decrypt.
  destruct (JSON.parse text) as [env|]; [|eexists; reflexivity].
  destruct (key_valid (encryptionKey cfg));
    [|destruct env; eexists; reflexivity].
  destruct (unseal _ (get "iv" env) (get "authTag" env) (get "encrypted" env)) eqn:E;
    destruct env; simpl in *; rewrite ?E; eexists; reflexivity.
Qed.

Lemma decrypt_rejected (cfg : config) (envelope : value) :
  well_formed envelope = true ->
  unseal (encryptionKey cfg)
    (get "iv" envelope) (get "authTag" envelope) (get "encrypted" envelope) = None ->
  _decrypt cfg (stringify envelope) = Return (stringify envelope).
Proof.
  intros Hwf Hu. unfold _decrypt. rewrite (parse_stringify _ Hwf).
  destruct (key_valid (encryptionKey cfg));
    destruct envelope; simpl in *; rewrite ?Hu; reflexivity.
Qed.

Lemma loadContextFromDisk_returns (self : t) (contextId : jsval) (w : world) :
  exists v, _loadContextFromDisk self contextId w = Return v.
Proof.
  unfold _loadContextFromDisk.
  destruct (if available (storage w) then _ else _) as [text|]; [|eexists; reflexivity].
  destruct (String.eqb text ""); [eexists; reflexivity|].
  unfold decrypt_if_enabled.
  destruct (encryptionEnabled (vault_config self)).
  - destruct (decrypt_returns (vault_config self) text) as [s ->]. simpl.
    destruct (JSON.parse s); eexists; reflexivity.
  - simpl. destruct (JSON.parse text); eexists; reflexivity.
Qed.

(** [loadContext] never raises. *)
Lemma loadContext_returns (self : t) (contextId : jsval) (w : world) :
  exists v self', loadContext self contextId w = (Return v, self').
Proof.
  unfold loadContext.
  destruct (map_get contextId (contexts self)); [do 2 eexists; reflexivity|].
  destruct (memoryOnly self); cbn [negb]; [do 2 eexists; reflexivity|].
  destruct (loadContextFromDisk_returns self contextId w) as [v ->].
  destruct (truthy (Some v)); do 2 eexists; reflexivity.
Qed.

(** A context that is neither in memory nor on disk loads as [null]. *)
Lemma loadContext_absent (self : t) (contextId : jsval) (w : world) :
  map_get contextId (contexts self) = None ->
  lookup_file (context_file contextId) (files (storage w)) = None ->
  loadContext self contextId w = (Return JNull, self).
Proof.
  intros Hm Hf. unfold loadContext, _loadContextFromDisk. rewrite Hm, Hf.
  destruct (memoryOnly self); simpl; [reflexivity|].
  destruct (available (storage w)); reflexivity.
Qed.

(** A unit whose text, after decryption, is not JSON loads as [null]. *)
Lemma loadContext_unparsable (self : t) (contextId : jsval) (w : world) (text decrypted : string) :
  map_get contextId (contexts self) = None ->
  lookup_file (context_file contextId) (files (storage w)) = Some text ->
  decrypt_if_enabled (vault_config self) text = Return decrypted ->
  JSON.parse decrypted = None ->
  loadContext self contextId w = (Return JNull, self).
Proof.
  intros Hm Hf Hd Hp. unfold loadContext, _loadContextFromDisk. rewrite Hm, Hf.
  destruct (memoryOnly self); simpl; [reflexivity|].
  destruct (available (storage w)); [|reflexivity].
  destruct (String.eqb text ""); [reflexivity|].
  rewrite Hd. simpl. rewrite Hp. reflexivity.
Qed.

End VaultFacts.

(** Decrypting what [_encrypt] returned, under the same key, gives the
    payload back.  [_decrypt] never ends in an error: the handler of its
    [try], written for text that was stored unencrypted, also catches the
    failure of the cipher, so that an envelope which the cipher rejects
    (altered ciphertext, vector or tag) comes back as the text that was
    passed in. *)
Theorem decrypt_round_trip_and_fallback
    {runtime : Runtime} (cfg : StateVault.config) (iv data : string) :
  bind (StateVault._encrypt cfg iv data) (StateVault._decrypt cfg) = Return data /\
  (forall text, exists s, StateVault._decrypt cfg text = Return s) /\
  (forall envelope,
      JSONFacts.well_formed envelope = true ->
      unseal (StateVault.encryptionKey cfg)
        (JSON.get "iv" envelope) (JSON.get "authTag" envelope)
        (JSON.get "encrypted" envelope) = None ->
      StateVault._decrypt cfg (JSON.stringify envelope) =
        Return (JSON.stringify envelope)).
Proof.
  split; [apply decrypt_encrypt; reflexivity|].
  split; [apply decrypt_returns | apply decrypt_rejected].
Qed.

(** C1.  An envelope whose authentication tag was altered is rejected by
    the cipher, yet [_decrypt] does not fail: it returns the text of the
    envelope as if it were the plaintext. *)
Lemma decrypt_tampered_envelope_passes :
  @unseal transparent_runtime (StateVault.encryptionKey sample_config)
    (JSON.get "iv" tampered_envelope) (JSON.get "authTag" tampered_envelope)
    (JSON.get "encrypted" tampered_envelope) = None /\
  raises (@StateVault._decrypt transparent_runtime sample_config
            (JSON.stringify tampered_envelope)) = false /\
  @StateVault._decrypt transparent_runtime sample_config
    (JSON.stringify tampered_envelope) =
    Return (JSON.stringify tampered_envelope).
Proof. vm_compute. auto. Qed.

(** C4.  A persisted unit whose envelope fails authentication is not
    loaded as [null]: [loadContext] returns the parsed envelope, a value
    without [id], and keeps it in memory under the requested identifier. *)
Theorem loadContext_tampered_unit :
  @StateVault.loadContext transparent_runtime sample_vault
    (Some (JSON.JStr "ctx-1")) tampered_world =
    (Return tampered_envelope,
     StateVault.with_contexts sample_vault
       [(Some (JSON.JStr "ctx-1"), tampered_envelope)]) /\
  JSON.get "id" tampered_envelope = None.
Proof. vm_compute. auto. Qed.

(** C10.  [saveContext] on [undefined], on [null] or on a value without
    [id] (or with an [id] that is falsy) raises, and leaves the map of the
    instance and the storage as they were. *)
Theorem saveContext_rejects_without_change
    {runtime : Runtime} (self : StateVault.t) (iv : string)
    (context : JSON.jsval) (w : StateVault.world) :
  context = JSON.undefined \/ context = Some JSON.JNull \/
  (exists v, context = Some v /\ JSON.truthy (JSON.get "id" v) = false) ->
  StateVault.saveContext self iv context w =
    (Throw (Error "Context must have an id"), self, w).
Proof.
  intros [-> | [-> | (v & -> & Hid)]]; try reflexivity.
  unfold StateVault.saveContext. rewrite Hid. cbn [negb].
  rewrite orb_true_r. reflexivity.
Qed.

Lemma saveContext_rejects_without_change_witness :
  (Some (JSON.JObj [("appId", JSON.JStr "app1")]) = JSON.undefined \/
   Some (JSON.JObj [("appId", JSON.JStr "app1")]) = Some JSON.JNull \/
   (exists v, Some (JSON.JObj [("appId", JSON.JStr "app1")]) = Some v /\
              JSON.truthy (JSON.get "id" v) = false)) /\
  @StateVault.saveContext transparent_runtime sample_vault sample_iv
    (Some (JSON.JObj [("appId", JSON.JStr "app1")])) empty_world =
    (Throw (Error "Context must have an id"), sample_vault, empty_world).
Proof.
  assert (H : Some (JSON.JObj [("appId", JSON.JStr "app1")]) = JSON.undefined \/
              Some (JSON.JObj [("appId", JSON.JStr "app1")]) = Some JSON.JNull \/
              (exists v, Some (JSON.JObj [("appId", JSON.JStr "app1")]) = Some v /\
                         JSON.truthy (JSON.get "id" v) = false)).
  { right. right. eexists. split; reflexivity. }
  split; [exact H|].
  exact (@saveContext_rejects_without_change transparent_runtime
           sample_vault sample_iv _ empty_world H).
Defined.

Lemma keep_app_long {A : Type} (n : nat) (a b : list A) :
  n <= List.length b -> keep n (a ++ b) = keep n b.
Proof.
  intros H. unfold keep. rewrite length_app, skipn_app.
  rewrite skipn_all2 by lia. simpl. f_equal. lia.
Qed.

Lemma keep_length {A : Type} (n : nat) (l : list A) :
  n <= List.length l -> List.length (keep n l) = n.
Proof. intros H. unfold keep. rewrite length_skipn. lia. Qed.

(** C5 (as amended).  With [maxBackups = N], after [N + 1] or more calls
    of [backup()] at strictly increasing timestamps (printed with the same
    number of digits, as those of the files already there), every call has
    returned its timestamp and exactly [N] snapshot units remain: those of
    the [N] last, that is newest, calls. *)
Theorem backup_rotation_keeps_newest
    {runtime : Runtime} (self : t) (w : world)
    (old : list Z) (calls : list (jsmap * Z * string)) (k : nat) :
  memoryOnly self = false ->
  available (storage w) = true ->
  snapshot_names w = map backup_file old ->
  StronglySorted Z.lt (old ++ map call_time calls) ->
  Forall (prints_with k) (old ++ map call_time calls) ->
  maxBackups (vault_config self) < List.length calls ->
  exists w',
    backups_in_sequence self calls w =
      (map (fun c => Return (Some (JNum (call_time c)))) calls, w') /\
    snapshot_names w' =
      map backup_file (keep (maxBackups (vault_config self)) (map call_time calls)) /\
    List.length (snapshot_names w') = maxBackups (vault_config self).
Proof.
  intros Hmem Hav Hold Hsorted Hwidth Hcount.
  assert (Hne : calls <> []) by (destruct calls; [simpl in Hcount; lia | congruence]).
  assert (Hnames : StronglySorted name_lt
            (map backup_file old ++ map (fun c => backup_file (call_time c)) calls)).
  { rewrite <- (map_map call_time backup_file), <- map_app.
    eapply backup_files_increasing; eassumption. }
  destruct (backups_in_sequence_names self calls Hne w _ Hmem Hav Hold Hnames)
    as (w' & Hrun & Hfinal).
  exists w'. split; [exact Hrun|].
  assert (E : snapshot_names w' =
              map backup_file (keep (maxBackups (vault_config self)) (map call_time calls))).
  { rewrite Hfinal, keep_app_long by (rewrite length_map; lia).
    rewrite <- (map_map call_time backup_file). unfold keep.
    rewrite !length_map, skipn_map. reflexivity. }
  split; [exact E|].
  rewrite E, length_map, keep_length; [reflexivity | rewrite length_map; lia].
Qed.

Lemma backup_rotation_keeps_newest_witness :
  memoryOnly sample_vault = false /\
  available (storage empty_world) = true /\
  snapshot_names empty_world = map backup_file [] /\
  StronglySorted Z.lt ([] ++ map call_time sample_calls) /\
  Forall (prints_with 13) ([] ++ map call_time sample_calls) /\
  maxBackups (vault_config sample_vault) < List.length sample_calls /\
  exists w',
    @backups_in_sequence transparent_runtime sample_vault sample_calls empty_world =
      (map (fun c => Return (Some (JNum (call_time c)))) sample_calls, w') /\
    snapshot_names w' =
      map backup_file
        (keep (maxBackups (vault_config sample_vault)) (map call_time sample_calls)) /\
    List.length (snapshot_names w') = maxBackups (vault_config sample_vault).
Proof.
  assert (H1 : memoryOnly sample_vault = false) by reflexivity.
  assert (H2 : available (storage empty_world) = true) by reflexivity.
  assert (H3 : snapshot_names empty_world = map backup_file []) by reflexivity.
  assert (H4 : StronglySorted Z.lt ([] ++ map call_time sample_calls)).
  { cbv [sample_calls call_time map fst snd app].
    repeat (apply SSorted_cons; [|repeat (apply Forall_cons; [lia|]); apply Forall_nil]).
    apply SSorted_nil. }
  assert (H5 : Forall (prints_with 13) ([] ++ map call_time sample_calls)).
  { cbv [sample_calls call_time map fst snd app].
    repeat (apply Forall_cons; [split; [lia | reflexivity]|]). apply Forall_nil. }
  assert (H6 : maxBackups (vault_config sample_vault) < List.length sample_calls)
    by (simpl; lia).
  repeat (split; [assumption|]).
  exact (@backup_rotation_keeps_newest transparent_runtime sample_vault empty_world
           [] sample_calls 13 H1 H2 H3 H4 H5 H6).
Defined.

(** C5, counterexample.  Three successful calls of [backup()] within one
    millisecond, with [maxBackups = 2]: the calls write the same file, and
    one snapshot unit remains. *)
Lemma backup_rotation_colliding_timestamps :
  maxBackups (vault_config sample_vault) = 2 /\
  fst (@backups_in_sequence transparent_runtime sample_vault colliding_calls empty_world) =
    [ Return (Some (JNum 1700000000000));
      Return (Some (JNum 1700000000000));
      Return (Some (JNum 1700000000000)) ] /\
  snapshot_names
    (snd (@backups_in_sequence transparent_runtime sample_vault colliding_calls empty_world)) =
    [ "backup_1700000000000.bak" ].
Proof. vm_compute. auto. Qed.

(** *** Restoring what [backup()] wrote *)

Lemma keys_distinct_app_cons (acc : jsmap) (k : jsval) (v : value) (rest : jsmap) :
  keys_distinct (acc ++ (k, v) :: rest)%list = true ->
  existsb (fun e => jsval_eqb (fst e) k) acc = false /\
  keys_distinct ((acc ++ [(k, v)]) ++ rest)%list = true.
Proof.
  induction acc as [|[k' v'] acc IH]; simpl.
  - intros H. split; [reflexivity | exact H].
  - intros H. apply andb_true_iff in H. destruct H as [H1 H2].
    destruct (IH H2) as [H3 H4]. apply negb_true_iff in H1.
    rewrite existsb_app in H1. apply orb_false_iff in H1. destruct H1 as [H5 H6].
    simpl in H6. apply orb_false_iff in H6. destruct H6 as [H6 H7].
    split.
    + rewrite H6, H3. reflexivity.
    + rewrite H4, andb_true_r. apply negb_true_iff.
      rewrite <- app_assoc. simpl. rewrite existsb_app. simpl.
      rewrite H5, H6, H7. reflexivity.
Qed.

Lemma map_set_fresh (k : jsval) (v : value) (acc : jsmap) :
  existsb (fun e => jsval_eqb (fst e) k) acc = false ->
  map_set k v acc = (acc ++ [(k, v)])%list.
Proof.
  induction acc as [|[k' w] acc IH]; simpl; [reflexivity|].
  intros H. apply orb_false_iff in H. destruct H as [H1 H2].
  rewrite H1, IH by exact H2. reflexivity.
Qed.

(** The loop of [restore] rebuilds a map from the list of its values. *)
Lemma restore_each_values (m acc : jsmap) :
  Forall entry_ok m ->
  keys_distinct (acc ++ m)%list = true ->
  restore_each (map_values m) acc = (Return tt, (acc ++ m)%list).
Proof.
  intros Hok. revert acc.
  induction Hok as [|[k v] m (Hnull & Hkey & _) Hm IH]; intros acc Hd.
  - simpl. rewrite app_nil_r. reflexivity.
  - simpl in Hnull, Hkey. subst k.
    apply keys_distinct_app_cons in Hd. destruct Hd as [Hfresh Hd].
    assert (E : restore_each (map_values ((get "id" v, v) :: m)) acc =
                restore_each (map_values m) (map_set (get "id" v) v acc)).
    { destruct v; try reflexivity. congruence. }
    rewrite E, map_set_fresh by exact Hfresh.
    rewrite IH by exact Hd. rewrite <- app_assoc. reflexivity.
Qed.

Lemma values_well_formed (m : jsmap) :
  Forall entry_ok m -> forallb well_formed (map_values m) = true.
Proof.
  induction 1 as [|e m (_ & _ & Hwf) Hm IH]; simpl; [reflexivity|].
  rewrite Hwf, IH. reflexivity.
Qed.

Section Shutdown.
Context {runtime : Runtime}.

Lemma encrypted_not_empty (cfg : config) (iv : string) (v : value) (content : string) :
  encrypt_if_enabled cfg iv (stringify v) = Return content ->
  String.eqb content "" = false.
Proof.
  unfold encrypt_if_enabled, _encrypt.
  destruct (stringify_head v) as (c & s & E & _).
  destruct (encryptionEnabled cfg); [destruct (key_valid (encryptionKey cfg))|];
    cbn [try_catch]; intros H; injection H as <-; rewrite ?E; reflexivity.
Qed.

Lemma decrypt_of_encrypted (cfg cfg' : config) (iv data content : string) :
  encryptionKey cfg' = encryptionKey cfg ->
  encryptionEnabled cfg' = encryptionEnabled cfg ->
  encrypt_if_enabled cfg iv data = Return content ->
  decrypt_if_enabled cfg' content = Return data.
Proof.
  intros Hk He. unfold encrypt_if_enabled, decrypt_if_enabled. rewrite He.
  destruct (encryptionEnabled cfg); [|congruence].
  intros Henc. pose proof (decrypt_encrypt cfg cfg' iv data Hk) as H.
  rewrite Henc in H. exact H.
Qed.

Lemma strongly_sorted_filter {A : Type} (R : A -> A -> Prop) (f : A -> bool) (l : list A) :
  StronglySorted R l -> StronglySorted R (filter f l).
Proof.
  induction 1 as [|x l Hs IH Hx]; simpl; [constructor|].
  destruct (f x); [|exact IH].
  constructor; [exact IH|].
  rewrite Forall_forall in *. intros y Hy. apply filter_In in Hy. apply Hx. tauto.
Qed.

Lemma last_keep_app (n : nat) (chain : list string) (x : string) :
  1 <= n ->
  keep n (chain ++ [x]) <> [] /\ List.last (keep n (chain ++ [x])) "" = x /\
  In x (keep n (chain ++ [x])).
Proof.
  intros Hn. unfold keep. rewrite length_app, skipn_app. simpl List.length.
  replace (List.length chain + 1 - n - List.length chain) with 0 by lia.
  cbn [skipn]. repeat split.
  - intros H. apply app_eq_nil in H. destruct H. discriminate.
  - apply last_last.
  - apply in_or_app. right. left. reflexivity.
Qed.

End Shutdown.

(** Shutdown and restart where the platform lists directories in name
    order.  For a vault that is not in memory-only mode, keeps at least
    one backup and holds each context under its own identifier:
    [shutdown()] cancels the backup timer and writes one last snapshot,
    and a vault constructed afterwards on the same storage, with the same
    key and encryption setting, recovers by [restore(null)] exactly the
    contexts held at shutdown, when the shutdown is later than the
    snapshots already there. *)
Theorem shutdown_then_restore
    {runtime : Runtime} (self : t) (now : Z) (iv : string) (w : world)
    (old : list Z) (k : nat) (o : options) (generated : string) :
  memoryOnly self = false ->
  available (storage w) = true ->
  (forall names, readdir_order names = sort_names names) ->
  NoDup (map fst (backups (storage w))) ->
  snapshot_names w = map backup_file old ->
  StronglySorted Z.lt (old ++ [now]) ->
  Forall (prints_with k) (old ++ [now]) ->
  1 <= maxBackups (vault_config self) ->
  Forall entry_ok (contexts self) ->
  keys_distinct (contexts self) = true ->
  opt_encryptionKey o = Some (encryptionKey (vault_config self)) ->
  opt_encryptionEnabled o = Some (encryptionEnabled (vault_config self)) ->
  exists self1 w1 fresh w2 fresh',
    shutdown self now iv w = (Return tt, self1, w1) /\
    backupTimer self1 = None /\
    (forall handle, backupTimer self = Some handle -> ~ In handle (timers w1)) /\
    constructor o generated w1 = (fresh, w2) /\
    contexts fresh = [] /\
    restore fresh (Some JNull) w2 = (Return true, fresh') /\
    contexts fresh' = contexts self.
Proof.
  intros Hmem Hav Hlist Hnd Hold Hsorted Hwidth Hmax Hok Hkeys Hkey Henabled.
  assert (Hnames : StronglySorted name_lt (map backup_file old ++ [backup_file now])).
  { change [backup_file now] with (map backup_file [now]). rewrite <- map_app.
    eapply backup_files_increasing; eassumption. }
  destruct (stopAutoBackup self w) as [self1 w0] eqn:Hstop.
  assert (Hself1 : vault_config self1 = vault_config self /\
                   contexts self1 = contexts self /\
                   memoryOnly self1 = memoryOnly self /\
                   backupTimer self1 = None /\
                   storage w0 = storage w /\
                   (forall handle, backupTimer self = Some handle ->
                                   ~ In handle (timers w0))).
  { unfold stopAutoBackup in Hstop.
    destruct (backupTimer self) as [h|] eqn:Eh; injection Hstop as <- <-;
      repeat split; auto; try discriminate.
    intros handle E. injection E as <-. cbn [timers].
    intros Hin. apply filter_In in Hin. destruct Hin as [_ Hin].
    rewrite Nat.eqb_refl in Hin. discriminate. }
  destruct Hself1 as (Hcfg & Hctx & Hmem1 & Htimer & Hstorage & Hhandles).
  assert (Hmem1' : memoryOnly self1 = false) by congruence.
  assert (Hav0 : available (storage w0) = true) by congruence.
  assert (Hold0 : snapshot_names w0 = map backup_file old).
  { unfold snapshot_names. rewrite Hstorage. exact Hold. }
  destruct (backup_step self1 now iv w0 _ Hmem1' Hav0 Hold0 Hnames)
    as (content & w1 & Henc & Hb & Hav1 & _ & Htimers & Hsnap & Hlook & Hnd1).
  rewrite Hcfg, Hctx in *.
  destruct (last_keep_app (maxBackups (vault_config self))
              (map backup_file old) (backup_file now) Hmax)
    as (Hne & Hlast & Hin).
  specialize (Hlook Hin).
  assert (Hnd' : NoDup (map fst (backups (storage w1))))
    by (apply Hnd1; rewrite Hstorage; exact Hnd).
  destruct (constructor o generated w1) as [fresh w2] eqn:Hnew.
  assert (Hfresh : encryptionKey (vault_config fresh) = encryptionKey (vault_config self) /\
                   encryptionEnabled (vault_config fresh) =
                     encryptionEnabled (vault_config self) /\
                   contexts fresh = [] /\ memoryOnly fresh = false /\
                   storage w2 = storage w1).
  { unfold constructor, _initStorage, _startAutoBackup in Hnew.
    rewrite Hav1, Hkey, Henabled in Hnew. cbn [spread] in Hnew.
    destruct (spread (opt_backupEnabled o) (not_false (opt_backupEnabled o)));
      cbn [backupEnabled] in Hnew; injection Hnew as <- <-; repeat split. }
  destruct Hfresh as (Hk' & He' & Hempty & Hmem' & Hstorage2).
  exists self1, w1, fresh, w2, (with_contexts fresh (contexts self)).
  split. { unfold shutdown. rewrite Hstop, Hb. reflexivity. }
  split; [exact Htimer|].
  split. { intros handle E. rewrite Htimers. apply Hhandles. exact E. }
  split; [exact Hnew|]. split; [exact Hempty|]. split; [|reflexivity].
  assert (Hlisted : filter is_bak (readdirSync (backups (storage w1))) =
                    keep (maxBackups (vault_config self))
                         (map backup_file old ++ [backup_file now])).
  { unfold readdirSync. rewrite Hlist.
    apply sorted_unique.
    - apply strongly_sorted_filter, sort_names_sorted. exact Hnd'.
    - apply strongly_sorted_skipn. exact Hnames.
    - rewrite <- Hsnap. unfold snapshot_names.
      eapply perm_trans;
        [apply permutation_filter, sort_names_permutation
        | apply Permutation_sym, sort_names_permutation]. }
  unfold restore. rewrite Hmem', Hstorage2, Hav1. cbn [negb]. rewrite Hlisted.
  destruct (keep (maxBackups (vault_config self))
              (map backup_file old ++ [backup_file now])) as [|n0 kept] eqn:Ekept;
    [congruence|].
  cbn [truthy]. unfold last_name. rewrite Hlast, Hlook.
  rewrite (encrypted_not_empty _ _ _ _ Henc).
  rewrite (decrypt_of_encrypted (vault_config self) (vault_config fresh) iv _ content
             Hk' He' Henc).
  cbn [bind]. rewrite parse_stringify.
  - cbn [get assoc]. change (String.eqb "timestamp" "contexts") with false.
    change (String.eqb "contexts" "contexts") with true. cbv iota.
    rewrite (restore_each_values (contexts self) [] Hok Hkeys). reflexivity.
  - change (forallb well_formed (map_values (contexts self)) && true = true).
    rewrite values_well_formed by exact Hok. reflexivity.
Qed.

Lemma shutdown_then_restore_witness :
  memoryOnly running_vault = false /\
  available (storage running_world) = true /\
  (forall names, @readdir_order transparent_runtime names = sort_names names) /\
  NoDup (map fst (backups (storage running_world))) /\
  snapshot_names running_world = map backup_file [] /\
  StronglySorted Z.lt ([] ++ [1700000000000%Z]) /\
  Forall (prints_with 13) ([] ++ [1700000000000%Z]) /\
  1 <= maxBackups (vault_config running_vault) /\
  Forall entry_ok (contexts running_vault) /\
  keys_distinct (contexts running_vault) = true /\
  opt_encryptionKey restart_options =
    Some (encryptionKey (vault_config running_vault)) /\
  opt_encryptionEnabled restart_options =
    Some (encryptionEnabled (vault_config running_vault)) /\
  exists self1 w1 fresh w2 fresh',
    @shutdown transparent_runtime running_vault 1700000000000%Z sample_iv running_world
      = (Return tt, self1, w1) /\
    backupTimer self1 = None /\
    (forall handle, backupTimer running_vault = Some handle -> ~ In handle (timers w1)) /\
    constructor restart_options "" w1 = (fresh, w2) /\
    contexts fresh = [] /\
    @restore transparent_runtime fresh (Some JNull) w2 = (Return true, fresh') /\
    contexts fresh' = contexts running_vault.
Proof.
  assert (H1 : memoryOnly running_vault = false) by reflexivity.
  assert (H2 : available (storage running_world) = true) by reflexivity.
  assert (H3 : forall names, @readdir_order transparent_runtime names = sort_names names)
    by reflexivity.
  assert (H4 : NoDup (map fst (backups (storage running_world)))) by constructor.
  assert (H5 : snapshot_names running_world = map backup_file []) by reflexivity.
  assert (H6 : StronglySorted Z.lt ([] ++ [1700000000000%Z])).
  { apply SSorted_cons; [apply SSorted_nil | apply Forall_nil]. }
  assert (H7 : Forall (prints_with 13) ([] ++ [1700000000000%Z])).
  { apply Forall_cons; [split; [lia | reflexivity] | apply Forall_nil]. }
  assert (H8 : 1 <= maxBackups (vault_config running_vault)) by (simpl; lia).
  assert (H9 : Forall entry_ok (contexts running_vault)).
  { repeat (apply Forall_cons;
            [split; [discriminate | split; reflexivity]|]). apply Forall_nil. }
  assert (H10 : keys_distinct (contexts running_vault) = true) by reflexivity.
  assert (H11 : opt_encryptionKey restart_options =
                Some (encryptionKey (vault_config running_vault))) by reflexivity.
  assert (H12 : opt_encryptionEnabled restart_options =
                Some (encryptionEnabled (vault_config running_vault))) by reflexivity.
  repeat (split; [assumption|]).
  exact (@shutdown_then_restore transparent_runtime running_vault 1700000000000%Z
           sample_iv running_world [] 13 restart_options ""
           H1 H2 H3 H4 H5 H6 H7 H8 H9 H10 H11 H12).
Defined.

(** A vault in memory-only mode holds a context; [shutdown()] returns at
    the guard of [backup()] without writing a snapshot, and
    [restore(null)] on a vault constructed afterwards answers [false] and
    recovers nothing. *)
Lemma shutdown_memory_only_not_restored :
  memoryOnly fallback_vault = true /\
  contexts fallback_vault = [ (Some (JStr "ctx-1"), research_context) ] /\
  @shutdown transparent_runtime fallback_vault 1700000000000%Z sample_iv
     unavailable_world = (Return tt, fallback_vault, unavailable_world) /\
  @restore transparent_runtime
     (fst (constructor restart_options "" unavailable_world)) (Some JNull)
     (snd (constructor restart_options "" unavailable_world)) =
    (Return false, fst (constructor restart_options "" unavailable_world)) /\
  contexts (fst (constructor restart_options "" unavailable_world)) = [].
Proof. vm_compute. auto. Qed.

(** A platform that lists a directory in descending name order. *)
Lemma reverse_listing_permutation (names : list string) :
  Permutation (rev (StateVault.sort_names names)) names.
Proof.
  eapply perm_trans; [apply Permutation_sym, Permutation_rev|].
  apply sort_names_permutation.
Qed.

Definition reverse_listing_runtime : Runtime :=
  {| key_valid := fun key => (String.length key =? 64)%nat;
     seal := transparent_seal;
     unseal := transparent_unseal;
     unseal_seal := transparent_unseal_seal;
     readdir_order := fun names => rev (StateVault.sort_names names);
     readdir_order_permutation := reverse_listing_permutation |}.

(** The storage after an earlier run whose vault, holding one context,
    made a backup; the world at the shutdown of the running vault, which
    holds two; and the vault constructed afterwards. *)
Definition earlier_world : world :=
  snd (@backup reverse_listing_runtime earlier_vault 1699999990000%Z sample_iv running_world).

Definition world_after_shutdown : world :=
  snd (@shutdown reverse_listing_runtime running_vault 1700000000000%Z sample_iv earlier_world).

Definition restarted_vault : t :=
  fst (constructor restart_options "" world_after_shutdown).

Definition restarted_world : world :=
  snd (constructor restart_options "" world_after_shutdown).

(** C6.  The backups directory holds an earlier snapshot and the platform
    does not list it in ascending name order.  [shutdown()] of a vault
    that holds two contexts writes its final snapshot, which the rotation
    keeps.  On the vault constructed afterwards [restore(null)] answers
    [true], but it has read the earlier snapshot, the last entry of the
    listing, and the vault holds the one context of the earlier run;
    [restore] with the timestamp of the shutdown recovers the two. *)
Theorem shutdown_then_restore_reads_earlier_snapshot :
  memoryOnly running_vault = false /\
  map fst (contexts running_vault) = [ Some (JStr "ctx-1"); Some (JStr "ctx-2") ] /\
  snapshot_names earlier_world = [ "backup_1699999990000.bak" ] /\
  fst (@shutdown reverse_listing_runtime running_vault 1700000000000%Z sample_iv earlier_world)
    = (Return tt,
       mkVault (vault_config running_vault) (contexts running_vault) None false) /\
  snapshot_names world_after_shutdown =
    [ "backup_1699999990000.bak"; "backup_1700000000000.bak" ] /\
  @readdirSync reverse_listing_runtime (backups (storage restarted_world)) =
    [ "backup_1700000000000.bak"; "backup_1699999990000.bak" ] /\
  @restore reverse_listing_runtime restarted_vault (Some JNull) restarted_world =
    (Return true, with_contexts restarted_vault (contexts earlier_vault)) /\
  map fst (contexts earlier_vault) = [ Some (JStr "ctx-1") ] /\
  @restore reverse_listing_runtime restarted_vault (Some (JNum 1700000000000)) restarted_world =
    (Return true, with_contexts restarted_vault (contexts running_vault)).
Proof. vm_compute. repeat split. Qed.

(* ================================================================== *)
(** * Part III.  Further properties of the modules                     *)
(* ================================================================== *)

(* ------------------------------------------------------------------ *)
(** ** The vault: saving, loading, deleting and clearing *)

Import VaultAdmin.

(** *** Equality of keys *)

Lemma eqb_refl (v : value) : JSON.eqb v v = true.
Proof.
  induction v as [| b | n | s | l IH | m IH] using value_induction; simpl.
  - reflexivity.
  - destruct b; reflexivity.
  - apply Z.eqb_refl.
  - apply String.eqb_refl.
  - induction IH as [|x l Hx _ IHl]; [reflexivity|]. rewrite Hx. exact IHl.
  - induction IH as [|[k x] m Hx _ IHm]; [reflexivity|].
    simpl in Hx. rewrite String.eqb_refl, Hx. exact IHm.
Qed.

Lemma eqb_eq (a b : value) : JSON.eqb a b = true -> a = b.
Proof.
  revert b.
  induction a as [| x | n | s | l IH | m IH] using value_induction;
    intros [| y | n' | s' | l' | m']; simpl; try discriminate; intros H.
  - reflexivity.
  - f_equal. apply Bool.eqb_prop. exact H.
  - f_equal. apply Z.eqb_eq. exact H.
  - f_equal. apply String.eqb_eq. exact H.
  - f_equal. revert l' H.
    induction IH as [|x l Hx _ IHl]; intros [|y l'] H; try discriminate; [reflexivity|].
    apply andb_true_iff in H. destruct H as [H1 H2].
    f_equal; [apply Hx; exact H1 | apply IHl; exact H2].
  - f_equal. revert m' H.
    induction IH as [|[k x] m Hx _ IHm]; intros [|[k' y] m'] H; try discriminate;
      [reflexivity|].
    apply andb_true_iff in H. destruct H as [H1 H2].
    apply andb_true_iff in H1. destruct H1 as [H0 H1].
    apply String.eqb_eq in H0. simpl in Hx. apply Hx in H1. subst.
    f_equal. apply IHm. exact H2.
Qed.

Lemma jsval_eqb_refl (k : jsval) : jsval_eqb k k = true.
Proof. destruct k as [v|]; [apply eqb_refl | reflexivity]. Qed.

Lemma jsval_eqb_eq (a b : jsval) : jsval_eqb a b = true -> a = b.
Proof.
  destruct a as [x|], b as [y|]; simpl; try discriminate; [|reflexivity].
  intros H. f_equal. apply eqb_eq. exact H.
Qed.

(** *** The map of contexts *)

Lemma map_get_set_same (k : jsval) (v : value) (m : jsmap) :
  map_get k (map_set k v m) = Some v.
Proof.
  induction m as [|[k' w] m IH]; simpl.
  - rewrite jsval_eqb_refl. reflexivity.
  - destruct (jsval_eqb k' k) eqn:E; simpl; rewrite E; [reflexivity | exact IH].
Qed.

Lemma map_get_delete_same (k : jsval) (m : jsmap) :
  map_get k (map_delete k m) = None.
Proof.
  unfold map_delete. induction m as [|[k' w] m IH]; simpl; [reflexivity|].
  destruct (jsval_eqb k' k) eqn:E; simpl; [exact IH|]. rewrite E. exact IH.
Qed.

Lemma map_get_delete_other (k other : jsval) (m : jsmap) :
  other <> k -> map_get other (map_delete k m) = map_get other m.
Proof.
  intros Hne. unfold map_delete.
  induction m as [|[k' w] m IH]; simpl; [reflexivity|].
  destruct (jsval_eqb k' k) eqn:E; simpl.
  - apply jsval_eqb_eq in E. subst k'.
    destruct (jsval_eqb k other) eqn:E2; [|exact IH].
    apply jsval_eqb_eq in E2. congruence.
  - rewrite IH. reflexivity.
Qed.

Lemma map_set_keys (k : jsval) (v : value) (m : jsmap) :
  map fst (map_set k v m) =
  if map_has k m then map fst m else (map fst m ++ [k])%list.
Proof.
  unfold map_has. induction m as [|[k' w] m IH]; simpl; [reflexivity|].
  destruct (jsval_eqb k' k) eqn:E; simpl; [reflexivity|].
  rewrite IH. destruct (map_get k m); reflexivity.
Qed.

Lemma map_get_none_fresh (k : jsval) (m : jsmap) :
  map_get k m = None -> existsb (fun e => jsval_eqb (fst e) k) m = false.
Proof.
  induction m as [|[k' w] m IH]; simpl; [reflexivity|].
  destruct (jsval_eqb k' k); [discriminate | exact IH].
Qed.

Lemma existsb_ext_in {A : Type} (f g : A -> bool) (l : list A) :
  (forall x, In x l -> f x = g x) -> existsb f l = existsb g l.
Proof.
  induction l as [|x l IH]; simpl; intros H; [reflexivity|].
  rewrite (H x) by (left; reflexivity). rewrite IH; [reflexivity|].
  intros y Hy. apply H. right. exact Hy.
Qed.

Lemma jsval_eqb_sym (a b : jsval) : jsval_eqb a b = jsval_eqb b a.
Proof.
  destruct (jsval_eqb a b) eqn:E.
  - apply jsval_eqb_eq in E. subst. symmetry. apply jsval_eqb_refl.
  - destruct (jsval_eqb b a) eqn:E'; [|reflexivity].
    apply jsval_eqb_eq in E'. subst. rewrite jsval_eqb_refl in E. discriminate.
Qed.

Lemma keys_distinct_set (k : jsval) (v : value) (m : jsmap) :
  keys_distinct m = true -> keys_distinct (map_set k v m) = true.
Proof.
  induction m as [|[k' w] m IH]; simpl; [reflexivity|].
  intros H. apply andb_true_iff in H. destruct H as [H1 H2].
  destruct (jsval_eqb k' k) eqn:E; simpl.
  - rewrite H1, H2. reflexivity.
  - rewrite (IH H2), andb_true_r. apply negb_true_iff. apply negb_true_iff in H1.
    clear IH H2. induction m as [|[k2 w2] m IHm]; simpl in *.
    + rewrite E. reflexivity.
    + apply orb_false_iff in H1. destruct H1 as [H1 H3].
      destruct (jsval_eqb k2 k) eqn:E2; simpl; rewrite H1; [exact H3 | apply IHm; exact H3].
Qed.

(** *** Files *)

Lemma lookup_remove_same (name : string) (d : directory) :
  lookup_file name (remove_file name d) = None.
Proof.
  unfold remove_file. induction d as [|[n c] d IH]; simpl; [reflexivity|].
  destruct (String.eqb n name) eqn:E; simpl; [exact IH|]. rewrite E. exact IH.
Qed.

Lemma lookup_file_none (name : string) (d : directory) :
  ~ In name (map fst d) -> lookup_file name d = None.
Proof.
  induction d as [|[n c] d IH]; simpl; [reflexivity|]. intros H.
  destruct (String.eqb n name) eqn:E.
  - apply String.eqb_eq in E. exfalso. apply H. left. exact E.
  - apply IH. intros Hin. apply H. right. exact Hin.
Qed.

Lemma lookup_file_in (name content : string) (d : directory) :
  lookup_file name d = Some content -> In name (map fst d).
Proof.
  induction d as [|[n c] d IH]; simpl; [discriminate|].
  destruct (String.eqb n name) eqn:E.
  - apply String.eqb_eq in E. intros _. left. exact E.
  - intros H. right. apply IH. exact H.
Qed.

Lemma lookup_write_other (name other content : string) (d : directory) :
  other <> name ->
  lookup_file name (write_file other content d) = lookup_file name d.
Proof.
  intros Hne. induction d as [|[n c] d IH]; simpl.
  - destruct (String.eqb other name) eqn:E; [|reflexivity].
    apply String.eqb_eq in E. contradiction.
  - destruct (String.eqb n other) eqn:E; simpl.
    + apply String.eqb_eq in E. subst n.
      destruct (String.eqb other name) eqn:E2; [|reflexivity].
      apply String.eqb_eq in E2. contradiction.
    + rewrite IH. reflexivity.
Qed.

Lemma unlink_each_lookup (names : list string) (d : directory) (name : string) :
  lookup_file name (unlink_each names d) =
  if existsb (String.eqb name) names then None else lookup_file name d.
Proof.
  unfold unlink_each. revert d.
  induction names as [|f names IH]; intros d; simpl; [reflexivity|].
  rewrite IH. destruct (existsb (String.eqb name) names) eqn:E.
  - rewrite orb_true_r. reflexivity.
  - rewrite orb_false_r. destruct (String.eqb name f) eqn:E2.
    + apply String.eqb_eq in E2. subst f. apply lookup_remove_same.
    + apply lookup_remove_file. intros ->. rewrite String.eqb_refl in E2. discriminate.
Qed.

Lemma context_file_is_ctx (contextId : jsval) : endsWith ".ctx" (context_file contextId) = true.
Proof. unfold context_file. apply endsWith_append. Qed.

Lemma clean_loop_lookup_other (n : nat) (names : list string) (d : directory) (name : string) :
  ~ In name names ->
  lookup_file name (clean_loop n names d) = lookup_file name d.
Proof.
  revert d. induction names as [|x names IH]; intros d Hn; [reflexivity|].
  cbn [clean_loop]. destruct (n <? _)%nat; [|reflexivity].
  rewrite IH by (intros H; apply Hn; right; exact H).
  apply lookup_remove_file. intros ->. apply Hn. left. reflexivity.
Qed.

(** A context with a truthy [id] is an object, hence truthy. *)
Lemma truthy_id_object (ctx : value) :
  truthy (get "id" ctx) = true -> truthy (Some ctx) = true.
Proof. destruct ctx; simpl; try discriminate; reflexivity. Qed.

(** X1.  [saveContext] of a context whose [id] is truthy returns
    normally, whatever the state of the storage, and [loadContext] of that
    [id] then returns the context from memory: the vault is not changed by
    the load and the storage is not consulted. *)
Theorem saveContext_then_loadContext
    {runtime : Runtime} (self : t) (iv : string) (ctx : value) (w : world) :
  truthy (get "id" ctx) = true ->
  exists self1 w1,
    saveContext self iv (Some ctx) w = (Return tt, self1, w1) /\
    forall w', loadContext self1 (get "id" ctx) w' = (Return ctx, self1).
Proof.
  intros Hid. pose proof (truthy_id_object ctx Hid) as Hctx.
  unfold saveContext. rewrite Hid, Hctx. cbn [negb orb].
  set (self1 := with_contexts self (map_set (get "id" ctx) ctx (contexts self))).
  assert (Hload : forall w', loadContext self1 (get "id" ctx) w' = (Return ctx, self1)).
  { intros w'. unfold loadContext, self1. cbn [with_contexts contexts].
    rewrite map_get_set_same. reflexivity. }
  destruct (negb (memoryOnly self1)); eexists self1, _; split; try reflexivity; exact Hload.
Qed.

Lemma saveContext_then_loadContext_witness :
  truthy (get "id" research_context) = true /\
  exists self1 w1,
    @saveContext transparent_runtime sample_vault sample_iv (Some research_context) empty_world
      = (Return tt, self1, w1) /\
    forall w', @loadContext transparent_runtime self1 (get "id" research_context) w'
      = (Return research_context, self1).
Proof.
  assert (H : truthy (get "id" research_context) = true) by reflexivity.
  split; [exact H|].
  exact (@saveContext_then_loadContext transparent_runtime sample_vault sample_iv
           research_context empty_world H).
Defined.

(** X2.  Saving under an [id] that the vault already holds replaces the
    context in place; saving under a new [id] appends it.  Either way the
    identifiers that [getAllContextIds] lists stay pairwise different. *)
Theorem saveContext_keeps_ids_distinct
    {runtime : Runtime} (self : t) (iv : string) (ctx : value) (w : world) :
  truthy (get "id" ctx) = true ->
  keys_distinct (contexts self) = true ->
  exists self1 w1,
    saveContext self iv (Some ctx) w = (Return tt, self1, w1) /\
    keys_distinct (contexts self1) = true /\
    getAllContextIds self1 =
      if map_has (get "id" ctx) (contexts self)
      then getAllContextIds self
      else (getAllContextIds self ++ [get "id" ctx])%list.
Proof.
  intros Hid Hd. pose proof (truthy_id_object ctx Hid) as Hctx.
  unfold saveContext. rewrite Hid, Hctx. cbn [negb orb].
  set (self1 := with_contexts self (map_set (get "id" ctx) ctx (contexts self))).
  assert (H1 : keys_distinct (contexts self1) = true)
    by (apply keys_distinct_set; exact Hd).
  assert (H2 : getAllContextIds self1 =
               if map_has (get "id" ctx) (contexts self)
               then getAllContextIds self
               else (getAllContextIds self ++ [get "id" ctx])%list)
    by (apply map_set_keys).
  destruct (negb (memoryOnly self1)); eexists self1, _; repeat split; assumption.
Qed.

Lemma saveContext_keeps_ids_distinct_witness :
  truthy (get "id" research_context) = true /\
  keys_distinct (contexts running_vault) = true /\
  exists self1 w1,
    @saveContext transparent_runtime running_vault sample_iv (Some research_context)
      running_world = (Return tt, self1, w1) /\
    keys_distinct (contexts self1) = true /\
    getAllContextIds self1 =
      if map_has (get "id" research_context) (contexts running_vault)
      then getAllContextIds running_vault
      else (getAllContextIds running_vault ++ [get "id" research_context])%list.
Proof.
  assert (H1 : truthy (get "id" research_context) = true) by reflexivity.
  assert (H2 : keys_distinct (contexts running_vault) = true) by reflexivity.
  split; [exact H1|]. split; [exact H2|].
  exact (@saveContext_keeps_ids_distinct transparent_runtime running_vault sample_iv
           research_context running_world H1 H2).
Defined.

(** X3.  A context whose [id] is a plain file name, saved by a vault that
    persists to available storage, is loaded, from the storage, by another
    vault that uses the same key and encryption setting and does not hold
    the [id] in memory (a vault of a later session); the loaded context is
    then kept in that vault's memory.  The context is a JSON value of the
    model: its numbers are integers. *)
Theorem saved_context_loads_in_later_session
    {runtime : Runtime} (self other : t) (iv : string) (ctx : value) (w : world) :
  truthy (get "id" ctx) = true ->
  plain_name (get "id" ctx) = true ->
  well_formed ctx = true ->
  memoryOnly self = false ->
  available (storage w) = true ->
  memoryOnly other = false ->
  map_get (get "id" ctx) (contexts other) = None ->
  encryptionKey (vault_config other) = encryptionKey (vault_config self) ->
  encryptionEnabled (vault_config other) = encryptionEnabled (vault_config self) ->
  exists self1 w1,
    saveContext self iv (Some ctx) w = (Return tt, self1, w1) /\
    loadContext other (get "id" ctx) w1 =
      (Return ctx,
       with_contexts other (map_set (get "id" ctx) ctx (contexts other))).
Proof.
  intros Hid _ Hwf Hmem Hav Hmem' Hnew Hkey Hen.
  pose proof (truthy_id_object ctx Hid) as Hctx.
  destruct (encrypt_returns (vault_config self) iv (stringify ctx)) as [content Henc].
  unfold saveContext. rewrite Hid, Hctx. cbn [negb orb].
  cbn [with_contexts memoryOnly]. rewrite Hmem. cbn [negb].
  unfold _persistContext. cbn [with_contexts vault_config bind].
  rewrite Henc. cbn [bind]. rewrite Hav. cbn [try_catch].
  exists (with_contexts self (map_set (get "id" ctx) ctx (contexts self))),
         (with_files w (write_file (context_file (get "id" ctx)) content (files (storage w)))).
  split; [reflexivity|].
  unfold loadContext. rewrite Hnew, Hmem'. cbn [negb].
  unfold _loadContextFromDisk. cbn [with_files storage available files].
  rewrite Hav, lookup_write_file.
  rewrite (encrypted_not_empty _ _ _ _ Henc).
  rewrite (decrypt_of_encrypted (vault_config self) (vault_config other) iv _ content
             Hkey Hen Henc).
  cbn [bind]. rewrite (parse_stringify ctx Hwf). cbn [try_catch].
  rewrite Hctx. reflexivity.
Qed.

Lemma saved_context_loads_in_later_session_witness :
  truthy (get "id" research_context) = true /\
  plain_name (get "id" research_context) = true /\
  well_formed research_context = true /\
  memoryOnly sample_vault = false /\
  available (storage empty_world) = true /\
  memoryOnly (fst (constructor restart_options "" empty_world)) = false /\
  map_get (get "id" research_context)
    (contexts (fst (constructor restart_options "" empty_world))) = None /\
  encryptionKey (vault_config (fst (constructor restart_options "" empty_world))) =
    encryptionKey (vault_config sample_vault) /\
  encryptionEnabled (vault_config (fst (constructor restart_options "" empty_world))) =
    encryptionEnabled (vault_config sample_vault) /\
  exists self1 w1,
    @saveContext transparent_runtime sample_vault sample_iv (Some research_context)
      empty_world = (Return tt, self1, w1) /\
    @loadContext transparent_runtime (fst (constructor restart_options "" empty_world))
      (get "id" research_context) w1 =
      (Return research_context,
       with_contexts (fst (constructor restart_options "" empty_world))
         (map_set (get "id" research_context) research_context
            (contexts (fst (constructor restart_options "" empty_world))))).
Proof.
  repeat (split; [reflexivity|]).
  exact (@saved_context_loads_in_later_session transparent_runtime sample_vault
           (fst (constructor restart_options "" empty_world)) sample_iv
           research_context empty_world
           eq_refl eq_refl eq_refl eq_refl eq_refl eq_refl eq_refl eq_refl eq_refl).
Defined.

(** X4.  After [deleteContext(id)] a [loadContext(id)] answers [null]:
    the context is gone from memory and its unit from the storage.
    Contexts held under other identifiers are left as they were; so are,
    when the identifier holds no path separator, the units stored under
    other names and the backups. *)
Theorem deleteContext_then_loadContext
    {runtime : Runtime} (self : t) (contextId : jsval) (w : world) :
  exists self1 w1,
    deleteContext self contextId w = (self1, w1) /\
    loadContext self1 contextId w1 = (Return JNull, self1) /\
    (forall other, other <> contextId ->
       map_get other (contexts self1) = map_get other (contexts self)) /\
    (separator_free contextId = true ->
     (forall name, name <> context_file contextId ->
        lookup_file name (files (storage w1)) = lookup_file name (files (storage w))) /\
     backups (storage w1) = backups (storage w)).
Proof.
  assert (Hgoal : exists self1 w1,
    deleteContext self contextId w = (self1, w1) /\
    loadContext self1 contextId w1 = (Return JNull, self1) /\
    (forall other, other <> contextId ->
       map_get other (contexts self1) = map_get other (contexts self)) /\
    (forall name, name <> context_file contextId ->
       lookup_file name (files (storage w1)) = lookup_file name (files (storage w))) /\
    backups (storage w1) = backups (storage w));
  [|destruct Hgoal as (self1 & w1 & H1 & H2 & H3 & H4 & H5);
    exists self1, w1; repeat split; assumption].
  set (self1 := with_contexts self (map_delete contextId (contexts self))).
  assert (Hmap : map_get contextId (contexts self1) = None)
    by apply map_get_delete_same.
  assert (Hothers : forall other, other <> contextId ->
            map_get other (contexts self1) = map_get other (contexts self)).
  { intros other Hne. apply map_get_delete_other. exact Hne. }
  unfold deleteContext. fold self1. unfold existsSync.
  destruct (memoryOnly self1) eqn:Hmem; cbn [negb].
  - exists self1, w. split; [reflexivity|]. split.
    + unfold loadContext. rewrite Hmap, Hmem. reflexivity.
    + repeat split; auto.
  - destruct (available (storage w)) eqn:Hav; cbn [andb].
    + destruct (lookup_file (context_file contextId) (files (storage w))) as [text|] eqn:Hf;
        cbn [try_catch].
      * eexists self1, _. split; [reflexivity|]. split.
        { apply loadContext_absent; [exact Hmap|].
          cbn [with_files storage files]. apply lookup_remove_same. }
        split; [exact Hothers|]. split; [|reflexivity].
        intros name Hne. cbn [with_files storage files].
        apply lookup_remove_file. congruence.
      * exists self1, w. split; [reflexivity|]. split.
        { apply loadContext_absent; assumption. }
        repeat split; auto.
    + exists self1, w. split; [reflexivity|]. split.
      * unfold loadContext, _loadContextFromDisk. rewrite Hmap, Hmem, Hav. reflexivity.
      * repeat split; auto.
Qed.

(** X5.  After [clearAll()] the vault lists no identifier and
    [loadContext] answers [null] for every identifier that holds no path
    separator: no context is left in memory and no [.ctx] unit in the
    storage directory.  The files of the backups directory are not
    touched. *)
Theorem clearAll_forgets_every_context
    {runtime : Runtime} (self : t) (w : world) :
  exists self1 w1,
    clearAll self w = (self1, w1) /\
    getAllContextIds self1 = [] /\
    (forall contextId, separator_free contextId = true ->
       loadContext self1 contextId w1 = (Return JNull, self1)) /\
    backups (storage w1) = backups (storage w).
Proof.
  set (self1 := with_contexts self []).
  unfold clearAll. fold self1.
  destruct (memoryOnly self1) eqn:Hmem; cbn [negb].
  - exists self1, w. repeat split.
    intros contextId _. unfold loadContext. cbn [self1 with_contexts contexts map_get].
    change (memoryOnly (with_contexts self [])) with (memoryOnly self1).
    rewrite Hmem. reflexivity.
  - destruct (available (storage w)) eqn:Hav; cbn [try_catch].
    + eexists self1, _. split; [reflexivity|]. split; [reflexivity|]. split; [|reflexivity].
      intros contextId _. apply loadContext_absent; [reflexivity|].
      cbn [with_files storage files]. rewrite unlink_each_lookup.
      destruct (existsb _ _) eqn:E; [reflexivity|].
      apply lookup_file_none. intros Hin.
      assert (Hc : existsb (String.eqb (context_file contextId))
                     (filter (endsWith ".ctx") (readdirSync (files (storage w)))) = true).
      { apply existsb_exists. exists (context_file contextId).
        split; [|apply String.eqb_refl].
        apply filter_In. split; [|apply context_file_is_ctx].
        unfold readdirSync.
        eapply Permutation_in; [apply Permutation_sym, readdir_order_permutation|].
        exact Hin. }
      congruence.
    + exists self1, w. repeat split.
      intros contextId _. unfold loadContext, _loadContextFromDisk.
      cbn [self1 with_contexts contexts map_get].
      change (memoryOnly (with_contexts self [])) with (memoryOnly self1).
      rewrite Hmem, Hav. reflexivity.
Qed.

(** X6.  A vault constructed while the medium is not available is in
    memory-only mode, and a vault in memory-only mode leaves the world as
    it is: [saveContext], [deleteContext] and [clearAll] change only the
    map in memory, [backup()] answers [undefined] and [restore] answers
    [false] without changing the vault. *)
Theorem memory_only_vault_leaves_storage
    {runtime : Runtime} (self : t) (w : world) (now : Z) (iv : string)
    (context timestamp contextId : jsval) :
  memoryOnly self = true ->
  snd (saveContext self iv context w) = w /\
  snd (deleteContext self contextId w) = w /\
  snd (clearAll self w) = w /\
  backup self now iv w = (Return undefined, w) /\
  restore self timestamp w = (Return false, self) /\
  (forall o generated w0,
      available (storage w0) = false ->
      memoryOnly (fst (constructor o generated w0)) = true).
Proof.
  intros Hmem. repeat split.
  - unfold saveContext. destruct context as [ctx|]; [|reflexivity].
    destruct (negb (truthy (Some ctx)) || negb (truthy (get "id" ctx))); [reflexivity|].
    cbn [with_contexts memoryOnly]. rewrite Hmem. reflexivity.
  - unfold deleteContext. cbn [with_contexts memoryOnly]. rewrite Hmem. reflexivity.
  - unfold clearAll. cbn [with_contexts memoryOnly]. rewrite Hmem. reflexivity.
  - unfold backup. rewrite Hmem. reflexivity.
  - unfold restore. rewrite Hmem. reflexivity.
  - intros o generated w0 Hav. unfold constructor, _initStorage, _startAutoBackup.
    rewrite Hav. destruct (backupEnabled _); reflexivity.
Qed.

Lemma memory_only_vault_leaves_storage_witness :
  memoryOnly fallback_vault = true /\
  @backup transparent_runtime fallback_vault 1700000000000%Z sample_iv empty_world =
    (Return undefined, empty_world) /\
  @restore transparent_runtime fallback_vault (Some JNull) empty_world =
    (Return false, fallback_vault).
Proof.
  assert (H : memoryOnly fallback_vault = true) by reflexivity.
  split; [exact H|].
  destruct (@memory_only_vault_leaves_storage transparent_runtime fallback_vault
              empty_world 1700000000000%Z sample_iv (Some research_context)
              (Some JNull) (Some (JStr "ctx-1")) H)
    as (_ & _ & _ & Hb & Hr & _).
  split; [exact Hb | exact Hr].
Defined.

Lemma skipn_length_le {A : Type} (n : nat) (l : list A) :
  List.length (keep n l) <= n.
Proof. unfold keep. rewrite length_skipn. lia. Qed.

Lemma backup_count
    {runtime : Runtime} (self : t) (now : Z) (iv : string) (w : world) :
  memoryOnly self = false ->
  available (storage w) = true ->
  NoDup (map fst (backups (storage w))) ->
  exists w1,
    backup self now iv w = (Return (Some (JNum now)), w1) /\
    List.length (snapshot_names w1) <= maxBackups (vault_config self) /\
    (forall name, is_bak name = false ->
       lookup_file name (backups (storage w1)) = lookup_file name (backups (storage w))) /\
    files (storage w1) = files (storage w).
Proof.
  intros Hmem Hav Hnd.
  destruct (encrypt_returns (vault_config self) iv
              (stringify (JObj [ ("timestamp", JNum now);
                                 ("contexts", JArr (map_values (contexts self))) ])))
    as [content Hc].
  set (d := backups (storage w)) in *.
  set (d1 := write_file (backup_file now) content d).
  set (names := sort_names (filter is_bak (readdirSync d1))).
  assert (Hnd1 : NoDup (map fst d1)) by (apply write_file_nodup; exact Hnd).
  assert (Hlisted : Permutation (filter is_bak (readdirSync d1)) (filter is_bak (map fst d1))).
  { apply permutation_filter. apply readdir_order_permutation. }
  assert (Hsorted : StronglySorted name_lt names).
  { apply sort_names_sorted.
    eapply Permutation_NoDup; [apply Permutation_sym; exact Hlisted|].
    apply NoDup_filter. exact Hnd1. }
  assert (Hperm : Permutation (filter is_bak (map fst d1)) names).
  { eapply perm_trans; [apply Permutation_sym; exact Hlisted|].
    apply Permutation_sym, sort_names_permutation. }
  exists (with_backups (with_backups w d1)
            (clean_loop (maxBackups (vault_config self)) names d1)).
  split.
  { unfold backup. rewrite Hmem. cbn [bind]. rewrite Hc, Hav.
    unfold _cleanOldBackups. cbn [with_backups storage available backups].
    rewrite Hav. cbn [try_catch]. reflexivity. }
  split.
  { unfold snapshot_names. cbn [with_backups storage backups].
    rewrite (Permutation_length (sort_names_permutation _)).
    rewrite (Permutation_length
               (clean_loop_keeps_last (maxBackups (vault_config self)) names d1
                  Hsorted Hperm)).
    apply skipn_length_le. }
  split; [|reflexivity].
  intros name Hname. cbn [with_backups storage backups].
  rewrite clean_loop_lookup_other.
  - apply lookup_write_other. intros E.
    rewrite <- E, backup_file_is_bak in Hname. discriminate.
  - intros Hin.
    assert (H : In name (filter is_bak (readdirSync d1))).
    { eapply Permutation_in; [apply sort_names_permutation | exact Hin]. }
    apply filter_In in H. destruct H as [_ H]. congruence.
Qed.

(** X7.  After a [backup()] on available storage the backups directory
    holds at most [maxBackups] snapshot units, whatever their names and
    however the platform lists them.  The call returns its timestamp;
    files of the backups directory that are not [.bak] units and the
    persisted contexts are left as they were. *)
Theorem backup_bounds_snapshot_count
    {runtime : Runtime} (self : t) (now : Z) (iv : string) (w : world) :
  memoryOnly self = false ->
  available (storage w) = true ->
  NoDup (map fst (backups (storage w))) ->
  exists w1,
    backup self now iv w = (Return (Some (JNum now)), w1) /\
    List.length (snapshot_names w1) <= maxBackups (vault_config self) /\
    (forall name, is_bak name = false ->
       lookup_file name (backups (storage w1)) = lookup_file name (backups (storage w))) /\
    files (storage w1) = files (storage w).
Proof.
  intros Hmem Hav Hnd.
  destruct (backup_count self now iv w Hmem Hav Hnd) as (w1 & Hb & Hlen & Hother & Hfiles).
  exists w1. repeat split; assumption.
Qed.

Lemma backup_bounds_snapshot_count_witness :
  memoryOnly running_vault = false /\
  available (storage running_world) = true /\
  NoDup (map fst (backups (storage running_world))) /\
  exists w1,
    @backup transparent_runtime running_vault 1700000000000%Z sample_iv running_world =
      (Return (Some (JNum 1700000000000%Z)), w1) /\
    List.length (snapshot_names w1) <= maxBackups (vault_config running_vault).
Proof.
  assert (H1 : memoryOnly running_vault = false) by reflexivity.
  assert (H2 : available (storage running_world) = true) by reflexivity.
  assert (H3 : NoDup (map fst (backups (storage running_world)))) by constructor.
  split; [exact H1|]. split; [exact H2|]. split; [exact H3|].
  destruct (@backup_bounds_snapshot_count transparent_runtime running_vault
              1700000000000%Z sample_iv running_world H1 H2 H3)
    as (w1 & Hb & Hlen & _).
  exists w1. split; [exact Hb | exact Hlen].
Defined.

(** X8.  The timestamp that [backup()] returns names the snapshot: a
    [restore] with that timestamp, by a vault that uses the same key and
    encryption setting, brings back exactly the contexts held when the
    backup was made.  The vault keeps at least one backup, holds each
    context under its own identifier, and the backup is later than the
    snapshots already there.  The contexts are JSON values of the model:
    null, booleans, integers, strings, arrays and objects. *)
Theorem backup_then_restore_by_timestamp
    {runtime : Runtime} (self other : t) (now : Z) (iv : string) (w : world)
    (old : list Z) (k : nat) :
  memoryOnly self = false ->
  available (storage w) = true ->
  snapshot_names w = map backup_file old ->
  StronglySorted Z.lt (old ++ [now]) ->
  Forall (prints_with k) (old ++ [now]) ->
  1 <= maxBackups (vault_config self) ->
  now <> 0%Z ->
  Forall entry_ok (contexts self) ->
  keys_distinct (contexts self) = true ->
  memoryOnly other = false ->
  encryptionKey (vault_config other) = encryptionKey (vault_config self) ->
  encryptionEnabled (vault_config other) = encryptionEnabled (vault_config self) ->
  exists w1,
    backup self now iv w = (Return (Some (JNum now)), w1) /\
    restore other (Some (JNum now)) w1 =
      (Return true, with_contexts other (contexts self)).
Proof.
  intros Hmem Hav Hold Hsorted Hwidth Hmax Hnow Hok Hkeys Hmem' Hkey Hen.
  assert (Hnames : StronglySorted name_lt (map backup_file old ++ [backup_file now])).
  { change [backup_file now] with (map backup_file [now]). rewrite <- map_app.
    eapply backup_files_increasing; eassumption. }
  destruct (backup_step self now iv w _ Hmem Hav Hold Hnames)
    as (content & w1 & Henc & Hb & Hav1 & _ & _ & _ & Hlook & _).
  destruct (last_keep_app (maxBackups (vault_config self))
              (map backup_file old) (backup_file now) Hmax) as (_ & _ & Hin).
  specialize (Hlook Hin).
  exists w1. split; [exact Hb|].
  assert (Hlisted : In (backup_file now) (filter is_bak (readdirSync (backups (storage w1))))).
  { apply filter_In. split; [|apply backup_file_is_bak].
    unfold readdirSync.
    eapply Permutation_in; [apply Permutation_sym, readdir_order_permutation|].
    eapply lookup_file_in. exact Hlook. }
  unfold restore. rewrite Hmem', Hav1. cbn [negb].
  destruct (filter is_bak (readdirSync (backups (storage w1)))) as [|n0 names];
    [contradiction|].
  assert (Ht : truthy (Some (JNum now)) = true).
  { simpl. apply negb_true_iff, Z.eqb_neq. exact Hnow. }
  rewrite Ht.
  change ("backup_" ++ to_string (Some (JNum now)) ++ ".bak") with (backup_file now).
  rewrite Hlook.
  rewrite (encrypted_not_empty _ _ _ _ Henc).
  rewrite (decrypt_of_encrypted (vault_config self) (vault_config other) iv _ content
             Hkey Hen Henc).
  cbn [bind]. rewrite parse_stringify.
  - cbn [get assoc]. change (String.eqb "timestamp" "contexts") with false.
    change (String.eqb "contexts" "contexts") with true. cbv iota.
    rewrite (restore_each_values (contexts self) [] Hok Hkeys). reflexivity.
  - change (forallb well_formed (map_values (contexts self)) && true = true).
    rewrite values_well_formed by exact Hok. reflexivity.
Qed.

Lemma backup_then_restore_by_timestamp_witness :
  exists w1,
    @backup transparent_runtime running_vault 1700000000000%Z sample_iv running_world =
      (Return (Some (JNum 1700000000000%Z)), w1) /\
    @restore transparent_runtime sample_vault (Some (JNum 1700000000000%Z)) w1 =
      (Return true, with_contexts sample_vault (contexts running_vault)).
Proof.
  assert (H4 : StronglySorted Z.lt ([] ++ [1700000000000%Z])).
  { apply SSorted_cons; [apply SSorted_nil | apply Forall_nil]. }
  assert (H5 : Forall (prints_with 13) ([] ++ [1700000000000%Z])).
  { apply Forall_cons; [split; [lia | reflexivity] | apply Forall_nil]. }
  assert (H6 : 1 <= maxBackups (vault_config running_vault)) by (simpl; lia).
  assert (H7 : 1700000000000%Z <> 0%Z) by lia.
  assert (H8 : Forall entry_ok (contexts running_vault)).
  { repeat (apply Forall_cons;
            [split; [discriminate | split; reflexivity]|]). apply Forall_nil. }
  exact (@backup_then_restore_by_timestamp transparent_runtime running_vault sample_vault
           1700000000000%Z sample_iv running_world [] 13
           eq_refl eq_refl eq_refl H4 H5 H6 H7 H8 eq_refl eq_refl eq_refl eq_refl).
Defined.

Lemma restore_no_units {runtime : Runtime} (self : t) (timestamp : jsval) (w : world) :
  filter is_bak (map fst (backups (storage w))) = [] ->
  restore self timestamp w = (Return false, self).
Proof.
  intros H. unfold restore.
  destruct (memoryOnly self); [reflexivity|].
  destruct (available (storage w)); [|reflexivity]. cbn [negb].
  destruct (filter is_bak (readdirSync (backups (storage w)))) as [|n0 names] eqn:E;
    [reflexivity|].
  assert (Hp : Permutation (filter is_bak (readdirSync (backups (storage w))))
                 (filter is_bak (map fst (backups (storage w)))))
    by (apply permutation_filter, readdir_order_permutation).
  rewrite E, H in Hp. apply Permutation_sym, Permutation_nil in Hp. discriminate.
Qed.

(** X9.  [restore] answers [false] and leaves the vault as it is when the
    backups directory holds no snapshot unit, and when a timestamp is
    given for which there is no unit. *)
Theorem restore_without_snapshot
    {runtime : Runtime} (self : t) (timestamp : jsval) (w : world) :
  filter is_bak (map fst (backups (storage w))) = [] \/
  (truthy timestamp = true /\
   lookup_file ("backup_" ++ to_string timestamp ++ ".bak") (backups (storage w)) = None) ->
  restore self timestamp w = (Return false, self).
Proof.
  intros [H | [Ht Hf]]; [apply restore_no_units; exact H|].
  unfold restore.
  destruct (memoryOnly self); [reflexivity|].
  destruct (available (storage w)); [|reflexivity]. cbn [negb].
  destruct (filter is_bak (readdirSync (backups (storage w)))) as [|n0 names];
    [reflexivity|].
  rewrite Ht, Hf. reflexivity.
Qed.

Lemma restore_without_snapshot_witness :
  @restore transparent_runtime running_vault (Some JNull) running_world =
    (Return false, running_vault).
Proof.
  exact (@restore_without_snapshot transparent_runtime running_vault (Some JNull)
           running_world (or_introl eq_refl)).
Defined.

(** X10.  [restore] is not atomic.  When the chosen snapshot decrypts and
    parses to an object that has no array under [contexts], the call
    answers [false], yet the contexts that the vault held are gone: the
    map is cleared before the snapshot's contexts are read. *)
Theorem restore_malformed_snapshot_clears
    {runtime : Runtime} (self : t) (stamp : Z) (w : world) (m : list (string * value)) :
  memoryOnly self = false ->
  available (storage w) = true ->
  stamp <> 0%Z ->
  lookup_file (backup_file stamp) (backups (storage w)) = Some (stringify (JObj m)) ->
  well_formed (JObj m) = true ->
  (forall items, assoc "contexts" m <> Some (JArr items)) ->
  decrypt_if_enabled (vault_config self) (stringify (JObj m)) = Return (stringify (JObj m)) ->
  restore self (Some (JNum stamp)) w = (Return false, with_contexts self []).
Proof.
  intros Hmem Hav Hstamp Hfile Hwf Hno Hdec.
  assert (Hlisted : In (backup_file stamp) (filter is_bak (readdirSync (backups (storage w))))).
  { apply filter_In. split; [|apply backup_file_is_bak].
    unfold readdirSync.
    eapply Permutation_in; [apply Permutation_sym, readdir_order_permutation|].
    eapply lookup_file_in. exact Hfile. }
  unfold restore. rewrite Hmem, Hav. cbn [negb].
  destruct (filter is_bak (readdirSync (backups (storage w)))) as [|n0 names];
    [contradiction|].
  assert (Ht : truthy (Some (JNum stamp)) = true).
  { simpl. apply negb_true_iff, Z.eqb_neq. exact Hstamp. }
  rewrite Ht.
  change ("backup_" ++ to_string (Some (JNum stamp)) ++ ".bak") with (backup_file stamp).
  rewrite Hfile.
  destruct (stringify_head (JObj m)) as (c & s & E & _).
  rewrite E at 1. cbn [String.eqb].
  rewrite Hdec. cbn [bind]. rewrite (parse_stringify _ Hwf). cbn [get].
  destruct (assoc "contexts" m) as [[| | | | items |]|] eqn:Ea; try reflexivity.
  exfalso. exact (Hno items eq_refl).
Qed.

Lemma restore_malformed_snapshot_clears_witness :
  @restore transparent_runtime running_vault (Some (JNum 1700000000000%Z))
    (mkWorld (mkDisk true [] [("backup_1700000000000.bak", "{}")]) [0] 1) =
    (Return false, with_contexts running_vault []).
Proof.
  assert (H3 : 1700000000000%Z <> 0%Z) by lia.
  assert (H6 : forall items, assoc "contexts" [] <> Some (JArr items))
    by (intros items; discriminate).
  exact (@restore_malformed_snapshot_clears transparent_runtime running_vault
           1700000000000%Z
           (mkWorld (mkDisk true [] [("backup_1700000000000.bak", "{}")]) [0] 1) []
           eq_refl eq_refl H3 eq_refl eq_refl H6 eq_refl).
Defined.

(** X29.  A vault configured with [maxBackups: 0] keeps no snapshot: the
    default of 10 does not apply, since the caller's own value is copied
    over it.  [backup()] still returns its timestamp, but the unit it
    wrote is removed again at once, and a [restore] afterwards answers
    [false]. *)
Theorem zero_maxBackups_keeps_no_snapshot
    {runtime : Runtime} (self : t) (now : Z) (iv : string) (w : world) :
  maxBackups (vault_config self) = 0 ->
  memoryOnly self = false ->
  available (storage w) = true ->
  NoDup (map fst (backups (storage w))) ->
  (forall o generated w0,
      opt_maxBackups o = Some 0 ->
      maxBackups (vault_config (fst (constructor o generated w0))) = 0) /\
  exists w1,
    backup self now iv w = (Return (Some (JNum now)), w1) /\
    snapshot_names w1 = [] /\
    forall other timestamp, restore other timestamp w1 = (Return false, other).
Proof.
  intros Hmax Hmem Hav Hnd. split.
  { intros o generated w0 Ho. unfold constructor, _initStorage, _startAutoBackup.
    rewrite Ho. cbn [spread].
    destruct (spread (opt_backupEnabled o) (not_false (opt_backupEnabled o)));
      destruct (available (storage w0)); reflexivity. }
  destruct (backup_count self now iv w Hmem Hav Hnd) as (w1 & Hb & Hlen & _).
  rewrite Hmax in Hlen.
  assert (Hnone : snapshot_names w1 = []).
  { destruct (snapshot_names w1); [reflexivity | simpl in Hlen; lia]. }
  exists w1. split; [exact Hb|]. split; [exact Hnone|].
  intros other timestamp. apply restore_no_units.
  unfold snapshot_names in Hnone.
  pose proof (sort_names_permutation (filter is_bak (map fst (backups (storage w1))))) as Hp.
  rewrite Hnone in Hp. apply Permutation_nil in Hp. exact Hp.
Qed.

Lemma zero_maxBackups_keeps_no_snapshot_witness :
  exists w1,
    @backup transparent_runtime
      (fst (constructor (mkOptions None None (Some sample_key) (Some false) None (Some 0))
              "" empty_world))
      1700000000000%Z sample_iv empty_world =
      (Return (Some (JNum 1700000000000%Z)), w1) /\
    snapshot_names w1 = [].
Proof.
  assert (H4 : NoDup (map fst (backups (storage empty_world)))) by constructor.
  destruct (@zero_maxBackups_keeps_no_snapshot transparent_runtime
              (fst (constructor (mkOptions None None (Some sample_key) (Some false) None
                                   (Some 0)) "" empty_world))
              1700000000000%Z sample_iv empty_world eq_refl eq_refl eq_refl H4)
    as (_ & w1 & Hb & Hn & _).
  exists w1. split; [exact Hb | exact Hn].
Defined.

(* ------------------------------------------------------------------ *)
(** ** The bridge: connections, normalisation and bridging *)

Section BridgingFacts.
Import ContextBridge Bridging.

Lemma lookup_update_other (key other : string) (p : platform) (ps : list (string * platform)) :
  other <> key -> lookup other (update key p ps) = lookup other ps.
Proof.
  intros Hne. induction ps as [|[k q] ps IH]; simpl; [reflexivity|].
  destruct (String.eqb k key) eqn:E; simpl.
  - apply String.eqb_eq in E. subst k.
    destruct (String.eqb key other) eqn:E2; [|reflexivity].
    apply String.eqb_eq in E2. congruence.
  - rewrite IH. reflexivity.
Qed.

Lemma update_keys (key : string) (p : platform) (ps : list (string * platform)) :
  map fst (update key p ps) = map fst ps.
Proof.
  induction ps as [|[k q] ps IH]; simpl; [reflexivity|].
  destruct (String.eqb k key); simpl; [reflexivity | now rewrite IH].
Qed.

Lemma lookup_absent (key : string) (ps : list (string * platform)) :
  ~ In key (map fst ps) -> lookup key ps = None.
Proof.
  induction ps as [|[k q] ps IH]; simpl; [reflexivity|]. intros H.
  destruct (String.eqb k key) eqn:E.
  - apply String.eqb_eq in E. exfalso. apply H. left. exact E.
  - apply IH. intros Hin. apply H. right. exact Hin.
Qed.

Lemma disconnect_off (b : t) (key : string) :
  is_connected (snd (disconnect b key)) key = false.
Proof.
  unfold disconnect, is_connected.
  destruct (lookup key (platforms b)) as [p|] eqn:E; cbn [snd platforms].
  - rewrite lookup_update_same by congruence. reflexivity.
  - rewrite E. reflexivity.
Qed.

Lemma disconnect_other (b : t) (key other : string) :
  other <> key ->
  lookup other (platforms (snd (disconnect b key))) = lookup other (platforms b).
Proof.
  intros Hne. unfold disconnect.
  destruct (lookup key (platforms b)) as [p|]; cbn [snd platforms]; [|reflexivity].
  apply lookup_update_other. exact Hne.
Qed.

Lemma disconnect_stays_off (b : t) (key other : string) :
  is_connected b other = false -> is_connected (snd (disconnect b key)) other = false.
Proof.
  intros H. destruct (string_dec other key) as [-> | Hne]; [apply disconnect_off|].
  unfold is_connected in *. rewrite disconnect_other by exact Hne. exact H.
Qed.

Lemma disconnect_keys (b : t) (key : string) :
  map fst (platforms (snd (disconnect b key))) = map fst (platforms b).
Proof.
  unfold disconnect. destruct (lookup key (platforms b)); cbn [snd platforms];
    [apply update_keys | reflexivity].
Qed.

Lemma disconnect_each (keys : list string) (b : t) :
  let b' := fold_left (fun acc key => snd (disconnect acc key)) keys b in
  (forall key, In key keys -> is_connected b' key = false) /\
  (forall key, is_connected b key = false -> is_connected b' key = false) /\
  map fst (platforms b') = map fst (platforms b).
Proof.
  revert b. induction keys as [|k keys IH]; intros b; cbn [fold_left].
  - repeat split; auto. intros key [].
  - destruct (IH (snd (disconnect b k))) as (H1 & H2 & H3). repeat split.
    + intros key [<- | Hin]; [apply H2, disconnect_off | apply H1; exact Hin].
    + intros key Hoff. apply H2, disconnect_stays_off. exact Hoff.
    + rewrite H3. apply disconnect_keys.
Qed.

(** X11.  Connecting a platform of the bridge and then switching to it
    succeeds: the switch reports the identifier drawn at connection and
    the platform that was active before, makes the platform the active
    context and appends one entry to the history, so that [getStats]
    counts one switch more and lists the platform as connected. *)
Theorem connect_then_switchContext
    (b : t) (fresh now key : string) (transferContext : bool) :
  lookup key (platforms b) <> None ->
  exists b1 b2,
    connect b fresh key = (Return true, b1) /\
    switchContext b1 now key transferContext =
      (Return (mkSwitch true key (activeContext b) (Some fresh)), b2) /\
    activeContext b2 = Some key /\
    contextHistory b2 =
      (contextHistory b ++ [mkEntry now (activeContext b) key transferContext])%list /\
    totalSwitches (getStats b2) = S (totalSwitches (getStats b)) /\
    In key (connectedPlatforms (getStats b2)).
Proof.
  intros Hk. unfold connect.
  destruct (lookup key (platforms b)) as [p|] eqn:E; [|congruence].
  set (b1 := {| platforms := update key (mkPlatform (name p) true (Some fresh)) (platforms b);
                activeContext := activeContext b;
                contextHistory := contextHistory b |}).
  assert (Hl : lookup key (platforms b1) = Some (mkPlatform (name p) true (Some fresh))).
  { unfold b1. cbn [platforms]. apply lookup_update_same. congruence. }
  assert (Hc : is_connected b1 key = true) by (unfold is_connected; rewrite Hl; reflexivity).
  eexists b1, _. split; [reflexivity|].
  unfold switchContext. rewrite Hc, Hl. cbn [negb contextId].
  split; [reflexivity|]. split; [reflexivity|]. split; [reflexivity|].
  split.
  - unfold getStats. cbn [totalSwitches contextHistory b1]. rewrite length_app. simpl. lia.
  - unfold getStats. cbn [connectedPlatforms platforms].
    apply filter_In. split.
    + unfold b1. cbn [platforms]. rewrite update_keys.
      clear - E. induction (platforms b) as [|[k q] ps IH]; simpl in *; [discriminate|].
      destruct (String.eqb k key) eqn:Ek; [left; apply String.eqb_eq; exact Ek|].
      right. apply IH. exact E.
    + unfold is_connected. cbn [platforms]. fold b1. rewrite Hl. reflexivity.
Qed.

Lemma connect_then_switchContext_witness :
  exists b1 b2,
    connect ContextBridge.constructor "claude-1700000000000-k3j9x2m1q" "claude" =
      (Return true, b1) /\
    switchContext b1 "2024-01-01T00:00:00.000Z" "claude" true =
      (Return (mkSwitch true "claude" None (Some "claude-1700000000000-k3j9x2m1q")), b2) /\
    activeContext b2 = Some "claude".
Proof.
  assert (H : lookup "claude" (platforms ContextBridge.constructor) <> None)
    by discriminate.
  destruct (connect_then_switchContext ContextBridge.constructor
              "claude-1700000000000-k3j9x2m1q" "2024-01-01T00:00:00.000Z" "claude" true H)
    as (b1 & b2 & H1 & H2 & H3 & _).
  exists b1, b2. split; [exact H1|]. split; [exact H2 | exact H3].
Defined.

(** X12.  After [disconnect] of a platform of the bridge, a switch to it
    is rejected.  [disconnect] answers [true], clears the active context
    exactly when it was that platform, and leaves the other platforms and
    the history as they were; on a name that is no platform, and that the
    object of platforms does not inherit either, it answers [false] and
    changes nothing. *)
Theorem disconnect_then_switchContext_rejected
    (b : t) (now key : string) (transferContext : bool) :
  (lookup key (platforms b) = None -> inherited key = false ->
   disconnect b key = (false, b)) /\
  (lookup key (platforms b) <> None ->
   exists b1,
     disconnect b key = (true, b1) /\
     switchContext b1 now key transferContext =
       (Throw (Error ("Platform " ++ key ++ " is not connected")), b1) /\
     (activeContext b = Some key -> activeContext b1 = None) /\
     (activeContext b <> Some key -> activeContext b1 = activeContext b) /\
     (forall other, other <> key ->
        lookup other (platforms b1) = lookup other (platforms b)) /\
     contextHistory b1 = contextHistory b).
Proof.
  split.
  - intros E _. unfold disconnect. rewrite E. reflexivity.
  - intros Hk.
    pose proof (disconnect_off b key) as Hoff.
    pose proof (fun other => disconnect_other b key other) as Hother.
    unfold disconnect in *.
    destruct (lookup key (platforms b)) as [p|] eqn:E; [|congruence].
    cbn [snd] in Hoff, Hother.
    eexists. split; [reflexivity|].
    split; [unfold switchContext; rewrite Hoff; reflexivity|].
    cbn [activeContext].
    split; [intros ->; rewrite String.eqb_refl; reflexivity|].
    split; [|split; [exact Hother | reflexivity]].
    intros Hne. destruct (activeContext b) as [a|]; [|reflexivity].
    destruct (String.eqb a key) eqn:Ea; [|reflexivity].
    apply String.eqb_eq in Ea. congruence.
Qed.

Lemma disconnect_then_switchContext_rejected_witness :
  exists b1,
    disconnect
      (snd (connect ContextBridge.constructor
              "claude-1700000000000-k3j9x2m1q" "claude")) "claude" = (true, b1) /\
    switchContext b1 "2024-01-01T00:00:00.000Z" "claude" true =
      (Throw (Error "Platform claude is not connected"), b1).
Proof.
  assert (H : lookup "claude"
                (platforms
                   (snd (connect ContextBridge.constructor
                           "claude-1700000000000-k3j9x2m1q" "claude"))) <> None)
    by discriminate.
  destruct (proj2 (disconnect_then_switchContext_rejected
                     (snd (connect ContextBridge.constructor
                             "claude-1700000000000-k3j9x2m1q" "claude"))
                     "2024-01-01T00:00:00.000Z" "claude" true) H)
    as (b1 & H1 & H2 & _).
  exists b1. split; [exact H1 | exact H2].
Defined.

(** X13.  After [disconnectAll()] no platform is connected, so a switch
    to any name is rejected, the names that the object of platforms
    inherits apart ([disconnectAll] visits the own keys only); the active
    context and the history are reset and the platforms of the bridge are
    the same names as before. *)
Theorem disconnectAll_disconnects_everything (b : t) :
  (forall key, inherited key = false -> is_connected (disconnectAll b) key = false) /\
  (forall now key transferContext,
      inherited key = false ->
      switchContext (disconnectAll b) now key transferContext =
        (Throw (Error ("Platform " ++ key ++ " is not connected")), disconnectAll b)) /\
  connectedPlatforms (getStats (disconnectAll b)) = [] /\
  activeContext (disconnectAll b) = None /\
  contextHistory (disconnectAll b) = [] /\
  map fst (platforms (disconnectAll b)) = map fst (platforms b).
Proof.
  destruct (disconnect_each (map fst (platforms b)) b) as (H1 & H2 & H3).
  assert (Hoff : forall key, is_connected (disconnectAll b) key = false).
  { intros key. unfold disconnectAll, is_connected. cbn [platforms].
    destruct (in_dec string_dec key (map fst (platforms b))) as [Hin | Hout].
    - apply (H1 key Hin).
    - apply H2. unfold is_connected. rewrite lookup_absent by exact Hout. reflexivity. }
  split; [intros key _; apply Hoff|]. split.
  { intros now key tc _. unfold switchContext. rewrite Hoff. reflexivity. }
  split.
  { unfold getStats. cbn [connectedPlatforms].
    induction (map fst (platforms (disconnectAll b))) as [|k ks IH]; simpl;
      [reflexivity|]. rewrite Hoff. exact IH. }
  split; [reflexivity|]. split; [reflexivity|]. exact H3.
Qed.

(** *** Normalisation *)

Lemma or_else_truthy (a : jsval) (d : value) :
  truthy (Some d) = true -> truthy (Some (or_else a d)) = true.
Proof.
  intros Hd. unfold or_else. destruct a as [v|]; [|exact Hd].
  destruct (truthy (Some v)) eqn:E; [exact E | exact Hd].
Qed.

Lemma or_else_empty (a : jsval) :
  truthy (Some (or_else a (JStr ""))) = true \/ or_else a (JStr "") = JStr "".
Proof.
  unfold or_else. destruct a as [v|]; [|right; reflexivity].
  destruct (truthy (Some v)) eqn:E; [left; exact E | right; reflexivity].
Qed.

Lemma map_messages_each (f : nat -> value -> value) (P : value -> Prop) (l : list value) :
  (forall i msg, P (f i msg)) ->
  Forall (fun msg => msg <> JNull) l ->
  forall i, exists out,
    map_messages f i l = Return out /\
    List.length out = List.length l /\ Forall P out.
Proof.
  intros Hf Hl. induction Hl as [|msg l Hmsg _ IH]; intros i.
  - exists []. repeat split. constructor.
  - destruct (IH (S i)) as (out & E & Hlen & Hall).
    exists (f i msg :: out). split.
    + destruct msg; try congruence; simpl; rewrite E; reflexivity.
    + split; [simpl; congruence | constructor; [apply Hf | exact Hall]].
Qed.

Lemma messages_of_array (data : value) (l : list value) :
  get "messages" data = Some (JArr l) -> messages_of data = Return l.
Proof. intros H. unfold messages_of. rewrite H. reflexivity. Qed.

Lemma normalized_shape (role content : jsval) (timestamp : value) :
  normalized_message
    (message (or_else role (JStr "user")) (or_else content (JStr "")) timestamp).
Proof.
  exists (or_else role (JStr "user")), (or_else content (JStr "")), timestamp.
  split; [reflexivity|]. split; [|apply or_else_empty].
  apply or_else_truthy. reflexivity.
Qed.

Lemma normalize_known (fresh now : string) (clock : nat -> string)
    (data : value) (p : string) (l : list value) :
  known_platform p ->
  get "messages" data = Some (JArr l) ->
  Forall (fun msg => msg <> JNull) l ->
  exists out,
    normalizeConversation fresh now clock data (JStr p) =
      Return (mkConversation (or_else (get "id" data) (JStr fresh)) (JStr p)
                (or_else (get "timestamp" data) (JStr now)) (JArr out) (JObj [])) /\
    List.length out = List.length l /\
    Forall normalized_message out.
Proof.
  intros Hp Hm Hl.
  assert (Hdata : data <> JNull) by (intros ->; discriminate).
  unfold normalizeConversation.
  destruct Hp as [-> | [-> | [-> | ->]]]; cbn [String.eqb Ascii.eqb Bool.eqb andb].
  - destruct (map_messages_each
                (fun i msg =>
                   message (or_else (get "role" msg) (JStr "user"))
                           (or_else (get "content" msg) (JStr ""))
                           (or_else (get "create_time" msg) (JStr (clock i))))
                normalized_message l
                (fun i msg => normalized_shape _ _ _)
                Hl 0) as (out & E & Hlen & Hall).
    exists out. unfold _normalizeChatGPT. rewrite (messages_of_array _ _ Hm).
    cbn [bind]. rewrite E. cbn [bind]. destruct data; try congruence; auto.
  - destruct (map_messages_each
                (fun i msg =>
                   message (or_else (get "sender" msg) (JStr "user"))
                           (or_else (get "text" msg) (JStr ""))
                           (or_else (get "created_at" msg) (JStr (clock i))))
                normalized_message l
                (fun i msg => normalized_shape _ _ _)
                Hl 0) as (out & E & Hlen & Hall).
    exists out. unfold _normalizeClaude. rewrite (messages_of_array _ _ Hm).
    cbn [bind]. rewrite E. cbn [bind]. destruct data; try congruence; auto.
  - destruct (map_messages_each
                (fun i msg =>
                   message (or_else (get "author" msg) (JStr "user"))
                           (or_else (get "text" msg) (JStr ""))
                           (or_else (get "timestamp" msg) (JStr (clock i))))
                normalized_message l
                (fun i msg => normalized_shape _ _ _)
                Hl 0) as (out & E & Hlen & Hall).
    exists out. unfold _normalizePerplexity. rewrite (messages_of_array _ _ Hm).
    cbn [bind]. rewrite E. cbn [bind]. destruct data; try congruence; auto.
  - destruct (map_messages_each
                (fun i msg =>
                   message (or_else (get "role" msg) (JStr "user"))
                           (or_else (text_of (first_part (get "parts" msg))) (JStr ""))
                           (or_else (get "timestamp" msg) (JStr (clock i))))
                normalized_message l
                (fun i msg => normalized_shape _ _ _)
                Hl 0) as (out & E & Hlen & Hall).
    exists out. unfold _normalizeGemini. rewrite (messages_of_array _ _ Hm).
    cbn [bind]. rewrite E. cbn [bind]. destruct data; try congruence; auto.
Qed.


Lemma map_messages_null (f : nat -> value -> value) (l : list value) :
  In JNull l -> forall i, raises (map_messages f i l) = true.
Proof.
  induction l as [|msg l IH]; intros Hin i; [destruct Hin|].
  destruct Hin as [-> | Hin]; [reflexivity|].
  specialize (IH Hin (S i)).
  destruct msg; try reflexivity; simpl;
    destruct (map_messages f (S i) l); (discriminate || reflexivity).
Qed.

Lemma unknown_platform_tests (p : string) :
  ~ known_platform p ->
  String.eqb p "chatgpt" = false /\ String.eqb p "claude" = false /\
  String.eqb p "perplexity" = false /\ String.eqb p "gemini" = false.
Proof.
  intros H. unfold known_platform in H.
  repeat split; apply String.eqb_neq; intros ->; apply H; auto.
Qed.

Lemma normalize_unknown (fresh now : string) (clock : nat -> string)
    (data : value) (p : string) :
  data <> JNull -> ~ known_platform p ->
  normalizeConversation fresh now clock data (JStr p) =
    Return (mkConversation (or_else (get "id" data) (JStr fresh)) (JStr p)
              (or_else (get "timestamp" data) (JStr now))
              (or_else (get "messages" data) (JArr [])) (JObj [])).
Proof.
  intros Hd Hp. destruct (unknown_platform_tests p Hp) as (E1 & E2 & E3 & E4).
  unfold normalizeConversation. rewrite E1, E2, E3, E4.
  destruct data; congruence.
Qed.

(** X14.  [normalizeConversation] of a conversation whose [messages] is
    an array.  For one of the four platforms the result holds as many
    messages as the input, in the shape [{role, content, timestamp}], with
    a role that is never missing and a content that is never missing
    (the empty string stands in); a [null] among the messages makes the
    call raise.  For any other platform name, and for [null], the messages
    are handed back as they are. *)
Theorem normalizeConversation_messages
    (fresh now : string) (clock : nat -> string) (data : value) (l : list value) :
  get "messages" data = Some (JArr l) ->
  (forall p, known_platform p -> Forall (fun msg => msg <> JNull) l ->
     exists out,
       normalizeConversation fresh now clock data (JStr p) =
         Return (mkConversation (or_else (get "id" data) (JStr fresh)) (JStr p)
                   (or_else (get "timestamp" data) (JStr now)) (JArr out) (JObj [])) /\
       List.length out = List.length l /\
       Forall normalized_message out) /\
  (forall p, known_platform p -> In JNull l ->
     raises (normalizeConversation fresh now clock data (JStr p)) = true) /\
  (forall p, ~ known_platform p ->
     normalizeConversation fresh now clock data (JStr p) =
       Return (mkConversation (or_else (get "id" data) (JStr fresh)) (JStr p)
                 (or_else (get "timestamp" data) (JStr now)) (JArr l) (JObj []))) /\
  normalizeConversation fresh now clock data JNull =
    Return (mkConversation (or_else (get "id" data) (JStr fresh)) JNull
              (or_else (get "timestamp" data) (JStr now)) (JArr l) (JObj [])).
Proof.
  intros Hm.
  assert (Hdata : data <> JNull) by (intros ->; discriminate).
  assert (Hor : or_else (get "messages" data) (JArr []) = JArr l)
    by (rewrite Hm; reflexivity).
  split; [intros p Hp Hl; apply normalize_known; assumption|].
  split.
  { intros p Hp Hnull. unfold normalizeConversation.
    pose proof (fun f => map_messages_null f l Hnull 0) as Hraise.
    destruct Hp as [-> | [-> | [-> | ->]]]; cbn [String.eqb Ascii.eqb Bool.eqb andb];
      unfold _normalizeChatGPT, _normalizeClaude, _normalizePerplexity, _normalizeGemini;
      rewrite (messages_of_array _ _ Hm); cbn [bind];
      match goal with
      | |- context [map_messages ?f 0 l] =>
          specialize (Hraise f); destruct (map_messages f 0 l); [discriminate|]
      end;
      destruct data; try congruence; reflexivity. }
  split.
  { intros p Hp. rewrite normalize_unknown by assumption. rewrite Hor. reflexivity. }
  unfold normalizeConversation. rewrite Hor. destruct data; congruence.
Qed.

Lemma normalizeConversation_messages_witness :
  exists out,
    normalizeConversation "1700000000000-a1b2c3d4e" "2024-01-01T00:00:00.000Z"
      (fun _ => "2024-01-01T00:00:00.000Z")
      (JObj [ ("messages",
               JArr [ JObj [ ("sender", JStr "assistant"); ("text", JStr "Hello") ];
                      JObj [ ("text", JStr "Hi") ] ]) ])
      (JStr "claude") =
      Return (mkConversation (JStr "1700000000000-a1b2c3d4e") (JStr "claude")
                (JStr "2024-01-01T00:00:00.000Z") (JArr out) (JObj [])) /\
    List.length out = 2 /\
    Forall normalized_message out.
Proof.
  assert (Hp : known_platform "claude") by (right; left; reflexivity).
  assert (Hl : Forall (fun msg => msg <> JNull)
                 [ JObj [ ("sender", JStr "assistant"); ("text", JStr "Hello") ];
                   JObj [ ("text", JStr "Hi") ] ]).
  { repeat (apply Forall_cons; [discriminate|]). apply Forall_nil. }
  exact (proj1 (normalizeConversation_messages "1700000000000-a1b2c3d4e"
                  "2024-01-01T00:00:00.000Z" (fun _ => "2024-01-01T00:00:00.000Z")
                  (JObj [ ("messages",
                           JArr [ JObj [ ("sender", JStr "assistant");
                                         ("text", JStr "Hello") ];
                                  JObj [ ("text", JStr "Hi") ] ]) ])
                  _ eq_refl) "claude" Hp Hl).
Defined.

(** *** Bridging *)

Lemma run_callbacks_fulfilled (cs : list callback) (conv : live) :
  (forall cb c, In cb cs -> fst (cb c) = Return tt) ->
  exists final, run_callbacks cs conv = (Return tt, final).
Proof.
  revert conv. induction cs as [|cb cs IH]; intros conv H.
  - exists conv. reflexivity.
  - simpl. pose proof (H cb conv (or_introl eq_refl)) as E.
    destruct (cb conv) as [[[]|e] conv']; [|discriminate].
    apply IH. intros c c' Hc. apply H. right. exact Hc.
Qed.

(** Callbacks that leave the conversation as it is. *)
Lemma run_callbacks_unchanged (cs : list callback) (conv : live) :
  (forall cb c, In cb cs -> fst (cb c) = Return tt) ->
  (forall cb c, In cb cs -> snd (cb c) = c) ->
  run_callbacks cs conv = (Return tt, conv).
Proof.
  induction cs as [|cb cs IH]; intros H1 H2; [reflexivity|]. simpl.
  pose proof (H1 cb conv (or_introl eq_refl)) as E1.
  pose proof (H2 cb conv (or_introl eq_refl)) as E2.
  destruct (cb conv) as [[[]|e] conv']; [|discriminate].
  cbn [snd] in E2. subst conv'.
  apply IH; intros c c' Hc; [apply H1 | apply H2]; right; exact Hc.
Qed.

Lemma run_callbacks_app (cs : list callback) (cb : callback) (conv : live) :
  run_callbacks (cs ++ [cb])%list conv =
  match run_callbacks cs conv with
  | (Return _, conv') =>
      match cb conv' with
      | (Return _, final) => (Return tt, final)
      | (Throw e, final) => (Throw e, final)
      end
  | (Throw e, conv') => (Throw e, conv')
  end.
Proof.
  revert conv. induction cs as [|c cs IH]; intros conv; simpl.
  - destruct (cb conv) as [[[]|e] final]; reflexivity.
  - destruct (c conv) as [[[]|e] conv']; [apply IH | reflexivity].
Qed.

Lemma callbacks_for_push_same (platform : string) (cb : callback)
    (m : list (string * list callback)) :
  callbacks_for platform (push_callback platform cb m) =
  Some (match callbacks_for platform m with Some cs => cs | None => [] end ++ [cb])%list.
Proof.
  induction m as [|[k cs] m IH]; simpl.
  - rewrite String.eqb_refl. reflexivity.
  - destruct (String.eqb k platform) eqn:E; simpl; rewrite E; [reflexivity | exact IH].
Qed.

Lemma callbacks_for_push_other (platform other : string) (cb : callback)
    (m : list (string * list callback)) :
  other <> platform ->
  callbacks_for platform (push_callback other cb m) = callbacks_for platform m.
Proof.
  intros Hne. induction m as [|[k cs] m IH]; simpl.
  - destruct (String.eqb other platform) eqn:E; [|reflexivity].
    apply String.eqb_eq in E. contradiction.
  - destruct (String.eqb k other) eqn:E; simpl.
    + apply String.eqb_eq in E. subst k.
      destruct (String.eqb other platform) eqn:E2; [|reflexivity].
      apply String.eqb_eq in E2. contradiction.
    + rewrite IH. reflexivity.
Qed.

Lemma known_platform_dec (p : string) : {known_platform p} + {~ known_platform p}.
Proof.
  unfold known_platform.
  destruct (string_dec p "chatgpt"); [left; tauto|].
  destruct (string_dec p "claude"); [left; tauto|].
  destruct (string_dec p "perplexity"); [left; tauto|].
  destruct (string_dec p "gemini"); [left; tauto|].
  right. tauto.
Qed.

(** X15.  [bridgeMessage] to a connected platform whose callbacks all
    fulfil, while no context is active or the message is not [null]: the
    message it resolves with is read, after the callbacks ran, from the
    normalised conversation as they left it, and the call rejects when
    they left no [messages] to read from.  With callbacks that leave the
    conversation as it is the call resolves with [success: true]: while
    no context is active, or the active context is not one of the four
    platforms that have a normaliser, the message is handed on as it is;
    while one of the four is active the message handed on is the
    normalised one, with [role], [content] and [timestamp]. *)
Theorem bridgeMessage_to_connected_platform
    (b : bridge) (fresh now : string) (clock : nat -> string) (at_end : string)
    (msg : value) (target : string) :
  is_connected (core b) target = true ->
  (forall cb conv, In cb (registered b target) -> fst (cb conv) = Return tt) ->
  activeContext (core b) = None \/ msg <> JNull ->
  (exists normalized final,
     normalizeConversation fresh now clock (JObj [ ("messages", JArr [msg]) ])
       (active_platform b) = Return normalized /\
     run_callbacks (registered b target) (as_object normalized) = (Return tt, final) /\
     bridgeMessage b fresh now clock at_end msg target =
       bind (read_first final) (fun first =>
       Return (mkResult true first target at_end))) /\
  ((forall cb conv, In cb (registered b target) -> snd (cb conv) = conv) ->
   (activeContext (core b) = None ->
      bridgeMessage b fresh now clock at_end msg target =
        Return (mkResult true (Some msg) target at_end)) /\
   (forall p, activeContext (core b) = Some p -> ~ known_platform p ->
      bridgeMessage b fresh now clock at_end msg target =
        Return (mkResult true (Some msg) target at_end)) /\
   (forall p, activeContext (core b) = Some p -> known_platform p ->
      exists m,
        bridgeMessage b fresh now clock at_end msg target =
          Return (mkResult true (Some m) target at_end) /\
        normalized_message m)).
Proof.
  intros Hc Hful Hmsg.
  assert (Hnorm : exists conv,
            normalizeConversation fresh now clock (JObj [ ("messages", JArr [msg]) ])
              (active_platform b) = Return conv /\
            (activeContext (core b) = None -> messages conv = JArr [msg]) /\
            (forall p, activeContext (core b) = Some p -> ~ known_platform p ->
               messages conv = JArr [msg]) /\
            (forall p, activeContext (core b) = Some p -> known_platform p ->
               exists m, messages conv = JArr [m] /\ normalized_message m)).
  { unfold active_platform.
    destruct (activeContext (core b)) as [p|] eqn:Hactive.
    - destruct Hmsg as [Hnone | Hmsg]; [discriminate|].
      assert (Hl : Forall (fun x => x <> JNull) [msg])
        by (apply Forall_cons; [exact Hmsg | apply Forall_nil]).
      destruct (known_platform_dec p) as [Hp | Hp].
      + destruct (normalize_known fresh now clock (JObj [ ("messages", JArr [msg]) ]) p [msg]
                    Hp eq_refl Hl)
          as (out & E & Hlen & Hall).
        destruct out as [|m [|m' out]]; try discriminate.
        eexists. split; [exact E|]. split; [discriminate|].
        split; [intros p' E' Hp'; injection E' as <-; contradiction|].
        intros p' _ _. exists m. split; [reflexivity | inversion Hall; assumption].
      + eexists. split; [apply normalize_unknown; [discriminate | exact Hp]|].
        split; [discriminate|].
        split; [intros p' _ _; reflexivity|].
        intros p' E Hp'. injection E as <-. contradiction.
    - eexists. split; [reflexivity|]. split; [reflexivity|].
      split; discriminate. }
  destruct Hnorm as (conv & Enorm & Hnone & Hunknown & Hknown).
  destruct (run_callbacks_fulfilled (registered b target) (as_object conv) Hful)
    as [final Erun].
  assert (Hcall : bridgeMessage b fresh now clock at_end msg target =
                  bind (read_first final) (fun first =>
                  Return (mkResult true first target at_end))).
  { unfold bridgeMessage. rewrite Hc. cbn [negb]. rewrite Enorm. cbn [bind].
    rewrite Erun. reflexivity. }
  split; [exists conv, final; repeat split; assumption|].
  intros Hun.
  rewrite (run_callbacks_unchanged (registered b target) (as_object conv) Hful Hun) in Erun.
  injection Erun as <-. rewrite Hcall.
  unfold read_first, as_object. cbn [assoc String.eqb Ascii.eqb Bool.eqb].
  split; [|split].
  - intros E. rewrite (Hnone E). reflexivity.
  - intros p E Hp. rewrite (Hunknown p E Hp). reflexivity.
  - intros p E Hp. destruct (Hknown p E Hp) as (m & Em & Hm).
    exists m. rewrite Em. split; [reflexivity | exact Hm].
Qed.

Lemma bridgeMessage_to_connected_platform_witness :
  bridgeMessage
    (mkBridge (snd (connect ContextBridge.constructor "gemini-1700000000000-q1w2e3r4t"
                      "gemini")) [])
    "1700000000000-a1b2c3d4e" "2024-01-01T00:00:00.000Z"
    (fun _ => "2024-01-01T00:00:00.000Z") "2024-01-01T00:00:01.000Z"
    (JObj [ ("text", JStr "Hello") ]) "gemini" =
  Return (mkResult true (Some (JObj [ ("text", JStr "Hello") ])) "gemini"
            "2024-01-01T00:00:01.000Z").
Proof.
  set (b := mkBridge (snd (connect ContextBridge.constructor
                             "gemini-1700000000000-q1w2e3r4t" "gemini")) []).
  assert (Hful : forall (cb : callback) (conv : live),
            In cb (registered b "gemini") -> fst (cb conv) = Return tt)
    by (intros cb conv H; destruct H).
  assert (Hsame : forall (cb : callback) (conv : live),
            In cb (registered b "gemini") -> snd (cb conv) = conv)
    by (intros cb conv H; destruct H).
  destruct (bridgeMessage_to_connected_platform b
              "1700000000000-a1b2c3d4e" "2024-01-01T00:00:00.000Z"
              (fun _ => "2024-01-01T00:00:00.000Z") "2024-01-01T00:00:01.000Z"
              (JObj [ ("text", JStr "Hello") ]) "gemini" eq_refl Hful
              (or_introl eq_refl))
    as (_ & H).
  exact (proj1 (H Hsame) eq_refl).
Defined.

(** X16.  What makes [bridgeMessage] reject: a target that is not
    connected, and a callback registered for the target that rejects (the
    rejection is the callback's).  A callback registered for another
    platform is not run. *)
Theorem bridgeMessage_rejections
    (b : bridge) (fresh now : string) (clock : nat -> string) (at_end : string)
    (msg : value) (target other : string) (cb : callback) (e : error) :
  (forall conv, fst (cb conv) = Throw e) ->
  (is_connected (core b) target = false ->
   bridgeMessage b fresh now clock at_end msg target =
     Throw (Error ("Target platform " ++ target ++ " is not connected"))) /\
  (forall r, bridgeMessage b fresh now clock at_end msg target = Return r ->
   bridgeMessage (onBridge b target cb) fresh now clock at_end msg target = Throw e) /\
  (other <> target ->
   bridgeMessage (onBridge b other cb) fresh now clock at_end msg target =
   bridgeMessage b fresh now clock at_end msg target).
Proof.
  intros Hcb. split; [|split].
  - intros Hc. unfold bridgeMessage. rewrite Hc. reflexivity.
  - intros r. unfold bridgeMessage, onBridge. cbn [core bridgeCallbacks].
    destruct (negb (is_connected (core b) target)); [discriminate|].
    unfold active_platform, registered. cbn [core bridgeCallbacks].
    destruct (normalizeConversation _ _ _ _ _) as [conv|]; [|discriminate].
    cbn [bind]. rewrite callbacks_for_push_same, run_callbacks_app.
    destruct (run_callbacks _ (as_object conv)) as [[[]|e'] conv']; [|discriminate].
    intros _. pose proof (Hcb conv') as E.
    destruct (cb conv') as [[[]|e''] final]; [discriminate|].
    cbn [fst] in E. injection E as ->. reflexivity.
  - intros Hne. unfold bridgeMessage, onBridge, active_platform, registered.
    cbn [core bridgeCallbacks].
    rewrite callbacks_for_push_other by exact Hne. reflexivity.
Qed.

Lemma bridgeMessage_rejections_witness :
  bridgeMessage
    (onBridge (mkBridge ContextBridge.constructor []) "claude"
       (fun conv => (Throw (Error "listener failed"), conv)))
    "1700000000000-a1b2c3d4e" "2024-01-01T00:00:00.000Z"
    (fun _ => "2024-01-01T00:00:00.000Z") "2024-01-01T00:00:01.000Z"
    (JObj [ ("text", JStr "Hello") ]) "gemini" =
  bridgeMessage (mkBridge ContextBridge.constructor [])
    "1700000000000-a1b2c3d4e" "2024-01-01T00:00:00.000Z"
    (fun _ => "2024-01-01T00:00:00.000Z") "2024-01-01T00:00:01.000Z"
    (JObj [ ("text", JStr "Hello") ]) "gemini".
Proof.
  assert (Hne : "claude" <> "gemini") by discriminate.
  exact (proj2 (proj2 (bridgeMessage_rejections
                         (mkBridge ContextBridge.constructor [])
                         "1700000000000-a1b2c3d4e" "2024-01-01T00:00:00.000Z"
                         (fun _ => "2024-01-01T00:00:00.000Z") "2024-01-01T00:00:01.000Z"
                         (JObj [ ("text", JStr "Hello") ]) "gemini" "claude"
                         (fun conv => (Throw (Error "listener failed"), conv))
                         (Error "listener failed") (fun _ => eq_refl))) Hne).
Defined.

End BridgingFacts.

(* ------------------------------------------------------------------ *)
(** ** The housekeeper: score ranges, history, statistics, amplification *)

Section ScoreRanges.
Import Text AIHousekeeper.
Local Open Scope Q_scope.

Lemma of_nat_nonneg (n : nat) : 0 <= of_nat n.
Proof.
  unfold of_nat. change 0 with (inject_Z 0). rewrite <- Zle_Qle. lia.
Qed.

Lemma Qdiv_nonneg (a b : Q) : 0 <= a -> 0 <= b -> 0 <= a / b.
Proof.
  intros Ha Hb. unfold Qdiv. apply Qmult_le_0_compat; [exact Ha|].
  apply Qinv_le_0_compat. exact Hb.
Qed.

Lemma Qmin_one_bounds (lo x : Q) : lo <= 1 -> lo <= x -> lo <= Qmin 1 x <= 1.
Proof.
  intros H1 Hx. split; [apply Q.min_glb; assumption | apply Q.le_min_l].
Qed.

(** An inequality between two numbers that are given in full. *)
Ltac by_computation := apply Qle_bool_iff; vm_compute; reflexivity.

Lemma add_le (x x' y y' : Q) :
  x <= x' -> y <= y' -> Binary64.add x y <= Binary64.add x' y'.
Proof. intros Hx Hy. apply round_le. lra. Qed.

Lemma mul_le (x x' w : Q) :
  0 <= w -> x <= x' -> Binary64.mul x w <= Binary64.mul x' w.
Proof. intros Hw Hx. apply round_le. apply Qmult_le_compat_r; assumption. Qed.

(** Adding a number that is not negative to a binary64 number does not
    give less. *)
Lemma add_nonneg_l (r q : Q) : 0 <= r -> Binary64.lit q <= Binary64.add r (Binary64.lit q).
Proof.
  intros Hr. unfold Binary64.lit, Binary64.add.
  rewrite <- (round_idem q) at 1. apply round_le. lra.
Qed.

Lemma scoreRelevance_range (answer question : string) :
  Binary64.lit 0.3 <= _scoreRelevance answer question <= 1.
Proof.
  unfold _scoreRelevance. apply Qmin_one_bounds; [by_computation|].
  apply add_nonneg_l.
  destruct (0 <? _)%nat; [|apply Qle_refl].
  apply round_nonneg, Qdiv_nonneg; apply of_nat_nonneg.
Qed.

Lemma scoreCompleteness_range (answer : string) :
  0 <= _scoreCompleteness answer <= 1.
Proof.
  unfold _scoreCompleteness.
  destruct (_ <? 20)%nat; [split; by_computation|].
  destruct (500 <? _)%nat; [split; by_computation|].
  split; [apply Q.le_max_l|]. apply Q.max_lub; [discriminate | apply Q.le_min_l].
Qed.

Lemma scoreStructure_range (answer : string) :
  Binary64.lit 0.4 <= _scoreStructure answer <= 1.
Proof.
  unfold _scoreStructure.
  destruct (existsb _ _); destruct (3 <=? _)%nat; destruct (includes _ _);
    split; by_computation.
Qed.

Lemma scoreConfidenceMarkers_range (answer : string) :
  Binary64.lit 0.3 <= _scoreConfidenceMarkers answer <= Binary64.lit 0.9.
Proof.
  unfold _scoreConfidenceMarkers.
  destruct (existsb _ _); destruct (existsb _ _); cbn [andb negb]; split; by_computation.
Qed.

Lemma scoreContradictions_range (answer : string) :
  Binary64.lit 0.3 <= _scoreContradictions answer <= 1.
Proof.
  unfold _scoreContradictions. destruct (existsb _ _); split; by_computation.
Qed.

Lemma scoreContextAlignment_range (answer question : string) :
  Binary64.lit 0.5 <= _scoreContextAlignment answer question <= Binary64.lit 0.9.
Proof.
  unfold _scoreContextAlignment.
  match goal with |- _ <= (if ?c then _ else _) <= _ => destruct c end;
    split; by_computation.
Qed.

Lemma scoreSpecificity_range (answer : string) :
  Binary64.lit 0.3 <= _scoreSpecificity answer <= Binary64.lit 0.8.
Proof.
  unfold _scoreSpecificity.
  destruct (_ <? _)%nat; [split; by_computation|].
  destruct (_ =? _)%nat; split; by_computation.
Qed.

Lemma scoreEvidence_range (answer : string) :
  0 <= _scoreEvidence answer <= 1.
Proof.
  unfold _scoreEvidence. apply Qmin_one_bounds; [discriminate|].
  apply round_nonneg, Qmult_le_0_compat; [apply of_nat_nonneg | by_computation].
Qed.

(** The weighted sum of [_scoreAnswer], as a function of the factors. *)
Let weighted (f : Factors) : Q :=
  Binary64.add (Binary64.add (Binary64.add (Binary64.add
    (Binary64.add (Binary64.add (Binary64.add
      (Binary64.mul (relevance f) (Binary64.lit 0.25))
      (Binary64.mul (completeness f) (Binary64.lit 0.15)))
      (Binary64.mul (structure f) (Binary64.lit 0.12)))
      (Binary64.mul (confidence f) (Binary64.lit 0.15)))
      (Binary64.mul (contradiction f) (Binary64.lit 0.10)))
      (Binary64.mul (context f) (Binary64.lit 0.10)))
      (Binary64.mul (specificity f) (Binary64.lit 0.08)))
      (Binary64.mul (evidence f) (Binary64.lit 0.05)).

(** The weighted sum grows with each factor: the weights are positive and
    rounding is monotone. *)
Lemma weighted_le (f g : Factors) :
  relevance f <= relevance g -> completeness f <= completeness g ->
  structure f <= structure g -> confidence f <= confidence g ->
  contradiction f <= contradiction g -> context f <= context g ->
  specificity f <= specificity g -> evidence f <= evidence g ->
  weighted f <= weighted g.
Proof.
  intros H1 H2 H3 H4 H5 H6 H7 H8. unfold weighted.
  repeat (apply add_le); apply mul_le; try assumption; by_computation.
Qed.

(** X17.  Every factor of [_scoreAnswer] lies in [[0, 1]], within the
    bounds its code gives, and the overall score, which [filterAnswers]
    also reports as the confidence, lies between the binary64 numbers
    0.272 and 0.9590000000000001 for every answer and question. *)
Theorem scoreAnswer_ranges (answer question : string) :
  Binary64.lit 0.3 <= relevance (factors (_scoreAnswer answer question)) <= 1 /\
  0 <= completeness (factors (_scoreAnswer answer question)) <= 1 /\
  Binary64.lit 0.4 <= structure (factors (_scoreAnswer answer question)) <= 1 /\
  Binary64.lit 0.3 <= confidence (factors (_scoreAnswer answer question))
    <= Binary64.lit 0.9 /\
  Binary64.lit 0.3 <= contradiction (factors (_scoreAnswer answer question)) <= 1 /\
  Binary64.lit 0.5 <= context (factors (_scoreAnswer answer question))
    <= Binary64.lit 0.9 /\
  Binary64.lit 0.3 <= specificity (factors (_scoreAnswer answer question))
    <= Binary64.lit 0.8 /\
  0 <= evidence (factors (_scoreAnswer answer question)) <= 1 /\
  Binary64.lit 0.272 <= overall (_scoreAnswer answer question)
    <= Binary64.lit 0.9590000000000001 /\
  _calculateConfidence (_scoreAnswer answer question) =
    overall (_scoreAnswer answer question).
Proof.
  pose proof (scoreRelevance_range answer question) as [L1 U1].
  pose proof (scoreCompleteness_range answer) as [L2 U2].
  pose proof (scoreStructure_range answer) as [L3 U3].
  pose proof (scoreConfidenceMarkers_range answer) as [L4 U4].
  pose proof (scoreContradictions_range answer) as [L5 U5].
  pose proof (scoreContextAlignment_range answer question) as [L6 U6].
  pose proof (scoreSpecificity_range answer) as [L7 U7].
  pose proof (scoreEvidence_range answer) as [L8 U8].
  assert (Hlow : weighted (mkFactors (Binary64.lit 0.3) 0 (Binary64.lit 0.4) (Binary64.lit 0.3)
                             (Binary64.lit 0.3) (Binary64.lit 0.5) (Binary64.lit 0.3) 0)
                 <= overall (_scoreAnswer answer question)).
  { apply (weighted_le _ (factors (_scoreAnswer answer question))); assumption. }
  assert (Hhigh : overall (_scoreAnswer answer question)
                  <= weighted (mkFactors 1 1 1 (Binary64.lit 0.9) 1 (Binary64.lit 0.9)
                                 (Binary64.lit 0.8) 1)).
  { apply (weighted_le (factors (_scoreAnswer answer question))); assumption. }
  unfold _calculateConfidence.
  change (relevance (factors (_scoreAnswer answer question)))
    with (_scoreRelevance answer question).
  change (completeness (factors (_scoreAnswer answer question)))
    with (_scoreCompleteness answer).
  change (structure (factors (_scoreAnswer answer question)))
    with (_scoreStructure answer).
  change (confidence (factors (_scoreAnswer answer question)))
    with (_scoreConfidenceMarkers answer).
  change (contradiction (factors (_scoreAnswer answer question)))
    with (_scoreContradictions answer).
  change (context (factors (_scoreAnswer answer question)))
    with (_scoreContextAlignment answer question).
  change (specificity (factors (_scoreAnswer answer question)))
    with (_scoreSpecificity answer).
  change (evidence (factors (_scoreAnswer answer question)))
    with (_scoreEvidence answer).
  do 8 (split; [split; assumption|]).
  split; [|reflexivity].
  split.
  - eapply Qle_trans; [|exact Hlow]. by_computation.
  - eapply Qle_trans; [exact Hhigh|]. by_computation.
Qed.

End ScoreRanges.

Section HousekeeperHistory.
Import Text AIHousekeeper Amplifier.
Local Open Scope Q_scope.

Lemma filterAnswers_history_step
    (self : AIHousekeeper.t) (now : Z) (question c : string) (cs : list string) :
  exists r,
    filterAnswers self now (array (c :: cs)) question =
      (Return r,
       mkHousekeeper
         (filterHistory self ++
          [ mkEntry now question (S (List.length cs)) (overall (score r))
              (List.length cs) ])%list) /\
    Binary64.round (overall (score r)) == overall (score r).
Proof.
  destruct (sort_head_first_maximum question c cs)
    as (pre & a & post & rest & _ & _ & _ & Hs & Hlen).
  exists (mkResult a (_scoreAnswer a question) (overall (_scoreAnswer a question))).
  split; [|apply round_idem].
  unfold filterAnswers. rewrite Hs. cbn [scored_score scored_answer score].
  rewrite Hlen. reflexivity.
Qed.

(** X18.  A call of [filterAnswers] that returns appends exactly one
    entry to the filter history: the time of the call, the question, the
    number of candidates, the overall score of the answer returned and,
    as rejected, all candidates but one.  A call that raises leaves the
    history as it was. *)
Theorem filterAnswers_records_history
    (self : AIHousekeeper.t) (now : Z) (question : string) :
  (forall candidates,
      raises (fst (filterAnswers self now candidates question)) = true ->
      snd (filterAnswers self now candidates question) = self) /\
  (forall c cs,
      exists r,
        filterAnswers self now (array (c :: cs)) question =
          (Return r,
           mkHousekeeper
             (filterHistory self ++
              [ mkEntry now question (S (List.length cs)) (overall (score r))
                  (List.length cs) ])%list)).
Proof.
  split.
  - intros [|[|c cs]]; try reflexivity.
    destruct (filterAnswers_history_step self now question c cs) as (r & E & _).
    rewrite E. discriminate.
  - intros c cs.
    destruct (filterAnswers_history_step self now question c cs) as (r & E & _).
    exists r. exact E.
Qed.

Lemma sum_rejected_app (entries : list history_entry) (f : history_entry) (acc : nat) :
  fold_left (fun sum e => (sum + rejected e)%nat) (entries ++ [f])%list acc =
  (fold_left (fun sum e => (sum + rejected e)%nat) entries acc + rejected f)%nat.
Proof. rewrite fold_left_app. reflexivity. Qed.

(** The average over a history of one entry is the score of the entry. *)
Lemma average_of_one (x : Q) :
  Binary64.round x == x ->
  Binary64.div (Binary64.add 0 x) (of_nat 1) == x.
Proof.
  intros Hx. unfold Binary64.div, Binary64.add.
  assert (E : Binary64.round (0 + x) == x).
  { rewrite <- Hx at 2. apply round_eq. ring. }
  rewrite <- Hx at 2. apply round_eq. rewrite E.
  unfold of_nat. change (inject_Z (Z.of_nat 1)) with 1. field.
Qed.

(** The average is a rounded sum divided and rounded again, so it need
    not lie among the scores it averages: after three calls on the one
    candidate ["a"] every best score is 0.43299999999999994 and their
    average is 0.433. *)
Example getStats_average_rounded :
  let call self := snd (filterAnswers self 0 (array ["a"%string]) "q") in
  let self := call (call (call (mkHousekeeper []))) in
  Forall (fun entry => bestScore entry == Binary64.lit 0.43299999999999994)
    (filterHistory self) /\
  avgBestScore (getStats self) == Binary64.lit 0.433 /\
  Binary64.lit 0.43299999999999994 < Binary64.lit 0.433.
Proof.
  vm_compute. split; [|split; reflexivity].
  repeat (apply Forall_cons; [reflexivity|]). apply Forall_nil.
Qed.

(** X19.  [getStats] of the housekeeper.  With an empty history the
    average best score is 0: the division is by 1, not by the length.
    After the first call of [filterAnswers] that returns, the average is
    the best score of that call.  Every such call raises the number of
    filterings by one and the number of rejected answers by the number of
    candidates less one. *)
Theorem housekeeper_getStats
    (self : AIHousekeeper.t) (now : Z) (question c : string) (cs : list string) :
  (filterHistory self = [] ->
   totalFiltered (getStats self) = 0%nat /\
   avgBestScore (getStats self) == 0 /\
   totalRejected (getStats self) = 0%nat) /\
  (filterHistory self = [] ->
   exists r self',
     filterAnswers self now (array (c :: cs)) question = (Return r, self') /\
     avgBestScore (getStats self') == overall (score r)) /\
  totalFiltered (getStats (snd (filterAnswers self now (array (c :: cs)) question))) =
    S (totalFiltered (getStats self)) /\
  totalRejected (getStats (snd (filterAnswers self now (array (c :: cs)) question))) =
    (totalRejected (getStats self) + List.length cs)%nat.
Proof.
  destruct (filterAnswers_history_step self now question c cs) as (r & E & Hfix).
  split; [|split].
  - intros H. unfold getStats. rewrite H. repeat split.
  - intros H. exists r. eexists. split; [exact E|].
    unfold getStats. cbn [avgBestScore filterHistory]. rewrite H.
    cbn [app fold_left List.length bestScore].
    apply average_of_one. exact Hfix.
  - rewrite E. cbn [snd].
    unfold getStats. cbn [totalFiltered totalRejected filterHistory].
    rewrite length_app, sum_rejected_app. cbn [List.length rejected]. split; lia.
Qed.

End HousekeeperHistory.

Section Amplification.
Import Text AIHousekeeper Amplifier.

Lemma startsWith_append (p s : string) : startsWith p (p ++ s) = true.
Proof.
  induction p as [|c p IH]; simpl; [reflexivity|].
  rewrite Ascii.eqb_refl. exact IH.
Qed.

Lemma includes_here (p s : string) : includes p (p ++ s) = true.
Proof.
  destruct (p ++ s) eqn:E; simpl; rewrite <- E, startsWith_append; reflexivity.
Qed.

Lemma includes_after (p a s : string) :
  includes p s = true -> includes p (a ++ s) = true.
Proof.
  intros H. induction a as [|c a IH]; simpl; [exact H|].
  rewrite IH. apply orb_true_r.
Qed.

Lemma includes_middle (p a b : string) : includes p (a ++ p ++ b) = true.
Proof. apply includes_after, includes_here. Qed.

Lemma toLowerCase_length (s : string) :
  String.length (toLowerCase s) = String.length s.
Proof. induction s as [|c s IH]; simpl; congruence. Qed.

(** The stop words have four letters each. *)
Lemma stop_word_length (w : string) : _isStopWord w = true -> String.length w = 4%nat.
Proof.
  unfold _isStopWord, member. intros H. rewrite <- toLowerCase_length.
  cbn [existsb] in H.
  repeat (apply orb_true_iff in H; destruct H as [H | H];
          [apply String.eqb_eq in H; rewrite H; reflexivity|]).
  discriminate.
Qed.

Lemma unique_spec (seen l : list string) :
  NoDup (unique seen l) /\
  (forall x, In x (unique seen l) -> In x l /\ ~ In x seen).
Proof.
  revert seen. induction l as [|x l IH]; intros seen; simpl.
  - split; [constructor | intros x []].
  - destruct (member x seen) eqn:E.
    + destruct (IH seen) as [H1 H2]. split; [exact H1|].
      intros y Hy. destruct (H2 y Hy). auto.
    + destruct (IH (x :: seen)) as [H1 H2]. split.
      * constructor; [|exact H1]. intros Hin. destruct (H2 x Hin) as [_ Hn].
        apply Hn. left. reflexivity.
      * intros y [<- | Hy].
        -- split; [left; reflexivity|]. intros Hin.
           assert (Hm : member x seen = true).
           { unfold member. apply existsb_exists. exists x.
             split; [exact Hin | apply String.eqb_refl]. }
           congruence.
        -- destruct (H2 y Hy) as [Hin Hn]. split; [right; exact Hin|].
           intros Hs. apply Hn. right. exact Hs.
Qed.

Lemma in_firstn {A : Type} (n : nat) (l : list A) (x : A) :
  In x (firstn n l) -> In x l.
Proof.
  intros H. rewrite <- (firstn_skipn n l). apply in_or_app. left. exact H.
Qed.

Lemma nodup_firstn {A : Type} (n : nat) (l : list A) : NoDup l -> NoDup (firstn n l).
Proof.
  intros H. rewrite <- (firstn_skipn n l) in H. eapply NoDup_app_remove_r. exact H.
Qed.

(** X20.  The core concepts of an answer and a question: at most ten,
    pairwise different, each a word of more than five characters of the
    answer or the question.  The stop-word test never removes a word: the
    stop words have four letters, so the test on the length has already
    dropped them. *)
Theorem extractCoreConcepts_properties (answer question : string) :
  List.length (_extractCoreConcepts answer question) <= 10 /\
  NoDup (_extractCoreConcepts answer question) /\
  (forall c, In c (_extractCoreConcepts answer question) ->
     5 < String.length c /\ In c (_extractWords (answer ++ " " ++ question))) /\
  _extractCoreConcepts answer question =
    firstn 10
      (unique []
         (filter (fun w => (5 <? String.length w)%nat)
            (_extractWords (answer ++ " " ++ question)))).
Proof.
  assert (Hidle : forall words,
            filter (fun w => (5 <? String.length w)%nat && negb (_isStopWord w)) words =
            filter (fun w => (5 <? String.length w)%nat) words).
  { intros words. apply filter_ext. intros w.
    destruct (_isStopWord w) eqn:E; [|apply andb_true_r].
    rewrite (stop_word_length w E). reflexivity. }
  unfold _extractCoreConcepts. rewrite Hidle.
  set (words := _extractWords (answer ++ " " ++ question)).
  destruct (unique_spec [] (filter (fun w => (5 <? String.length w)%nat) words))
    as [Hnd Hin].
  split; [apply firstn_le_length|]. split; [apply nodup_firstn; exact Hnd|].
  split; [|reflexivity].
  intros c Hc. apply in_firstn in Hc. destruct (Hin c Hc) as [Hf _].
  apply filter_In in Hf. destruct Hf as [Hw Hlen]. apply Nat.ltb_lt in Hlen. auto.
Qed.

Lemma length_append3 (a b c : string) :
  String.length (a ++ b ++ c) = String.length a + String.length b + String.length c.
Proof. rewrite !length_append. lia. Qed.

(** X21.  The amplified answer contains the original answer verbatim,
    begins with its first sentence closed by a full stop, and is longer
    than the original.  When neither the answer nor the question has a
    core concept, the text names the concept [undefined]. *)
Theorem amplify_contains_original (answer question : string) :
  includes answer (amplify answer question) = true /\
  startsWith (first_piece sentence_separator answer ++ ".")
    (amplify answer question) = true /\
  String.length answer < String.length (amplify answer question) /\
  (_extractCoreConcepts answer question = [] ->
   includes "scenarios involving undefined." (amplify answer question) = true).
Proof.
  unfold amplify, _synthesize, _addActionableInsights, _structureContent.
  cbn [introduction original structured structured_depth actionable insights].
  set (intro := first_piece sentence_separator answer ++ ".").
  set (layers := _addDepthLayers _ _).
  split; [|split; [|split]].
  - apply includes_after, includes_after, includes_here.
  - apply startsWith_append.
  - rewrite !length_append. unfold blank_line, paragraph_break. simpl String.length. lia.
  - intros Hnone. unfold layers, _addDepthLayers. rewrite Hnone.
    cbn [implications applications extensions firstn keep List.length Nat.sub skipn JSON.join].
    apply includes_after, includes_after, includes_after, includes_after.
    match goal with
    | |- includes _ (?closed ++ _) = true =>
        change closed
          with ("This implies deeper connections between . Practically, this applies to " ++
                "scenarios involving undefined." ++ " This can be extended to consider .")
    end.
    rewrite !append_assoc. apply includes_middle.
Qed.

End Amplification.

(* ------------------------------------------------------------------ *)
(** ** The momentum engine: sets, factors, vectors and history *)

Section SetFacts.
Import MomentumTracking.
Context {A : Type} (same : A -> A -> bool).
Hypothesis same_spec : forall x y, same x y = true <-> x = y.

Lemma has_in (x : A) (s : list A) : has same x s = true <-> In x s.
Proof.
  unfold has. rewrite existsb_exists. split.
  - intros (y & Hy & E). apply same_spec in E. subst. exact Hy.
  - intros H. exists x. split; [exact H | apply same_spec; reflexivity].
Qed.

Lemma add_in (x y : A) (s : list A) : In y (add same x s) <-> y = x \/ In y s.
Proof.
  unfold add. destruct (has same x s) eqn:E.
  - apply has_in in E. split; [auto|]. intros [-> | H]; assumption.
  - rewrite in_app_iff. simpl. split; [intros [H | [H | []]]; auto|].
    intros [-> | H]; auto.
Qed.

Lemma add_nodup (x : A) (s : list A) : NoDup s -> NoDup (add same x s).
Proof.
  intros H. unfold add. destruct (has same x s) eqn:E; [exact H|].
  apply NoDup_app; [exact H | repeat constructor; intros [] |].
  intros y Hy [Ey | []]. subst y.
  assert (Hh : has same x s = true) by (apply has_in; exact Hy). congruence.
Qed.

Lemma add_fresh (x : A) (s : list A) : ~ In x s -> add same x s = (s ++ [x])%list.
Proof.
  intros H. unfold add. destruct (has same x s) eqn:E; [|reflexivity].
  apply has_in in E. contradiction.
Qed.

Lemma fold_add_spec (l acc : list A) :
  NoDup acc ->
  NoDup (fold_left (fun s x => add same x s) l acc) /\
  (forall y, In y (fold_left (fun s x => add same x s) l acc) <-> In y acc \/ In y l).
Proof.
  revert acc. induction l as [|x l IH]; intros acc Hacc; cbn [fold_left].
  - split; [exact Hacc|]. intros y. simpl. tauto.
  - destruct (IH (add same x acc) (add_nodup x acc Hacc)) as [H1 H2].
    split; [exact H1|]. intros y. rewrite H2, add_in. simpl. intuition auto.
Qed.

Lemma make_nodup (l : list A) : NoDup (make same l).
Proof. apply fold_add_spec. constructor. Qed.

Lemma make_in (l : list A) (y : A) : In y (make same l) <-> In y l.
Proof.
  unfold make. destruct (fold_add_spec l [] (NoDup_nil A)) as [_ H].
  rewrite H. simpl. tauto.
Qed.

Lemma fold_add_fresh (l acc : list A) :
  NoDup (acc ++ l) -> fold_left (fun s x => add same x s) l acc = (acc ++ l)%list.
Proof.
  revert acc. induction l as [|x l IH]; intros acc H; cbn [fold_left].
  - rewrite app_nil_r. reflexivity.
  - assert (Hx : ~ In x acc).
    { intros Hin. apply NoDup_remove_2 in H. apply H.
      apply in_or_app. left. exact Hin. }
    rewrite add_fresh by exact Hx.
    rewrite IH; rewrite <- app_assoc; [reflexivity | exact H].
Qed.

Lemma make_of_set (s : list A) : NoDup s -> make same s = s.
Proof. intros H. unfold make. rewrite fold_add_fresh; [reflexivity | exact H]. Qed.

Lemma same_elements_length (s t : list A) :
  NoDup s -> NoDup t -> (forall x, In x s <-> In x t) ->
  List.length s = List.length t.
Proof.
  intros Hs Ht H. apply Permutation_length. apply NoDup_Permutation; assumption.
Qed.

Lemma filter_has_in (s t : list A) (x : A) :
  In x (filter (fun y => has same y t) s) <-> In x s /\ In x t.
Proof. rewrite filter_In, has_in. tauto. Qed.

Local Open Scope Q_scope.

Lemma ratio_range (a b : nat) :
  (a <= b)%nat -> (0 < b)%nat ->
  0 <= AIHousekeeper.of_nat a / AIHousekeeper.of_nat b <= 1.
Proof.
  intros Hab Hb.
  assert (H0 : 0 < AIHousekeeper.of_nat b).
  { unfold AIHousekeeper.of_nat. change 0 with (inject_Z 0). rewrite <- Zlt_Qlt. lia. }
  assert (Ha : 0 <= AIHousekeeper.of_nat a) by apply of_nat_nonneg.
  assert (Hle : AIHousekeeper.of_nat a <= AIHousekeeper.of_nat b).
  { unfold AIHousekeeper.of_nat. rewrite <- Zle_Qle. lia. }
  set (x := AIHousekeeper.of_nat a) in *. set (y := AIHousekeeper.of_nat b) in *.
  clearbody x y. split.
  - apply Qle_shift_div_l; [exact H0|]. rewrite Qmult_0_l. exact Ha.
  - apply Qle_shift_div_r; [exact H0|]. rewrite Qmult_1_l. exact Hle.
Qed.

Lemma ratio_one (a : nat) :
  (0 < a)%nat -> AIHousekeeper.of_nat a / AIHousekeeper.of_nat a == 1.
Proof.
  intros Ha.
  assert (H0 : ~ AIHousekeeper.of_nat a == 0).
  { unfold AIHousekeeper.of_nat. intros E.
    unfold Qeq in E. cbn [Qnum Qden inject_Z] in E. lia. }
  field. exact H0.
Qed.

(** The intersection and the union that [_calculateOverlap] builds. *)
Lemma overlap_sizes (s t : list A) :
  NoDup s -> NoDup t ->
  (List.length (make same (filter (fun x => has same x t) s))
     <= List.length (make same (s ++ t)))%nat /\
  (s <> [] -> 0 < List.length (make same (s ++ t)))%nat /\
  List.length (make same (filter (fun x => has same x t) s)) =
    List.length (make same (filter (fun x => has same x s) t)) /\
  List.length (make same (s ++ t)) = List.length (make same (t ++ s)) /\
  List.length (make same (filter (fun x => has same x s) s)) = List.length s /\
  List.length (make same (s ++ s)) = List.length s.
Proof.
  intros Hs Ht.
  assert (Hfs : forall u, NoDup (filter (fun x => has same x u) s))
    by (intros u; apply NoDup_filter; exact Hs).
  assert (Hft : forall u, NoDup (filter (fun x => has same x u) t))
    by (intros u; apply NoDup_filter; exact Ht).
  repeat split.
  - rewrite make_of_set by apply Hfs.
    apply NoDup_incl_length; [apply Hfs|].
    intros x Hx. apply make_in, in_or_app. left.
    apply filter_In in Hx. tauto.
  - intros Hne. destruct s as [|x s']; [congruence|].
    destruct (make same ((x :: s') ++ t)) as [|y u] eqn:E; [|simpl; lia].
    assert (Hin : In x (make same ((x :: s') ++ t))) by (apply make_in; left; reflexivity).
    rewrite E in Hin. destruct Hin.
  - rewrite !make_of_set by (apply Hfs || apply Hft).
    apply same_elements_length; [apply Hfs | apply Hft |].
    intros x. rewrite !filter_has_in. tauto.
  - apply same_elements_length; try apply make_nodup.
    intros x. rewrite !make_in, !in_app_iff. tauto.
  - rewrite make_of_set by apply Hfs.
    apply same_elements_length; [apply Hfs | exact Hs |].
    intros y. rewrite filter_has_in. tauto.
  - apply same_elements_length; [apply make_nodup | exact Hs |].
    intros x. rewrite make_in, in_app_iff. tauto.
Qed.

Lemma overlap_range (s t : list A) :
  NoDup s -> NoDup t -> 0 <= _calculateOverlap same s t <= 1.
Proof.
  intros Hs Ht. unfold _calculateOverlap.
  destruct (0 <? _)%nat eqn:E; [|lra].
  apply Nat.ltb_lt in E. apply ratio_range; [|exact E].
  apply overlap_sizes; assumption.
Qed.

Lemma overlap_symmetric (s t : list A) :
  NoDup s -> NoDup t -> _calculateOverlap same s t == _calculateOverlap same t s.
Proof.
  intros Hs Ht. unfold _calculateOverlap.
  destruct (overlap_sizes s t Hs Ht) as (_ & _ & E1 & E2 & _).
  rewrite E1, E2. reflexivity.
Qed.

Lemma overlap_self (s : list A) :
  NoDup s -> s <> [] -> _calculateOverlap same s s == 1.
Proof.
  intros Hs Hne. unfold _calculateOverlap.
  destruct (overlap_sizes s s Hs Hs) as (_ & Hpos & _ & _ & E1 & E2).
  specialize (Hpos Hne). rewrite E1, E2 in *.
  apply Nat.ltb_lt in Hpos as Hb. rewrite Hb. apply ratio_one. exact Hpos.
Qed.

Lemma overlap_disjoint (s t : list A) :
  NoDup s -> (forall x, In x s -> ~ In x t) -> _calculateOverlap same s t == 0.
Proof.
  intros Hs Hd. unfold _calculateOverlap.
  assert (E : filter (fun x => has same x t) s = []).
  { clear Hs. induction s as [|x s' IH]; [reflexivity|]. simpl.
    destruct (has same x t) eqn:Eh.
    - apply has_in in Eh. exfalso. apply (Hd x); [left; reflexivity | exact Eh].
    - apply IH. intros y Hy. apply Hd. right. exact Hy. }
  rewrite E. cbn [make fold_left List.length].
  destruct (0 <? _)%nat; [|reflexivity].
  unfold AIHousekeeper.of_nat. cbn [Z.of_nat]. unfold Qdiv. rewrite Qmult_0_l. reflexivity.
Qed.

End SetFacts.

Section FactorFacts.
Import Text MomentumTracking.
Local Open Scope Q_scope.

(** X22.  [_calculateOverlap] on two sets: the result lies in [[0, 1]]
    and does not depend on the order of the arguments; it is 1 for a set
    that is not empty and itself, and 0 for two empty sets (there is no
    division by zero) and for sets without a common element. *)
Theorem calculateOverlap_properties
    {A : Type} (same : A -> A -> bool) (set1 set2 : list A) :
  (forall x y, same x y = true <-> x = y) ->
  NoDup set1 -> NoDup set2 ->
  0 <= _calculateOverlap same set1 set2 <= 1 /\
  _calculateOverlap same set1 set2 == _calculateOverlap same set2 set1 /\
  (set1 <> [] -> _calculateOverlap same set1 set1 == 1) /\
  _calculateOverlap same [] [] == 0 /\
  ((forall x, In x set1 -> ~ In x set2) -> _calculateOverlap same set1 set2 == 0).
Proof.
  intros Hsame H1 H2.
  split; [apply overlap_range; assumption|].
  split; [apply overlap_symmetric; assumption|].
  split; [intros Hne; apply overlap_self; assumption|].
  split; [reflexivity|].
  intros Hd. apply overlap_disjoint; assumption.
Qed.

Lemma calculateOverlap_properties_witness :
  0 <= _calculateOverlap String.eqb ["task"; "progress"]%string ["task"]%string <= 1 /\
  _calculateOverlap String.eqb ["task"; "progress"]%string ["task"]%string ==
  _calculateOverlap String.eqb ["task"]%string ["task"; "progress"]%string.
Proof.
  assert (H1 : NoDup ["task"; "progress"]%string).
  { apply NoDup_cons; [intros [H | []]; discriminate H|].
    apply NoDup_cons; [intros [] | apply NoDup_nil]. }
  assert (H2 : NoDup ["task"]%string).
  { apply NoDup_cons; [intros [] | apply NoDup_nil]. }
  destruct (calculateOverlap_properties String.eqb
              ["task"; "progress"]%string ["task"]%string String.eqb_eq H1 H2)
    as (Hr & Hs & _).
  split; [exact Hr | exact Hs].
Defined.

Lemma keywords_nodup (state : list (string * value)) : NoDup (_extractKeywords state).
Proof.
  unfold _extractKeywords.
  generalize (long_words (toLowerCase (stringify (JObj state)))). intros words.
  assert (H : NoDup (@nil string)) by constructor. revert H.
  generalize (@nil string).
  induction words as [|w words IH]; intros acc Hacc; cbn [fold_left]; [exact Hacc|].
  apply IH. destruct (negb (_isStopWord w)); [|exact Hacc].
  apply add_nodup; [apply String.eqb_eq | exact Hacc].
Qed.

Lemma semantic_unfolded (context previous : context_t) :
  _calculateSemanticMomentum context (Some previous) =
  0.6 * _calculateOverlap String.eqb
          (make String.eqb (map fst (state context)))
          (make String.eqb (map fst (state previous))) +
  0.4 * _calculateOverlap String.eqb
          (_extractKeywords (state context)) (_extractKeywords (state previous)).
Proof. reflexivity. Qed.

Lemma semantic_range (context : context_t) (previousContext : option context_t) :
  0 <= _calculateSemanticMomentum context previousContext <= 1.
Proof.
  destruct previousContext as [previous|]; [|split; discriminate].
  rewrite semantic_unfolded.
  pose proof (overlap_range String.eqb String.eqb_eq
                (make String.eqb (map fst (state context)))
                (make String.eqb (map fst (state previous)))
                (make_nodup _ String.eqb_eq _) (make_nodup _ String.eqb_eq _)) as Hj.
  pose proof (overlap_range String.eqb String.eqb_eq
                (_extractKeywords (state context)) (_extractKeywords (state previous))
                (keywords_nodup _) (keywords_nodup _)) as Hk.
  set (j := _calculateOverlap String.eqb (make _ _) _) in *.
  set (o := _calculateOverlap String.eqb (_extractKeywords _) _) in *.
  clearbody j o. lra.
Qed.

(** X23.  The semantic factor.  Without a previous context it is 1.
    Otherwise it lies in [[0, 1]]; for two contexts with the same state
    that has a property it is at least 0.6, and it is 1 when the state
    also yields a keyword.  For two contexts whose states are both the
    empty object it is 0, although the states are the same. *)
Theorem semantic_momentum_properties (context previous : context_t) :
  _calculateSemanticMomentum context None == 1 /\
  0 <= _calculateSemanticMomentum context (Some previous) <= 1 /\
  (state previous = state context -> state context <> [] ->
   0.6 <= _calculateSemanticMomentum context (Some previous)) /\
  (state previous = state context -> state context <> [] ->
   _extractKeywords (state context) <> [] ->
   _calculateSemanticMomentum context (Some previous) == 1) /\
  (state context = [] -> state previous = [] ->
   _calculateSemanticMomentum context (Some previous) == 0).
Proof.
  split; [reflexivity|].
  split; [apply semantic_range|].
  rewrite semantic_unfolded.
  set (keys1 := make String.eqb (map fst (state context))).
  set (keys2 := make String.eqb (map fst (state previous))).
  pose proof (overlap_range String.eqb String.eqb_eq keys1 keys2
                (make_nodup _ String.eqb_eq _) (make_nodup _ String.eqb_eq _)) as Hj.
  pose proof (overlap_range String.eqb String.eqb_eq
                (_extractKeywords (state context)) (_extractKeywords (state previous))
                (keywords_nodup _) (keywords_nodup _)) as Hk.
  assert (Hself : state previous = state context -> state context <> [] ->
                  _calculateOverlap String.eqb keys1 keys2 == 1).
  { intros E Hne. unfold keys2. rewrite E. fold keys1.
    apply overlap_self; [apply String.eqb_eq | apply (make_nodup _ String.eqb_eq) |].
    destruct (state context) as [|[k v] rest] eqn:Es; [congruence|].
    intros Hnil.
    assert (Hin : In k keys1).
    { unfold keys1. apply (make_in _ String.eqb_eq). left. reflexivity. }
    rewrite Hnil in Hin. destruct Hin. }
  split; [|split].
  - intros E Hne. specialize (Hself E Hne).
    set (j := _calculateOverlap String.eqb keys1 keys2) in *.
    set (o := _calculateOverlap String.eqb _ _) in *. clearbody j o. lra.
  - intros E Hne Hkw. specialize (Hself E Hne).
    assert (Ho : _calculateOverlap String.eqb (_extractKeywords (state context))
                   (_extractKeywords (state previous)) == 1).
    { rewrite E. apply overlap_self; [apply String.eqb_eq | apply keywords_nodup | exact Hkw]. }
    set (j := _calculateOverlap String.eqb keys1 keys2) in *.
    set (o := _calculateOverlap String.eqb _ _) in *. clearbody j o. lra.
  - intros E1 E2. unfold keys1, keys2. rewrite E1, E2. reflexivity.
Qed.

Lemma semantic_momentum_properties_witness :
  (_calculateSemanticMomentum scored_context (Some scored_context) == 1)%Q.
Proof.
  assert (H1 : state scored_context <> []) by discriminate.
  assert (H2 : _extractKeywords (state scored_context)
               <> []) by (vm_compute; discriminate).
  destruct (semantic_momentum_properties scored_context scored_context)
    as (_ & _ & _ & H & _).
  exact (H eq_refl H1 H2).
Defined.

Lemma depth_range (context : context_t) : 0 <= _calculateDepthMomentum context <= 1.
Proof.
  unfold _calculateDepthMomentum.
  set (steps := AIHousekeeper.of_nat _).
  assert (Hs : 0 <= steps) by apply of_nat_nonneg.
  assert (Hd : 0 <= Qmin 1 (steps / 10)).
  { apply Q.min_glb; [lra|]. apply Qdiv_nonneg; [exact Hs | lra]. }
  split; [|apply Q.le_min_l].
  apply Q.min_glb; [lra|]. destruct (_hasContinuityMarkers _); lra.
Qed.

(** X24.  The depth factor lies in [[0, 1]].  It is 1 from ten
    reasoning steps on, and from eight on when the state holds a
    continuity marker; it is 0 for a state with no reasoning step and no
    marker. *)
Theorem depth_momentum_properties (context : context_t) :
  0 <= _calculateDepthMomentum context <= 1 /\
  ((10 <= _countReasoningSteps (state context))%nat ->
   _calculateDepthMomentum context == 1) /\
  ((8 <= _countReasoningSteps (state context))%nat ->
   _hasContinuityMarkers (state context) = true ->
   _calculateDepthMomentum context == 1) /\
  (_countReasoningSteps (state context) = 0%nat ->
   _hasContinuityMarkers (state context) = false ->
   _calculateDepthMomentum context == 0).
Proof.
  split; [apply depth_range|].
  unfold _calculateDepthMomentum.
  set (n := _countReasoningSteps (state context)).
  assert (Hle : forall k : nat, (k <= n)%nat ->
                  inject_Z (Z.of_nat k) / 10 <= AIHousekeeper.of_nat n / 10).
  { intros k Hk. unfold Qdiv. apply Qmult_le_compat_r; [|apply Qinv_le_0_compat; lra].
    unfold AIHousekeeper.of_nat. rewrite <- Zle_Qle. lia. }
  split; [|split].
  - intros Hn. specialize (Hle 10%nat Hn).
    assert (H10 : inject_Z (Z.of_nat 10) / 10 == 1) by reflexivity.
    rewrite H10 in Hle.
    set (r := AIHousekeeper.of_nat n / 10) in *. clearbody r.
    assert (E : Qmin 1 r == 1) by (apply Q.min_l; exact Hle).
    rewrite E. apply Q.min_l. destruct (_hasContinuityMarkers _); lra.
  - intros Hn Hm. specialize (Hle 8%nat Hn). rewrite Hm.
    assert (H8 : inject_Z (Z.of_nat 8) / 10 == 0.8) by reflexivity.
    rewrite H8 in Hle.
    set (r := AIHousekeeper.of_nat n / 10) in *. clearbody r.
    apply Q.min_l.
    assert (H : 0.8 <= Qmin 1 r) by (apply Q.min_glb; [lra | exact Hle]).
    lra.
  - intros Hn Hm. rewrite Hn, Hm. reflexivity.
Qed.

Lemma depth_momentum_properties_witness :
  (0 <= _calculateDepthMomentum scored_context <= 1)%Q.
Proof.
  exact (proj1 (depth_momentum_properties scored_context)).
Defined.

End FactorFacts.

Section HistoryFacts.
Import MomentumTracking.
Local Open Scope R_scope.

Lemma recordTransition_step (self : engine) (n : nat) (now : Z)
    (transition : list (string * value)) :
  MomentumEngine.maxHistory (engine_config self) = INR n ->
  (List.length (transitionHistory self) <= n)%nat ->
  transitionHistory (recordTransition self now transition) =
    keep n (transitionHistory self ++ [stamped (now, transition)])%list /\
  engine_config (recordTransition self now transition) = engine_config self /\
  momentumVectors (recordTransition self now transition) = momentumVectors self.
Proof.
  intros Hmax Hlen. unfold recordTransition.
  cbn [transitionHistory engine_config momentumVectors].
  split; [|split; reflexivity].
  unfold stamped. cbn [fst snd].
  set (pushed := (transitionHistory self ++ [set_member "recordedAt" (JNum now) transition])%list).
  assert (Hp : List.length pushed = S (List.length (transitionHistory self))).
  { unfold pushed. rewrite length_app. simpl. lia. }
  rewrite Hmax. unfold keep.
  destruct (Rlt_dec (INR n) (INR (List.length pushed))) as [Hlt | Hge].
  - apply INR_lt in Hlt.
    replace (List.length pushed - n)%nat with 1%nat by lia.
    destruct pushed; reflexivity.
  - apply Rnot_lt_le, INR_le in Hge.
    replace (List.length pushed - n)%nat with 0%nat by lia. reflexivity.
Qed.

Lemma record_all_window (n : nat) (calls : list (Z * list (string * value))) (self : engine) :
  MomentumEngine.maxHistory (engine_config self) = INR n ->
  (List.length (transitionHistory self) <= n)%nat ->
  transitionHistory (record_all self calls) =
    keep n (transitionHistory self ++ map stamped calls)%list.
Proof.
  revert self. induction calls as [|[now transition] calls IH]; intros self Hmax Hlen.
  - simpl. rewrite app_nil_r. unfold keep.
    replace (List.length (transitionHistory self) - n)%nat with 0%nat by lia. reflexivity.
  - destruct (recordTransition_step self n now transition Hmax Hlen) as (Hh & Hc & _).
    unfold record_all in *. cbn [fold_left fst snd].
    rewrite IH.
    + rewrite Hh, keep_keep_app, <- app_assoc. reflexivity.
    + rewrite Hc. exact Hmax.
    + rewrite Hh. apply skipn_length_le.
Qed.

Lemma record_all_vectors (calls : list (Z * list (string * value))) (self : engine) :
  momentumVectors (record_all self calls) = momentumVectors self.
Proof.
  revert self. induction calls as [|c calls IH]; intros self; [reflexivity|].
  unfold record_all in *. cbn [fold_left]. rewrite IH. reflexivity.
Qed.

(** X26.  The transition history is a sliding window: after any
    sequence of [recordTransition] calls on a new engine it holds the
    entries of the last [maxHistory] calls, oldest first, each the
    transition with [recordedAt] set to the time of its call; it never
    holds more than [maxHistory] entries.  The vectors are not touched. *)
Theorem recordTransition_window
    (o : MomentumEngine.options) (n : nat) (calls : list (Z * list (string * value))) :
  MomentumEngine.maxHistory (MomentumEngine.constructor o) = INR n ->
  transitionHistory (record_all (constructor o) calls) = keep n (map stamped calls) /\
  (List.length (transitionHistory (record_all (constructor o) calls)) <= n)%nat /\
  momentumVectors (record_all (constructor o) calls) = [].
Proof.
  intros Hmax.
  assert (Hw : transitionHistory (record_all (constructor o) calls) =
               keep n (map stamped calls)).
  { rewrite (record_all_window n calls (constructor o) Hmax); [reflexivity|].
    simpl. lia. }
  split; [exact Hw|]. split; [rewrite Hw; apply skipn_length_le|].
  apply (record_all_vectors calls (constructor o)).
Qed.

Lemma recordTransition_window_witness :
  transitionHistory
    (record_all (constructor short_history_options)
       sample_transitions) =
  keep 2 (map stamped sample_transitions).
Proof.
  assert (H : MomentumEngine.maxHistory (MomentumEngine.constructor short_history_options)
              = INR 2) by (simpl; lra).
  exact (proj1 (recordTransition_window short_history_options 2 sample_transitions H)).
Defined.

(** X27.  [getStats] of the engine.  Without a vector it reports a count
    and an average of 0, no factors and no number of transitions,
    whatever the history holds, and so it does after [clear()].  With
    vectors the count is their number and the number of transitions is
    the length of the history; the average momentum of a single vector is
    its overall momentum. *)
Theorem momentum_getStats (self : engine) :
  (momentumVectors self = [] -> getStats self = mkStats 0 0 None None) /\
  getStats (clear self) = mkStats 0 0 None None /\
  (forall contextId, getMomentumVector (clear self) contextId = None) /\
  (momentumVectors self <> [] ->
   count (getStats self) = List.length (momentumVectors self) /\
   stats_transitions (getStats self) = Some (List.length (transitionHistory self))) /\
  (forall key v, momentumVectors self = [(key, v)] ->
   averageMomentum (getStats self) = overall v).
Proof.
  split; [intros E; unfold getStats; rewrite E; reflexivity|].
  split; [reflexivity|]. split; [reflexivity|].
  split.
  - intros Hne. unfold getStats.
    destruct (momentumVectors self) as [|[k v] rest] eqn:E; [congruence|].
    cbn [map snd count stats_transitions].
    split; [simpl; rewrite length_map; reflexivity | reflexivity].
  - intros key v E. unfold getStats. rewrite E.
    cbn [map snd averageMomentum fold_left List.length INR]. field.
Qed.

End HistoryFacts.

(* ------------------------------------------------------------------ *)
(** ** The facade *)

(** X28.  [new CONTEXTUAL(config)] always returns, and its vault starts
    without a context: [_restoreState] asks the new vault for its
    identifiers, of which there are none, so nothing is loaded from the
    storage, whatever it holds.  The vault's key is the one it draws
    itself, also when the caller's configuration names one; the engine's
    half-life is the configured [momentumHalfLife]. *)
Theorem facade_starts_without_contexts
    {runtime : Runtime} (o : Facade.options) (generated : string) (w : world) :
  exists self w1,
    Facade.constructor o generated w = (Return self, w1) /\
    contexts (Facade.vault self) = [] /\
    encryptionKey (vault_config (Facade.vault self)) = generated /\
    encryptionEnabled (vault_config (Facade.vault self)) =
      Facade.encryptionEnabled (Facade.facade_config self) /\
    MomentumEngine.halfLife (MomentumTracking.engine_config (Facade.momentumEngine self)) =
      Facade.momentumHalfLife (Facade.facade_config self).
Proof.
  unfold Facade.constructor.
  set (cfg := {| Facade.storagePath := _ |}).
  destruct (constructor (Facade.vault_options cfg) generated w) as [v w1] eqn:Ev.
  assert (Hv : contexts v = [] /\ encryptionKey (vault_config v) = generated /\
               encryptionEnabled (vault_config v) = Facade.encryptionEnabled cfg /\
               storage w1 = storage w).
  { unfold constructor, _initStorage, _startAutoBackup, Facade.vault_options in Ev.
    cbn [opt_storagePath opt_encryptionEnabled opt_encryptionKey opt_backupEnabled
         opt_backupInterval opt_maxBackups spread backupEnabled] in Ev.
    destruct (Facade.autoBackup cfg); destruct (available (storage w));
      injection Ev as <- <-; repeat split. }
  destruct Hv as (Hc & Hk & He & Hs).
  unfold Facade._restoreState, VaultAdmin.getAllContextIds.
  cbn [Facade.vault]. rewrite Hc. cbn [map Facade.restore_ids].
  eexists _, w1. split; [reflexivity|].
  cbn [Facade.vault Facade.facade_config Facade.momentumEngine].
  repeat split; assumption.
Qed.

(* ------------------------------------------------------------------ *)
(** ** The configuration of the momentum engine *)

Section EngineConfiguration.
Import MomentumEngine.
Local Open Scope R_scope.

Lemma or_default_zero (d : R) : or_default (Some 0) d = d.
Proof. unfold or_default. rewrite truthy_zero. reflexivity. Qed.

Lemma or_default_nonzero (x d : R) : x <> 0 -> or_default (Some x) d = x.
Proof. intros H. unfold or_default. rewrite (truthy_nonzero x H). reflexivity. Qed.

(** X30.  The configuration that [new MomentumEngine(config)] builds.
    Without options the half-life is 30000, the floor 0.1, the history
    limit 1000, and the five weights are 0.25, 0.30, 0.20, 0.15 and 0.10,
    which sum to 1.  A half-life, floor or limit that the caller gives is
    kept as it is, zero included.  A weight given as [temporalWeight]
    (and the like) is kept unless it is zero, which the default replaces;
    a [factors] object of the caller replaces all five weights. *)
Theorem momentum_constructor_configuration (o : options) :
  constructor default_options =
    mkConfig 30000 (1/10) 1000 (mkFactors (25/100) (30/100) (20/100) (15/100) (10/100)) /\
  temporal (factors (constructor default_options)) +
  semantic (factors (constructor default_options)) +
  operational (factors (constructor default_options)) +
  depth (factors (constructor default_options)) +
  confidence (factors (constructor default_options)) = 1 /\
  (forall h, opt_halfLife o = Some h -> halfLife (constructor o) = h) /\
  (forall m, opt_minMomentum o = Some m -> minMomentum (constructor o) = m) /\
  (forall n, opt_maxHistory o = Some n -> maxHistory (constructor o) = n) /\
  (opt_factors o = None -> opt_temporalWeight o = Some 0 ->
   temporal (factors (constructor o)) = 25/100) /\
  (forall x, opt_factors o = None -> opt_temporalWeight o = Some x -> x <> 0 ->
   temporal (factors (constructor o)) = x) /\
  (forall f, opt_factors o = Some f -> factors (constructor o) = f).
Proof.
  split; [reflexivity|].
  split; [simpl; lra|].
  split; [intros h E; unfold constructor; rewrite E; reflexivity|].
  split; [intros m E; unfold constructor; rewrite E; reflexivity|].
  split; [intros n E; unfold constructor; rewrite E; reflexivity|].
  split.
  { intros Ef Ew. unfold constructor. rewrite Ef, Ew. cbn [spread factors temporal].
    apply or_default_zero. }
  split.
  { intros x Ef Ew Hx. unfold constructor. rewrite Ef, Ew. cbn [spread factors temporal].
    apply or_default_nonzero. exact Hx. }
  intros f Ef. unfold constructor. rewrite Ef. reflexivity.
Qed.

End EngineConfiguration.
